(** * The retrieval core of the RAG chatbot

    A shallow embedding of the three source files that make up the
    retrieval core:

    - [services/documentProcessor.ts]: [analyzeContentType] and
      [intelligentChunking];
    - [services/vectorService.ts]: [tokenize], [calculateIdf],
      [vectorizeWithTfidf] and [cosineSimilarity];
    - [App.tsx]: [getChunkId], the re-indexing effect,
      [addDocumentToKnowledgeBase] and [findRelevantChunks].

    Conventions.

    - A JavaScript [number] that the code uses as a count, a length or an
      index is a [nat] (doubles are exact on integers below 2^53).  A
      [number] that carries a weight or a score is an element of a type
      with the operations of the class [JsNumber]; the code is written
      once against that class and read at two instances: IEEE-754
      binary64 ([float], what the program runs on) and the real numbers
      ([R], the arithmetic the documentation reasons in).
    - A [Map<string, V>] is an association list in insertion order with
      one entry per key; a [Set<string>] is a duplicate-free list in
      insertion order.  The order is kept because [forEach] follows it and
      binary64 addition is not associative.
    - A string is a sequence of code units, here the 8-bit ones (the
      Latin-1 block), which hold all of [\w] and the usual members of [\s].
*)

From Stdlib Require Import Reals Lra Lia Floats ZArith.
From Stdlib Require Import List String Ascii DecimalString Bool Arith.
From Stdlib Require Import Permutation Sorted.
From Stdlib Require DecimalNat.
Import ListNotations.

Local Open Scope string_scope.
Local Open Scope list_scope.

(** ** JavaScript numbers *)

Declare Scope js_scope.
Delimit Scope js_scope with js.

(** The arithmetic the services use on weights and scores. *)
Class JsNumber (num : Type) : Type := {
  num_of_nat : nat -> num;          (* an integer-valued number *)
  num_add : num -> num -> num;      (* [a + b] *)
  num_sub : num -> num -> num;      (* [a - b] *)
  num_mul : num -> num -> num;      (* [a * b] *)
  num_div : num -> num -> num;      (* [a / b] *)
  num_sqrt : num -> num;            (* [Math.sqrt(a)] *)
  num_eqb : num -> num -> bool;     (* [a === b] *)
  num_ltb : num -> num -> bool      (* [a < b] *)
}.

(** [Math.log], kept apart: binary64 has no primitive logarithm. *)
Class JsLog (num : Type) : Type := Math_log : num -> num.

Notation "x + y" := (num_add x y) : js_scope.
Notation "x - y" := (num_sub x y) : js_scope.
Notation "x * y" := (num_mul x y) : js_scope.
Notation "x / y" := (num_div x y) : js_scope.
Notation "x === y" := (num_eqb x y) (at level 70, no associativity) : js_scope.
Notation "x <? y" := (num_ltb x y) : js_scope.
Notation "x >? y" := (num_ltb y x) : js_scope.

Definition num_zero {num} `{JsNumber num} : num := num_of_nat 0.
Definition num_one {num} `{JsNumber num} : num := num_of_nat 1.

(** A decimal literal [p / q], such as [0.03 = 3/100] and [0.01 = 1/100]:
    the literal denotes the double nearest to the quotient, which is what a
    correctly rounded division of the two integers returns. *)
Definition num_lit {num} `{JsNumber num} (p q : nat) : num :=
  (num_of_nat p / num_of_nat q)%js.

(** [x || 0] on a number: [0], [-0] and [NaN] are falsy. *)
Definition orZero {num} `{JsNumber num} (x : num) : num :=
  if (x === num_zero)%js || negb (x === x)%js then num_zero else x.

(** [m.get(k) || 0]: [undefined] is falsy too. *)
Definition getOrZero {num} `{JsNumber num} (o : option num) : num :=
  match o with
  | Some x => orZero x
  | None => num_zero
  end.

(** *** The real numbers *)

Definition Reqb (a b : R) : bool := if Req_dec_T a b then true else false.
Definition Rltb (a b : R) : bool := if Rlt_dec a b then true else false.

#[export] Instance RealNumber : JsNumber R := {
  num_of_nat := INR;
  num_add := Rplus;
  num_sub := Rminus;
  num_mul := Rmult;
  num_div := Rdiv;
  num_sqrt := R_sqrt.sqrt;
  num_eqb := Reqb;
  num_ltb := Rltb
}.

#[export] Instance RealLog : JsLog R := ln.

(** *** IEEE-754 binary64 *)

Definition float_of_nat (n : nat) : float :=
  PrimFloat.of_uint63 (Uint63.of_Z (Z.of_nat n)).

#[export] Instance FloatNumber : JsNumber float := {
  num_of_nat := float_of_nat;
  num_add := PrimFloat.add;
  num_sub := PrimFloat.sub;
  num_mul := PrimFloat.mul;
  num_div := PrimFloat.div;
  num_sqrt := PrimFloat.sqrt;
  num_eqb := PrimFloat.eqb;
  num_ltb := PrimFloat.ltb
}.

(** ** [Map<string, V>] and [Set<string>] *)

Definition Map (V : Type) : Type := list (string * V).

Fixpoint Map_get {V} (m : Map V) (k : string) : option V :=
  match m with
  | [] => None
  | (k', v) :: m' => if String.eqb k k' then Some v else Map_get m' k
  end.

(** [m.set(k, v)]: an existing key keeps its place, a new one goes last. *)
Fixpoint Map_set {V} (m : Map V) (k : string) (v : V) : Map V :=
  match m with
  | [] => [(k, v)]
  | (k', v') :: m' =>
      if String.eqb k k' then (k', v) :: m' else (k', v') :: Map_set m' k v
  end.

Definition Map_keys {V} (m : Map V) : list string := map fst m.
Definition Map_values {V} (m : Map V) : list V := map snd m.
Definition Map_size {V} (m : Map V) : nat := List.length m.
Definition Map_has {V} (m : Map V) (k : string) : bool :=
  match Map_get m k with Some _ => true | None => false end.

(** The invariant of a [Map]: one entry per key. *)
Definition Map_wf {V} (m : Map V) : Prop := NoDup (Map_keys m).

Definition JsSet : Type := list string.

Definition Set_has (s : JsSet) (k : string) : bool := existsb (String.eqb k) s.

Definition Set_add (s : JsSet) (k : string) : JsSet :=
  if Set_has s k then s else s ++ [k].

(** [new Set(iterable)] *)
Definition Set_from (l : list string) : JsSet := fold_left Set_add l [].

(** ** Outcome of a call: a JavaScript function returns or throws. *)

Inductive JsError : Type :=
| ConfigurationError
| IngestionError.

Inductive Completion (A : Type) : Type :=
| Returned (a : A)
| Thrown (e : JsError).
Arguments Returned {A} a.
Arguments Thrown {A} e.

(** ** [types.ts] *)

Inductive ContentType : Type := narrative | atomic.

Record Document : Type := mkDocument {
  name : string;
  type : string;
  size : nat
}.

Record Chunk : Type := mkChunk {
  source : string;
  chunkIndex : nat;
  text : string;
  metadata : option ContentType
}.

(** ** [services/documentProcessor.ts] *)

Record ChunkConfig : Type := mkConfig {
  cfg_size : nat;
  cfg_overlap : nat
}.

Definition NARRATIVE_CHUNK_CONFIG : ChunkConfig := mkConfig 800 80.
Definition ATOMIC_CHUNK_CONFIG : ChunkConfig := mkConfig 400 40.

(** [0.03] *)
Definition NEWLINE_DENSITY_THRESHOLD {num} `{JsNumber num} : num := num_lit 3 100.

Definition newline : ascii := "010"%char.

(** [(text.match(/\n/g) || []).length] *)
Fixpoint newlineCount (text : string) : nat :=
  match text with
  | EmptyString => 0
  | String c rest =>
      (if Ascii.eqb c newline then 1 else 0) + newlineCount rest
  end.

Definition newlineDensity {num} `{JsNumber num} (text : string) : num :=
  (num_of_nat (newlineCount text) / num_of_nat (String.length text))%js.

Definition analyzeContentType {num} `{JsNumber num} (text : string) : ContentType :=
  if Nat.eqb (String.length text) 0 then narrative
  else if (newlineDensity text >? NEWLINE_DENSITY_THRESHOLD)%js then atomic
  else narrative.

(** [text.substring(start, end)] for [0 <= start] and [end <= text.length];
    when [end < start] JavaScript swaps the two, which the sliding window
    never asks for ([index < end] there, or [end = 0 = index]). *)
Definition js_substring (s : string) (start stop : nat) : string :=
  String.substring start (stop - start) s.

(** The [while] loop of [intelligentChunking].  [fuel] bounds the number of
    iterations; [chunkLoop_fuel] below shows that [String.length text] is
    always enough, so the bound is never what stops the loop. *)
Fixpoint chunkLoop (fuel : nat) (config : ChunkConfig) (contentType : ContentType)
    (text sourceName : string) (index chunkIndex : nat) : list Chunk :=
  match fuel with
  | O => []
  | S fuel' =>
      if Nat.ltb index (String.length text) then
        let stop := Nat.min (index + cfg_size config) (String.length text) in
        let chunk :=
          mkChunk sourceName chunkIndex (js_substring text index stop)
                  (Some contentType) in
        let nextIndex := index + cfg_size config - cfg_overlap config in
        if Nat.leb nextIndex index then [chunk]
        else chunk :: chunkLoop fuel' config contentType text sourceName
                                 nextIndex (S chunkIndex)
      else []
  end.

(** The sliding window under a given configuration. *)
Definition slidingWindow (config : ChunkConfig) (contentType : ContentType)
    (text sourceName : string) : list Chunk :=
  chunkLoop (String.length text) config contentType text sourceName 0 0.

Definition configFor (contentType : ContentType) : ChunkConfig :=
  match contentType with
  | narrative => NARRATIVE_CHUNK_CONFIG
  | atomic => ATOMIC_CHUNK_CONFIG
  end.

Definition intelligentChunking {num} `{JsNumber num} (text sourceName : string)
  : list Chunk * ContentType :=
  let contentType := analyzeContentType text in
  let config := configFor contentType in
  (slidingWindow config contentType text sourceName, contentType).

(** ** [services/vectorService.ts] *)

Fixpoint string_map (f : ascii -> ascii) (s : string) : string :=
  match s with
  | EmptyString => EmptyString
  | String c rest => String (f c) (string_map f rest)
  end.

Fixpoint string_filter (p : ascii -> bool) (s : string) : string :=
  match s with
  | EmptyString => EmptyString
  | String c rest =>
      if p c then String c (string_filter p rest) else string_filter p rest
  end.

Definition between (lo hi : nat) (c : ascii) : bool :=
  Nat.leb lo (nat_of_ascii c) && Nat.leb (nat_of_ascii c) hi.

(** One code unit of [toLowerCase()]: [A-Z], and the Latin-1 capitals
    U+00C0 to U+00DE without the multiplication sign U+00D7. *)
Definition lowerChar (c : ascii) : ascii :=
  if between 65 90 c
     || (between 192 222 c && negb (Nat.eqb (nat_of_ascii c) 215))
  then ascii_of_nat (nat_of_ascii c + 32)
  else c.

Definition toLowerCase (s : string) : string := string_map lowerChar s.

(** [\w] is [[A-Za-z0-9_]]. *)
Definition isWordChar (c : ascii) : bool :=
  between 97 122 c || between 65 90 c || between 48 57 c
  || Nat.eqb (nat_of_ascii c) 95.

(** [\s] below U+0100: tab, line feed, vertical tab, form feed, carriage
    return, space and the no-break space. *)
Definition isSpaceChar (c : ascii) : bool :=
  between 9 13 c || Nat.eqb (nat_of_ascii c) 32 || Nat.eqb (nat_of_ascii c) 160.

(** [.replace(/[^\w\s]/g, '')] *)
Definition removePunctuation (s : string) : string :=
  string_filter (fun c => isWordChar c || isSpaceChar c) s.

(** [.split(/\s+/)]: the pieces between maximal runs of white space, the
    empty pieces at both ends included.  [cur] is the piece being read and
    [inRun] tells whether the previous code unit was white space. *)
Fixpoint splitLoop (s : string) (cur : string) (inRun : bool) : list string :=
  match s with
  | EmptyString => [cur]
  | String c rest =>
      if isSpaceChar c then
        if inRun then splitLoop rest cur true
        else cur :: splitLoop rest EmptyString true
      else splitLoop rest (cur ++ String c EmptyString) false
  end.

Definition splitWhitespace (s : string) : list string :=
  splitLoop s EmptyString false.

Definition tokenize (text : string) : list string :=
  filter (fun word => Nat.ltb 0 (String.length word))
         (splitWhitespace (removePunctuation (toLowerCase text))).

(** [m.get(term) || 0] on a map of counts. *)
Definition countOr0 (o : option nat) : nat :=
  match o with Some n => n | None => 0 end.

(** [m.set(term, (m.get(term) || 0) + 1)] *)
Definition increment (m : Map nat) (term : string) : Map nat :=
  Map_set m term (countOr0 (Map_get m term) + 1).

(** The first loop of [calculateIdf]: the document frequency of each term. *)
Definition docFrequencyOf (chunks : list Chunk) : Map nat :=
  fold_left
    (fun docFrequency chunk =>
       let uniqueTerms := Set_from (tokenize (text chunk)) in
       fold_left increment uniqueTerms docFrequency)
    chunks [].

(** [Math.log((totalDocs + 1) / (df + 1)) + 1] *)
Definition idfFormula {num} `{JsNumber num} `{JsLog num} (totalDocs df : nat) : num :=
  (Math_log (num_of_nat (totalDocs + 1) / num_of_nat (df + 1)) + num_one)%js.

Definition calculateIdf {num} `{JsNumber num} `{JsLog num}
    (chunks : list Chunk) : Map num :=
  let totalDocs := List.length chunks in
  if Nat.eqb totalDocs 0 then []
  else
    fold_left
      (fun idfMap '(term, df) => Map_set idfMap term (idfFormula totalDocs df))
      (docFrequencyOf chunks) [].

Definition vectorizeWithTfidf {num} `{JsNumber num}
    (text : string) (idfMap : Map num) : Map num :=
  let tokens := tokenize text in
  if Nat.eqb (List.length tokens) 0 then []
  else
    let termFrequency := fold_left increment tokens [] in
    fold_left
      (fun tfidfVector '(term, tf) =>
         let idf := getOrZero (Map_get idfMap term) in
         let normalizedTf := (num_of_nat tf / num_of_nat (List.length tokens))%js in
         Map_set tfidfVector term (normalizedTf * idf)%js)
      termFrequency [].

(** The sum of squares that [vec.forEach(value => m += value * value)]
    accumulates. *)
Definition sumSquares {num} `{JsNumber num} (vec : Map num) : num :=
  fold_left (fun acc '(_, value) => (acc + value * value)%js) vec num_zero.

Definition magnitude {num} `{JsNumber num} (vec : Map num) : num :=
  num_sqrt (sumSquares vec).

Definition dotProductOf {num} `{JsNumber num} (vecA vecB : Map num) : num :=
  let allKeys := Set_from (Map_keys vecA ++ Map_keys vecB) in
  fold_left
    (fun dotProduct key =>
       (dotProduct + getOrZero (Map_get vecA key) * getOrZero (Map_get vecB key))%js)
    allKeys num_zero.

Definition cosineSimilarity {num} `{JsNumber num} (vecA vecB : Map num) : num :=
  let dotProduct := dotProductOf vecA vecB in
  let magnitudeA := magnitude vecA in
  let magnitudeB := magnitude vecB in
  if (magnitudeA === num_zero)%js || (magnitudeB === num_zero)%js then num_zero
  else (dotProduct / (magnitudeA * magnitudeB))%js.

(** ** [App.tsx] *)

(** [`${chunk.source}_${chunk.chunkIndex}`] *)
Definition getChunkId (chunk : Chunk) : string :=
  source chunk ++ "_" ++ NilEmpty.string_of_uint (Nat.to_uint (chunkIndex chunk)).

(** The knowledge-base part of the component state. *)
Record KnowledgeBase (num : Type) : Type := mkKB {
  documents : list Document;
  chunks : list Chunk;
  idfMap : Map num;
  chunkTfidfVectors : Map (Map num)
}.
Arguments mkKB {num} _ _ _ _.
Arguments documents {num} _.
Arguments chunks {num} _.
Arguments idfMap {num} _.
Arguments chunkTfidfVectors {num} _.

Definition emptyKB {num} : KnowledgeBase num := mkKB [] [] [] [].

(** The effect that runs when [chunks] has changed. *)
Definition reindex {num} `{JsNumber num} `{JsLog num}
    (kb : KnowledgeBase num) : KnowledgeBase num :=
  if Nat.eqb (List.length (chunks kb)) 0 then
    mkKB (documents kb) (chunks kb) [] []
  else
    let newIdfMap := calculateIdf (chunks kb) in
    let newChunkVectors :=
      fold_left
        (fun vectors chunk =>
           Map_set vectors (getChunkId chunk)
                   (vectorizeWithTfidf (text chunk) newIdfMap))
        (chunks kb) [] in
    mkKB (documents kb) (chunks kb) newIdfMap newChunkVectors.

(** [addDocumentToKnowledgeBase]: the two state updates.  (The chat message
    it posts is display only and is left out.) *)
Definition addDocumentToKnowledgeBase {num} `{JsNumber num}
    (fileName fileType : string) (fileSize : nat) (textContent : string)
    (kb : KnowledgeBase num) : Completion (KnowledgeBase num) :=
  let '(newChunks, contentType) := intelligentChunking textContent fileName in
  Returned
    (mkKB (documents kb ++ [mkDocument fileName fileType fileSize])
          (chunks kb ++ newChunks)
          (idfMap kb) (chunkTfidfVectors kb)).

(** [setDocuments([]); setChunks([])], as the sample loader does first. *)
Definition clearKnowledgeBase {num} (kb : KnowledgeBase num) : KnowledgeBase num :=
  mkKB [] [] (idfMap kb) (chunkTfidfVectors kb).

(** An upload followed by the effect. *)
Definition ingest {num} `{JsNumber num} `{JsLog num}
    (fileName fileType : string) (fileSize : nat) (textContent : string)
    (kb : KnowledgeBase num) : Completion (KnowledgeBase num) :=
  match addDocumentToKnowledgeBase fileName fileType fileSize textContent kb with
  | Returned kb' => Returned (reindex kb')
  | Thrown e => Thrown e
  end.

Record ScoredChunk (num : Type) : Type := mkScored {
  chunk : Chunk;
  score : num
}.
Arguments mkScored {num} _ _.
Arguments chunk {num} _.
Arguments score {num} _.

(** [Array.prototype.sort(compareFn)].  The standard asks for a stable sort
    and leaves the algorithm open.  When [compareFn] is a consistent
    comparator for the items (it never returns [NaN] and its sign is a
    total preorder of them), the sorted array is determined: it is the one
    array with the same items in ascending order of [compareFn], equal
    items in their original order ([Array_sort_unique] below), which the
    insertion sort computes; [compareFn a b > 0] puts [b] first.  When
    [compareFn] is not consistent, as with a [NaN] score, the standard
    leaves the order to the engine: the array still holds the same items,
    but the order of the insertion sort need not be the engine's.  What is
    proved below about the order therefore assumes the comparator
    consistent ([comparableScores]); what is proved without that
    assumption uses only that the sorted array holds the same items. *)
Fixpoint sortInsert {A num} `{JsNumber num}
    (compareFn : A -> A -> num) (x : A) (l : list A) : list A :=
  match l with
  | [] => [x]
  | y :: rest =>
      if (compareFn x y >? num_zero)%js then y :: sortInsert compareFn x rest
      else x :: y :: rest
  end.

Definition Array_sort {A num} `{JsNumber num}
    (compareFn : A -> A -> num) (l : list A) : list A :=
  fold_right (sortInsert compareFn) [] l.

(** [0.01] *)
Definition RELEVANCE_FLOOR {num} `{JsNumber num} : num := num_lit 1 100.

(** The score [findRelevantChunks] gives a chunk. *)
Definition scoreChunk {num} `{JsNumber num}
    (vectors : Map (Map num)) (queryVector : Map num) (c : Chunk) : num :=
  match Map_get vectors (getChunkId c) with
  | None => num_zero
  | Some chunkVector => cosineSimilarity queryVector chunkVector
  end.

(** Steps 1 to 3 and the filter of step 4, on any array of scored items. *)
Definition rankScored {A num} `{JsNumber num}
    (scoreOf : A -> num) (scored : list A) : list A :=
  let sorted := Array_sort (fun a b => (scoreOf b - scoreOf a)%js) scored in
  firstn 3 (filter (fun sc => (scoreOf sc >? RELEVANCE_FLOOR)%js) sorted).

(** [chunks.length === 0 || chunkTfidfVectors.size === 0 || idfMap.size === 0] *)
Definition indexIsEmpty {num} (kb : KnowledgeBase num) : bool :=
  Nat.eqb (List.length (chunks kb)) 0
  || Nat.eqb (Map_size (chunkTfidfVectors kb)) 0
  || Nat.eqb (Map_size (idfMap kb)) 0.

Definition findRelevantChunks {num} `{JsNumber num}
    (kb : KnowledgeBase num) (query : string) : list Chunk :=
  if indexIsEmpty kb then []
  else
    let queryVector := vectorizeWithTfidf query (idfMap kb) in
    let scoredChunks :=
      map (fun c => mkScored c (scoreChunk (chunkTfidfVectors kb) queryVector c))
          (chunks kb) in
    map chunk (rankScored score scoredChunks).

(** ** The callers: uploads, sample data, the chat form *)

(** A promise settles with a value, or is rejected with an [Error] that
    carries a message, or with some other value (the event a [FileReader]
    passes to [onerror]). *)
Inductive Rejection : Type :=
| ErrorWith (message : string)
| OtherReason.

Inductive Promise (A : Type) : Type :=
| Resolved (a : A)
| Rejected (r : Rejection).
Arguments Resolved {A} a.
Arguments Rejected {A} r.

(** A [File]: its name, MIME type and size in bytes, and what
    [FileReader.readAsText] delivers ([None] when the reader fails). *)
Record File : Type := mkFile {
  file_name : string;
  file_type : string;
  file_size : nat;
  file_read : option string
}.

(** [processFile] of documentProcessor.ts *)
Definition processFile (file : File) : Promise string :=
  if negb (String.eqb (file_type file) "text/plain") then
    Rejected (ErrorWith "Unsupported file type. Please upload a .txt file.")
  else
    match file_read file with
    | Some content => Resolved content
    | None => Rejected OtherReason
    end.

(** What [handleFileUpload] can change: the knowledge base, the active tab,
    and the alerts shown so far (the busy flag is display only). *)
Record Screen (num : Type) : Type := mkScreen {
  screen_kb : KnowledgeBase num;
  activeTab : string;
  alerts : list string
}.
Arguments mkScreen {num} _ _ _.
Arguments screen_kb {num} _.
Arguments activeTab {num} _.
Arguments alerts {num} _.

(** The [catch] block: [alert(`Error: ${errorMessage}`)]. *)
Definition alertError {num} (r : Rejection) (st : Screen num) : Screen num :=
  let errorMessage :=
    match r with
    | ErrorWith message => message
    | OtherReason => "An unknown error occurred."
    end in
  mkScreen (screen_kb st) (activeTab st) (alerts st ++ [("Error: " ++ errorMessage)%string]).

Definition MAX_UPLOAD_BYTES : nat := 5 * 1024 * 1024.

(** [handleFileUpload].  ([addDocumentToKnowledgeBase] has no [throw]; its
    [Thrown] branch is there for the type alone.) *)
Definition handleFileUpload {num} `{JsNumber num}
    (file : File) (st : Screen num) : Screen num :=
  if Nat.ltb MAX_UPLOAD_BYTES (file_size file) then
    alertError (ErrorWith "File size exceeds 5MB limit.") st
  else
    match processFile file with
    | Rejected r => alertError r st
    | Resolved textContent =>
        match addDocumentToKnowledgeBase (file_name file) (file_type file)
                (file_size file) textContent (screen_kb st) with
        | Returned kb' => mkScreen kb' "knowledge" (alerts st)
        | Thrown _ => alertError OtherReason st
        end
    end.

(** [new Blob([content]).size]: the length of the UTF-8 encoding, two bytes
    for a code unit from U+0080 to U+00FF. *)
Fixpoint blobSize (content : string) : nat :=
  match content with
  | EmptyString => 0
  | String c rest =>
      (if Nat.ltb (nat_of_ascii c) 128 then 1 else 2) + blobSize rest
  end.

(** The knowledge-base part of [handleLoadSampleData], for the array
    [sampleDocs] of names and contents it is given: clear, then one pair of
    state updates per document. *)
Definition loadSampleDocs {num} `{JsNumber num}
    (sampleDocs : list (string * string)) (kb : KnowledgeBase num)
  : KnowledgeBase num :=
  fold_left
    (fun kb '(docName, content) =>
       let fileSize := blobSize content in
       let newChunks := fst (intelligentChunking content docName) in
       mkKB (documents kb ++ [mkDocument docName "text/plain" fileSize])
            (chunks kb ++ newChunks) (idfMap kb) (chunkTfidfVectors kb))
    sampleDocs (clearKnowledgeBase kb).

(** [[query, ...expandedQueries].join(' ')] of [handleSendMessage] *)
Definition retrievalQuery (query : string) (expandedQueries : list string)
  : string :=
  String.concat " " (query :: expandedQueries).

Fixpoint trimStart (s : string) : string :=
  match s with
  | EmptyString => EmptyString
  | String c rest => if isSpaceChar c then trimStart rest else s
  end.

Definition string_rev (s : string) : string :=
  string_of_list_ascii (rev (list_ascii_of_string s)).

Definition trimEnd (s : string) : string :=
  string_rev (trimStart (string_rev s)).

(** [s.trim()]: white space and line terminators off both ends. *)
Definition trim (s : string) : string := trimEnd (trimStart s).

(** [handleSubmit] of ChatWindow.tsx: the message handed to
    [onSendMessage], if any. *)
Definition handleSubmit (input : string) (isAiLoading isKnowledgeBaseReady : bool)
  : option string :=
  if Nat.ltb 0 (String.length (trim input))
     && negb isAiLoading && isKnowledgeBaseReady
  then Some (trim input)
  else None.

(** ** Vocabulary of the statements *)

(** The chunk that the window cuts at [offset], numbered [i]: the span
    [[offset, min(offset + size, length))] of the text. *)
Definition windowAt (config : ChunkConfig) (contentType : ContentType)
    (content sourceName : string) (offset i : nat) : Chunk :=
  mkChunk sourceName i
          (js_substring content offset
             (Nat.min (offset + cfg_size config) (String.length content)))
          (Some contentType).

(** A string without its first [k] code units. *)
Definition dropPrefix (k : nat) (s : string) : string :=
  String.substring k (String.length s - k) s.

(** The chunk texts put back together: the first one whole, every later one
    without its first [overlap] code units, nothing cut at the end. *)
Definition removeOverlap (overlap : nat) (texts : list string) : string :=
  match texts with
  | [] => EmptyString
  | first :: rest => first ++ String.concat "" (map (dropPrefix overlap) rest)
  end.

(** The other way to take the overlap out: every chunk but the last cut
    down to its first [step = size - overlap] code units, the last chunk in
    full. *)
Fixpoint trimOverlap (step : nat) (texts : list string) : string :=
  match texts with
  | [] => EmptyString
  | c :: rest =>
      match rest with
      | [] => c
      | _ :: _ => String.substring 0 step c ++ trimOverlap step rest
      end
  end.

(** Whether the set of distinct tokens of a chunk contains [term]. *)
Definition containsTerm (term : string) (c : Chunk) : bool :=
  Set_has (Set_from (tokenize (text c))) term.

(** The document frequency of [term]: the number of chunks whose set of
    distinct tokens contains it. *)
Definition documentFrequency (term : string) (corpus : list Chunk) : nat :=
  List.length (filter (containsTerm term) corpus).

(** The two-chunk corpus of the worked example. *)
Definition chunkA : Chunk := mkChunk "pets.txt" 0 "cat dog" (Some narrative).
Definition chunkB : Chunk := mkChunk "pets.txt" 1 "dog bird" (Some narrative).

(** The sum of a list of reals. *)
Definition Rsum (l : list R) : R := fold_right Rplus 0%R l.

(** The weight a vector gives a key, [vec.get(key) || 0]. *)
Definition weightOf {num} `{JsNumber num} (vec : Map num) (key : string) : num :=
  getOrZero (Map_get vec key).

(** All the weights of a vector are non-negative reals. *)
Definition nonNegative (vec : Map R) : Prop :=
  Forall (fun entry => (0 <= snd entry)%R) vec.

(** Binary64 vectors on which the program is run below:
    [{a: 1, b: 1, c: 1}], [{p: 0.1, q: 0.2, r: 0.3}] and
    [{r: 1, q: 1, p: 1}]. *)
Definition unitVector3 : Map float :=
  [("a", num_lit 1 1); ("b", num_lit 1 1); ("c", num_lit 1 1)].

(** An array with each item tagged by its position, counted from [start]. *)
Fixpoint tagFrom {A} (start : nat) (l : list A) : list (nat * A) :=
  match l with
  | [] => []
  | x :: rest => (start, x) :: tagFrom (S start) rest
  end.

(** Position [p] ranks before position [q]: its score is higher, or the
    scores are equal and [p] comes first in the corpus. *)
Definition ranksBefore (scoreAt : nat -> R) (p q : nat) : Prop :=
  (scoreAt q < scoreAt p)%R \/ (scoreAt p = scoreAt q /\ p < q).

(** [(a, b) => b.score - a.score] is a consistent comparator on [scores],
    as the standard asks of the argument of [sort], and its sign is the
    comparison of the two scores: the difference of two scores is never
    [NaN], it is positive exactly when [a < b] and negative exactly when
    [b < a], [a === b] exactly when neither is smaller, and [<] on the
    scores is irreflexive and transitive, as is "not smaller than".  The
    test can be run on binary64 scores; a [NaN] among them fails it. *)
Definition comparableScores {num} `{JsNumber num} (scores : list num) : bool :=
  forallb
    (fun a =>
       negb (a <? a)%js
       && forallb
            (fun b =>
               let difference := (b - a)%js in
               (difference === difference)%js
               && Bool.eqb (difference >? num_zero)%js (a <? b)%js
               && Bool.eqb (difference <? num_zero)%js (b <? a)%js
               && Bool.eqb (a === b)%js (negb (a <? b)%js && negb (b <? a)%js)
               && forallb
                    (fun c =>
                       implb ((a <? b)%js && (b <? c)%js) (a <? c)%js
                       && implb (negb (a <? b)%js && negb (b <? c)%js)
                                (negb (a <? c)%js))
                    scores)
            scores)
    scores.

(** [ranksBefore] on the scores as the program computes them: the score at
    [p] is greater ([<] of the arithmetic), or the two are equal ([===])
    and [p] comes first in the corpus. *)
Definition ranksBeforeIn {num} `{JsNumber num}
    (scoreAt : nat -> num) (p q : nat) : Prop :=
  (scoreAt q <? scoreAt p)%js = true
  \/ ((scoreAt p === scoreAt q)%js = true /\ p < q).

(** A binary64 knowledge base over the two chunks, indexed with the table
    [{cat: 1.5, dog: 1, bird: 1.5}]. *)
Definition idfExample : Map float :=
  [("cat", num_lit 3 2); ("dog", num_lit 1 1); ("bird", num_lit 3 2)].

Definition kbExample : KnowledgeBase float :=
  mkKB [mkDocument "pets.txt" "text/plain" 16] [chunkA; chunkB] idfExample
       [(getChunkId chunkA, vectorizeWithTfidf (text chunkA) idfExample);
        (getChunkId chunkB, vectorizeWithTfidf (text chunkB) idfExample)].

(** The knowledge base the effect leaves for a corpus when the IDF table
    it computed is [idf]: the table, and a vector under the id of every
    chunk. *)
Definition indexedWith {num} `{JsNumber num} (idf : Map num)
    (docs : list Document) (corpus : list Chunk) : KnowledgeBase num :=
  mkKB docs corpus idf
       (fold_left
          (fun vectors c =>
             Map_set vectors (getChunkId c) (vectorizeWithTfidf (text c) idf))
          corpus []).

(** The IDF table of a corpus in which every term occurs in every chunk:
    [Math.log((N + 1) / (N + 1)) + 1 = Math.log(1) + 1 = 1]. *)
Definition onesTable (terms : list string) : Map float :=
  map (fun term => (term, num_lit 1 1)) terms.

(** Binary64 states of the application: after the upload of one file
    [doc.txt] holding [a b c d e f g], and after the upload of [a.txt]
    holding [a b b b c] followed by [b.txt] holding [a c b b b]. *)
Definition sevenWords : Chunk :=
  mkChunk "doc.txt" 0 "a b c d e f g" (Some narrative).
Definition kbSevenWords : KnowledgeBase float :=
  indexedWith (onesTable ["a"; "b"; "c"; "d"; "e"; "f"; "g"])
              [mkDocument "doc.txt" "text/plain" 13] [sevenWords].
Definition uploadA : Chunk := mkChunk "a.txt" 0 "a b b b c" (Some narrative).
Definition uploadB : Chunk := mkChunk "b.txt" 0 "a c b b b" (Some narrative).
Definition kbTwoUploads : KnowledgeBase float :=
  indexedWith (onesTable ["a"; "b"; "c"])
              [mkDocument "a.txt" "text/plain" 9;
               mkDocument "b.txt" "text/plain" 9]
              [uploadA; uploadB].

(** A vector with a tiny weight, whose square is rounded in the subnormal
    range: [{a: 0x1.3p-537}]. *)
Definition tinyVector : Map float := [("a", 0x1.3p-537%float)].

(** Every code unit of a string passes the test [p]. *)
Definition string_forallb (p : ascii -> bool) (s : string) : bool :=
  forallb p (list_ascii_of_string s).

(** The code units a token is made of: [[a-z0-9_]]. *)
Definition isTokenChar (c : ascii) : bool :=
  between 97 122 c || between 48 57 c || Nat.eqb (nat_of_ascii c) 95.

(** [a / b] rounded up. *)
Definition ceilDiv (a b : nat) : nat := (a + b - 1) / b.

(** A vector with every weight multiplied by [c]. *)
Definition scaleVector (c : R) (vec : Map R) : Map R :=
  map (fun entry => (fst entry, (c * snd entry)%R)) vec.

(** The number of newline characters of a text, counted on its list of code
    units. *)
Definition newlineCharacters (content : string) : nat :=
  count_occ ascii_dec (list_ascii_of_string content) newline.

(** The binary64 test [count / length > 0.03] agrees with the test in whole
    numbers, [3 * length < 100 * count], for every length from 1 to
    [bound] and every count up to the length. *)
Definition densityTestExact (bound : nat) : bool :=
  forallb
    (fun len =>
       forallb
         (fun count =>
            Bool.eqb
              (@num_of_nat float _ count / num_of_nat len >? num_lit 3 100)%js
              (Z.ltb (3 * Z.of_nat len) (100 * Z.of_nat count)))
         (seq 0 (S len)))
    (seq 1 bound).

(** The document names are pairwise distinct, the chunk ids are pairwise
    distinct and every chunk belongs to a listed document. *)
Definition kbConsistent {num} (kb : KnowledgeBase num) : Prop :=
  NoDup (map name (documents kb))
  /\ NoDup (map getChunkId (chunks kb))
  /\ (forall c, In c (chunks kb) -> In (source c) (map name (documents kb))).

(** * Properties *)

(** ** The sliding window *)

Section SlidingWindow.

Variables (config : ChunkConfig) (contentType : ContentType).
Variables (content sourceName : string).

Let size := cfg_size config.
Let overlap := cfg_overlap config.
Let step := size - overlap.
Let len := String.length content.

Let window := windowAt config contentType content sourceName.

(** With a window that advances, the loop started at [index] emits the
    windows at [index], [index + step], ... for as long as the offset is
    inside the text, whatever fuel above [len - index] it is given. *)
Lemma chunkLoop_fuel (fuel : nat) :
  overlap < size ->
  forall index chunkIndex,
    len - index <= fuel ->
    exists n,
      chunkLoop fuel config contentType content sourceName index chunkIndex
      = map (fun i => window (index + i * step) (chunkIndex + i)) (seq 0 n)
      /\ (forall i, i < n <-> index + i * step < len).
Proof.
  intros Hadv.
  assert (Hstep : 0 < step) by (unfold step; lia).
  induction fuel as [|fuel IH]; intros index chunkIndex Hfuel.
  - exists 0. split; [reflexivity|].
    intros i. split; [lia|]. intros Hi. exfalso. revert Hi.
    generalize (i * step). intros; lia.
  - cbn [chunkLoop]. fold size overlap len.
    destruct (Nat.ltb index len) eqn:Hin.
    + apply Nat.ltb_lt in Hin.
      replace (index + size - overlap) with (index + step) by (unfold step; lia).
      destruct (Nat.leb (index + step) index) eqn:Hstall.
      { apply Nat.leb_le in Hstall. lia. }
      destruct (IH (index + step) (S chunkIndex)) as [n [Heq Hn]]; [lia|].
      exists (S n). split.
      * rewrite Heq. cbn [seq map]. f_equal.
        { replace (index + 0 * step) with index by lia.
          replace (chunkIndex + 0) with chunkIndex by lia. reflexivity. }
        rewrite <- seq_shift, map_map. apply map_ext.
        intros i.
        replace (index + step + i * step) with (index + S i * step) by lia.
        replace (S chunkIndex + i) with (chunkIndex + S i) by lia.
        reflexivity.
      * intros [|i].
        { split; [lia|]. intros _. lia. }
        specialize (Hn i). split; intros Hi.
        -- assert (i < n) as Hi' by lia. apply Hn in Hi'. nia.
        -- assert (index + step + i * step < len) as Hi' by nia.
           apply Hn in Hi'. lia.
    + apply Nat.ltb_ge in Hin. exists 0. split; [reflexivity|].
      intros i. split; [lia|]. intros Hi. exfalso. revert Hi.
    generalize (i * step). intros; lia.
Qed.

(** A window that does not advance: the guard stops the loop after the
    first chunk. *)
Lemma chunkLoop_stalled (fuel index chunkIndex : nat) :
  size <= overlap ->
  index < len ->
  chunkLoop (S fuel) config contentType content sourceName index chunkIndex
  = [window index chunkIndex].
Proof.
  intros Hstall Hin. cbn [chunkLoop]. fold size overlap len.
  apply Nat.ltb_lt in Hin. rewrite Hin.
  assert (Nat.leb (index + size - overlap) index = true) as ->
    by (apply Nat.leb_le; lia).
  reflexivity.
Qed.

(** Hence more fuel changes nothing: the bound never stops the loop. *)
Lemma chunkLoop_enough_fuel (fuel index chunkIndex : nat) :
  len - index <= fuel ->
  chunkLoop fuel config contentType content sourceName index chunkIndex
  = chunkLoop (len - index) config contentType content sourceName
              index chunkIndex.
Proof.
  intros Hfuel.
  destruct (Nat.lt_ge_cases overlap size) as [Hadv | Hstall].
  - destruct (chunkLoop_fuel fuel Hadv index chunkIndex Hfuel)
      as [n [-> Hn]].
    destruct (chunkLoop_fuel (len - index) Hadv index chunkIndex (Nat.le_refl _))
      as [n' [-> Hn']].
    assert (n = n') as ->; [|reflexivity].
    destruct (Nat.lt_trichotomy n n') as [Hlt | [Heq | Hgt]]; [|exact Heq|].
    + apply Hn', Hn in Hlt. lia.
    + apply Hn, Hn' in Hgt. lia.
  - destruct (Nat.lt_ge_cases index len) as [Hin | Hout].
    + destruct fuel as [|fuel]; [lia|].
      destruct (len - index) as [|rest] eqn:Hrest; [lia|].
      now rewrite !chunkLoop_stalled.
    + replace (len - index) with 0 by lia.
      destruct fuel as [|fuel]; [reflexivity|].
      cbn [chunkLoop]. fold len.
      apply Nat.ltb_ge in Hout. now rewrite Hout.
Qed.

End SlidingWindow.

(** ** Strings as lists of code units *)

Lemma list_of_substring (s : string) :
  forall n m,
    list_ascii_of_string (String.substring n m s)
    = firstn m (skipn n (list_ascii_of_string s)).
Proof.
  induction s as [|c s IH]; intros [|n] [|m]; cbn; try reflexivity.
  - now rewrite IH.
  - now rewrite IH.
  - now rewrite IH.
Qed.

Lemma list_of_append (s1 s2 : string) :
  list_ascii_of_string (s1 ++ s2)
  = list_ascii_of_string s1 ++ list_ascii_of_string s2.
Proof.
  induction s1 as [|c s1 IH]; cbn; [reflexivity | now rewrite IH].
Qed.

Lemma list_of_length (s : string) :
  List.length (list_ascii_of_string s) = String.length s.
Proof.
  induction s as [|c s IH]; cbn; [reflexivity | now rewrite IH].
Qed.

Lemma list_of_string_inj (s1 s2 : string) :
  list_ascii_of_string s1 = list_ascii_of_string s2 -> s1 = s2.
Proof.
  intros Heq.
  rewrite <- (string_of_list_ascii_of_string s1),
          <- (string_of_list_ascii_of_string s2).
  now rewrite Heq.
Qed.

Lemma list_of_concat (l : list string) :
  list_ascii_of_string (String.concat "" l)
  = List.concat (map list_ascii_of_string l).
Proof.
  induction l as [|x [|y l] IH].
  - reflexivity.
  - cbn. now rewrite app_nil_r.
  - change (String.concat "" (x :: y :: l))
      with (x ++ "" ++ String.concat "" (y :: l))%string.
    rewrite list_of_append. cbn [String.append].
    rewrite IH. reflexivity.
Qed.

(** [dropPrefix] on a slice of a list. *)
Lemma list_of_dropped_slice (s : string) (a e k : nat) :
  a <= e -> e <= String.length s ->
  list_ascii_of_string (dropPrefix k (js_substring s a e))
  = firstn (e - (a + k)) (skipn (a + k) (list_ascii_of_string s)).
Proof.
  intros Hae Hel. unfold dropPrefix, js_substring.
  rewrite list_of_substring, <- list_of_length, !list_of_substring.
  set (L := list_ascii_of_string s).
  assert (HL : List.length L = String.length s) by apply list_of_length.
  rewrite skipn_firstn_comm, skipn_skipn.
  rewrite firstn_firstn.
  replace (k + a) with (a + k) by lia.
  f_equal.
  rewrite length_firstn, length_skipn. lia.
Qed.

(** Two adjacent slices make one. *)
Lemma slice_then_rest {A} (L : list A) (a e : nat) :
  a <= e ->
  firstn (e - a) (skipn a L) ++ skipn e L = skipn a L.
Proof.
  intros Hae.
  replace (skipn e L) with (skipn (e - a) (skipn a L)).
  - apply firstn_skipn.
  - rewrite skipn_skipn. f_equal. lia.
Qed.

Section Reassembly.

Variables (config : ChunkConfig) (contentType : ContentType).
Variables (content sourceName : string).

Let size := cfg_size config.
Let overlap := cfg_overlap config.
Let len := String.length content.
Let L := list_ascii_of_string content.

(** What the chunks from [index] on contribute once their overlapping
    prefix is dropped: the text from [index + overlap] to its end. *)
Lemma chunkLoop_dropped (fuel : nat) :
  overlap < size ->
  forall index chunkIndex,
    len - index <= fuel ->
    List.concat
      (map (fun c => list_ascii_of_string (dropPrefix overlap (text c)))
           (chunkLoop fuel config contentType content sourceName
                      index chunkIndex))
    = skipn (index + overlap) L.
Proof.
  intros Hadv.
  assert (HL : List.length L = len) by apply list_of_length.
  induction fuel as [|fuel IH]; intros index chunkIndex Hfuel.
  - cbn. symmetry. apply skipn_all2. lia.
  - cbn [chunkLoop]. fold size overlap len.
    destruct (Nat.ltb index len) eqn:Hin.
    + apply Nat.ltb_lt in Hin.
      destruct (Nat.leb (index + size - overlap) index) eqn:Hstall.
      { apply Nat.leb_le in Hstall. lia. }
      cbn [map List.concat text].
      rewrite IH by lia.
      rewrite list_of_dropped_slice by (fold len; lia).
      fold L.
      replace (index + size - overlap + overlap) with (index + size) by lia.
      destruct (Nat.le_gt_cases (index + size) len) as [Hfit | Hshort].
      * rewrite Nat.min_l by lia.
        apply slice_then_rest. lia.
      * rewrite Nat.min_r by lia.
        rewrite (skipn_all2 L (n := index + size)) by lia.
        rewrite app_nil_r.
        apply firstn_all2. rewrite length_skipn. lia.
    + apply Nat.ltb_ge in Hin. cbn. symmetry. apply skipn_all2. lia.
Qed.

Lemma chunkLoop_outside (fuel index chunkIndex : nat) :
  len <= index ->
  chunkLoop fuel config contentType content sourceName index chunkIndex = [].
Proof.
  intros Hout. destruct fuel as [|fuel]; [reflexivity|].
  cbn [chunkLoop]. fold len. apply Nat.ltb_ge in Hout. now rewrite Hout.
Qed.

(** What the chunks from [index] on contribute once every chunk but the
    last is cut down to its first [size - overlap] code units: the text
    from [index] to its end. *)
Lemma chunkLoop_trimmed (fuel : nat) :
  overlap < size ->
  forall index chunkIndex,
    len - index <= fuel ->
    list_ascii_of_string
      (trimOverlap (size - overlap)
         (map text (chunkLoop fuel config contentType content sourceName
                              index chunkIndex)))
    = skipn index L.
Proof.
  intros Hadv.
  assert (HL : List.length L = len) by apply list_of_length.
  induction fuel as [|fuel IH]; intros index chunkIndex Hfuel.
  - cbn. symmetry. apply skipn_all2. lia.
  - destruct (Nat.le_gt_cases len index) as [Hout | Hin].
    { rewrite chunkLoop_outside by exact Hout. cbn.
      symmetry. apply skipn_all2. lia. }
    cbn [chunkLoop]. fold size overlap len.
    assert (Nat.ltb index len = true) as -> by now apply Nat.ltb_lt.
    destruct (Nat.leb (index + size - overlap) index) eqn:Hstall.
    { apply Nat.leb_le in Hstall. lia. }
    specialize (IH (index + size - overlap) (S chunkIndex)).
    destruct (chunkLoop fuel config contentType content sourceName
                (index + size - overlap) (S chunkIndex)) as [|c' rest] eqn:Hrest.
    + cbn [map trimOverlap text]. unfold js_substring.
      rewrite list_of_substring. fold L.
      assert (len <= index + size - overlap) as Hlast.
      { destruct (Nat.le_gt_cases len (index + size - overlap)) as [Hle | Hgt];
          [exact Hle|].
        exfalso. destruct fuel as [|fuel]; [lia|].
        cbn [chunkLoop] in Hrest. fold size overlap len in Hrest.
        apply Nat.ltb_lt in Hgt. rewrite Hgt in Hrest.
        destruct (Nat.leb _ _) in Hrest; discriminate. }
      rewrite Nat.min_r by lia.
      apply firstn_all2. rewrite length_skipn. lia.
    + assert (index + size - overlap < len) as Hmore.
      { destruct (Nat.le_gt_cases len (index + size - overlap)) as [Hle | Hgt];
          [|exact Hgt].
        rewrite chunkLoop_outside in Hrest by exact Hle. discriminate. }
      cbn [map trimOverlap text] in *.
      rewrite list_of_append, IH by lia.
      unfold js_substring. rewrite !list_of_substring. fold L.
      cbn [skipn]. rewrite firstn_firstn.
      replace (Nat.min (size - overlap)
                       (Nat.min (index + size) len - index))
        with (index + size - overlap - index) by lia.
      apply slice_then_rest. lia.
Qed.

End Reassembly.

(** [intelligentChunking] is the sliding window under the configuration of
    the detected content type, and both configurations advance. *)
Lemma intelligentChunking_window {num} `{JsNumber num} (content sourceName : string) :
  let contentType := analyzeContentType content in
  intelligentChunking content sourceName
  = (slidingWindow (configFor contentType) contentType content sourceName,
     contentType)
  /\ cfg_overlap (configFor contentType) < cfg_size (configFor contentType).
Proof.
  cbn zeta. split; [reflexivity|].
  destruct (analyzeContentType content); cbn; lia.
Qed.

(** C4.  Under a configuration with [size > overlap] the chunker returns the
    windows [[offset, min(offset + size, length))] for the offsets
    [0, step, 2 * step, ...] below the length of the text, where
    [step = size - overlap], numbered [0, 1, 2, ...]; hence no chunk for a
    zero-length text, and a last chunk that may be shorter than [size].
    On ["AAAA"] with [size = 3] and [overlap = 1] the chunks are
    ["AAA"] (index 0) and ["AA"] (index 1). *)
Theorem slidingWindow_spans
    (config : ChunkConfig) (contentType : ContentType)
    (content sourceName : string) :
  cfg_overlap config < cfg_size config ->
  let step := cfg_size config - cfg_overlap config in
  (exists n,
      slidingWindow config contentType content sourceName
      = map (fun i => windowAt config contentType content sourceName (i * step) i)
            (seq 0 n)
      /\ (forall i, i < n <-> i * step < String.length content))
  /\ (String.length content = 0 ->
      slidingWindow config contentType content sourceName = [])
  /\ map (fun c => (chunkIndex c, text c))
         (slidingWindow (mkConfig 3 1) contentType "AAAA" sourceName)
     = [(0, "AAA"); (1, "AA")].
Proof.
  intros Hadv step. split; [|split].
  - unfold slidingWindow.
    destruct (chunkLoop_fuel config contentType content sourceName
                (String.length content) Hadv 0 0) as [n [Heq Hn]]; [lia|].
    exists n. split; [exact Heq | exact Hn].
  - intros Hlen. unfold slidingWindow. rewrite Hlen. reflexivity.
  - reflexivity.
Qed.

Lemma slidingWindow_spans_witness :
  exists n,
    slidingWindow (mkConfig 3 1) narrative "AAAA" "notes.txt"
    = map (fun i => windowAt (mkConfig 3 1) narrative "AAAA" "notes.txt" (i * 2) i)
          (seq 0 n)
    /\ (forall i, i < n <-> i * 2 < 4).
Proof.
  apply (slidingWindow_spans (mkConfig 3 1) narrative "AAAA" "notes.txt").
  cbn. lia.
Defined.

(** C8.  Under a configuration with [size > overlap] (in particular with
    [size > overlap > 0]), the text of the first chunk followed by the texts
    of the later chunks, each without its first [overlap] code units (a
    chunk shorter than that contributes nothing) and with nothing cut at
    the end of the last one, is the original text.  So is the text read the
    other way: the first [size - overlap] code units of every chunk but the
    last, followed by the last chunk in full. *)
Theorem removeOverlap_roundtrip
    (config : ChunkConfig) (contentType : ContentType)
    (content sourceName : string) :
  cfg_overlap config < cfg_size config ->
  removeOverlap (cfg_overlap config)
    (map text (slidingWindow config contentType content sourceName))
  = content
  /\ trimOverlap (cfg_size config - cfg_overlap config)
       (map text (slidingWindow config contentType content sourceName))
     = content.
Proof.
  intros Hadv. split.
  2:{ apply list_of_string_inj. unfold slidingWindow.
      rewrite (chunkLoop_trimmed config contentType content sourceName
                 (String.length content) Hadv) by lia.
      reflexivity. }
  unfold slidingWindow.
  destruct content as [|c rest] eqn:Hcontent; [reflexivity|].
  rewrite <- Hcontent.
  assert (Hlen : String.length content = S (String.length rest))
    by (rewrite Hcontent; reflexivity).
  rewrite Hlen. cbn [chunkLoop]. rewrite Hlen.
  change (Nat.ltb 0 (S (String.length rest))) with true. cbn match.
  destruct (Nat.leb (0 + cfg_size config - cfg_overlap config) 0) eqn:Hstall.
  { apply Nat.leb_le in Hstall. lia. }
  cbn [map text removeOverlap].
  apply list_of_string_inj.
  rewrite list_of_append, list_of_concat, map_map, map_map.
  rewrite (chunkLoop_dropped config contentType content sourceName
             (String.length rest) Hadv) by lia.
  unfold js_substring. rewrite list_of_substring.
  set (L := list_ascii_of_string content).
  assert (HL : List.length L = S (String.length rest))
    by (unfold L; rewrite list_of_length; exact Hlen).
  replace (0 + cfg_size config - cfg_overlap config + cfg_overlap config)
    with (cfg_size config) by lia.
  cbn [skipn Nat.add]. rewrite Nat.sub_0_r.
  destruct (Nat.le_gt_cases (cfg_size config) (S (String.length rest)))
    as [Hfit | Hshort].
  - rewrite Nat.min_l by lia. apply firstn_skipn.
  - rewrite Nat.min_r by lia.
    rewrite (skipn_all2 L (n := cfg_size config)) by lia.
    rewrite app_nil_r. apply firstn_all2. lia.
Qed.

Lemma removeOverlap_roundtrip_witness :
  removeOverlap 2
    (map text (slidingWindow (mkConfig 3 2) narrative "ABCDE" "notes.txt"))
  = "ABCDE"
  /\ trimOverlap 1
       (map text (slidingWindow (mkConfig 3 2) narrative "ABCDE" "notes.txt"))
     = "ABCDE".
Proof.
  apply (removeOverlap_roundtrip (mkConfig 3 2) narrative "ABCDE" "notes.txt").
  cbn. lia.
Defined.

(** ** The content classifier *)

Lemma newlineCount_le (content : string) :
  newlineCount content <= String.length content.
Proof.
  induction content as [|c rest IH]; cbn; [lia|].
  destruct (Ascii.eqb c newline); lia.
Qed.

Lemma Rltb_true (a b : R) : Rltb a b = true <-> (a < b)%R.
Proof.
  unfold Rltb. destruct (Rlt_dec a b); split; intros; congruence || assumption.
Qed.

Lemma Reqb_true (a b : R) : Reqb a b = true <-> a = b.
Proof.
  unfold Reqb. destruct (Req_dec_T a b); split; intros; congruence || assumption.
Qed.

Lemma real_lit (p q : nat) : @num_lit R _ p q = (INR p / INR q)%R.
Proof. reflexivity. Qed.

(** The matches of [/\n/g] are the newline characters of the text. *)
Lemma newlineCount_counts (content : string) :
  newlineCount content = newlineCharacters content.
Proof.
  unfold newlineCharacters.
  induction content as [|c rest IH]; [reflexivity|].
  cbn [newlineCount list_ascii_of_string count_occ]. rewrite IH.
  destruct (ascii_dec c newline) as [-> | Hne].
  - now rewrite Ascii.eqb_refl.
  - apply Ascii.eqb_neq in Hne. now rewrite Hne.
Qed.

Lemma newlineCharacters_le (content : string) :
  newlineCharacters content <= String.length content.
Proof. rewrite <- newlineCount_counts. apply newlineCount_le. Qed.

Lemma densityTestExact_spec (bound len count : nat) :
  densityTestExact bound = true ->
  1 <= len <= bound -> count <= len ->
  (@num_of_nat float _ count / num_of_nat len >? num_lit 3 100)%js
  = Nat.ltb (3 * len) (100 * count).
Proof.
  intros Hcheck Hlen Hcount. unfold densityTestExact in Hcheck.
  rewrite forallb_forall in Hcheck.
  assert (Hin : In len (seq 1 bound)) by (apply in_seq; lia).
  specialize (Hcheck _ Hin). rewrite forallb_forall in Hcheck.
  assert (Hin' : In count (seq 0 (S len))) by (apply in_seq; lia).
  specialize (Hcheck _ Hin'). apply Bool.eqb_prop in Hcheck.
  rewrite Hcheck.
  destruct (Nat.ltb (3 * len) (100 * count)) eqn:Hnat.
  - apply Nat.ltb_lt in Hnat. apply Z.ltb_lt. lia.
  - apply Nat.ltb_ge in Hnat. apply Z.ltb_ge. lia.
Qed.

(** Run on every length up to 500. *)
Lemma densityTestExact_500 : densityTestExact 500 = true.
Proof. vm_compute. reflexivity. Qed.

(** The classifier in terms of the newline characters of the text, in any
    arithmetic. *)
Lemma analyzeContentType_test {num} `{JsNumber num} (content : string) :
  analyzeContentType content = atomic <->
  String.length content <> 0
  /\ (num_of_nat (newlineCharacters content)
      / num_of_nat (String.length content)
      >? num_lit 3 100)%js = true.
Proof.
  unfold analyzeContentType, newlineDensity, NEWLINE_DENSITY_THRESHOLD.
  rewrite newlineCount_counts.
  destruct (Nat.eqb (String.length content) 0) eqn:Hlen.
  - apply Nat.eqb_eq in Hlen. split; [discriminate|].
    intros [Hne _]. contradiction.
  - apply Nat.eqb_neq in Hlen.
    destruct (num_ltb _ _) eqn:Hcmp.
    + split; [intros _; now split | reflexivity].
    + split; [discriminate | intros [_ Habs]; discriminate].
Qed.

(** C9.  The classifier answers [atomic] exactly when the text is not empty
    and the number of its newline characters divided by its length exceeds
    0.03, and [narrative] in every other case, the zero-length text
    included; this holds in whichever arithmetic the division and the
    comparison are made.  In exact arithmetic the test is
    [3/100 < newlines / length], that is [3 * length < 100 * newlines] in
    whole numbers, which is false on the empty text without the guard; in
    binary64 the rounded quotient and the rounded literal give the same
    answer as the whole numbers for every text of up to 500 code units.
    The classifier is a function of the text alone. *)
Theorem analyzeContentType_density :
  (forall num (N : JsNumber num) (content : string),
      (analyzeContentType content = atomic <->
       String.length content <> 0
       /\ (num_of_nat (newlineCharacters content)
           / num_of_nat (String.length content)
           >? num_lit 3 100)%js = true)
      /\ (analyzeContentType content <> atomic ->
          analyzeContentType content = narrative)
      /\ (String.length content = 0 -> analyzeContentType content = narrative))
  /\ (forall content : string,
         (@analyzeContentType R _ content = atomic <->
          (3 / 100
           < INR (newlineCharacters content) / INR (String.length content))%R)
         /\ (@analyzeContentType R _ content = atomic <->
             3 * String.length content < 100 * newlineCharacters content))
  /\ (forall content : string,
         String.length content <= 500 ->
         (@analyzeContentType float _ content = atomic <->
          3 * String.length content < 100 * newlineCharacters content))
  /\ (forall num (N : JsNumber num) (content content' : string),
         content = content' ->
         analyzeContentType content = analyzeContentType content').
Proof.
  split; [|split; [|split]].
  - intros num N content. split; [apply analyzeContentType_test | split].
    + destruct (analyzeContentType content); [reflexivity|].
      intros Habs. now contradiction Habs.
    + intros Hlen. unfold analyzeContentType. now rewrite Hlen.
  - intros content.
    pose proof (newlineCharacters_le content) as Hle.
    assert (Hreal : @analyzeContentType R _ content = atomic <->
                    (3 / 100 < INR (newlineCharacters content)
                               / INR (String.length content))%R).
    { rewrite analyzeContentType_test. rewrite real_lit.
      cbn [num_ltb num_div num_of_nat RealNumber]. rewrite Rltb_true.
      replace (INR 3 / INR 100)%R with (3 / 100)%R by (cbn; lra).
      split; [tauto|]. intros Hlt. split; [|exact Hlt].
      intros Hzero. rewrite Hzero in Hlt, Hle.
      assert (newlineCharacters content = 0) as Hnone by lia.
      rewrite Hnone in Hlt. cbn in Hlt. unfold Rdiv in Hlt.
      rewrite Rmult_0_l in Hlt. lra. }
    split; [exact Hreal|]. rewrite Hreal.
    destruct (String.length content) as [|len] eqn:Hlen.
    + assert (newlineCharacters content = 0) as -> by lia.
      cbn. unfold Rdiv. rewrite Rmult_0_l. split; [lra | lia].
    + set (n := newlineCharacters content) in *.
      assert (Hpos : (0 < INR (S len))%R) by (apply lt_0_INR; lia).
      assert (Hquot : (INR n / INR (S len) * INR (S len) = INR n)%R)
        by (field; lra).
      assert (H3 : INR 3 = 3%R) by (cbn; lra).
      assert (H100 : INR 100 = 100%R)
        by (rewrite (INR_IZR_INZ 100); reflexivity).
      split.
      * intros Hlt. apply INR_lt. rewrite !mult_INR, H3, H100.
        rewrite <- Hquot. nra.
      * intros Hlt. apply lt_INR in Hlt.
        rewrite !mult_INR, H3, H100 in Hlt.
        apply (Rmult_lt_reg_r (INR (S len))); [exact Hpos|].
        rewrite Hquot. lra.
  - intros content Hbound. rewrite analyzeContentType_test.
    pose proof (newlineCharacters_le content) as Hle.
    destruct (Nat.eq_dec (String.length content) 0) as [Hzero | Hpos].
    + split; [intros [Hne _]; contradiction | lia].
    + rewrite (densityTestExact_spec 500 _ _ densityTestExact_500) by lia.
      rewrite Nat.ltb_lt. split; [tauto | now split].
  - intros num N content content' ->. reflexivity.
Qed.

(** ** Ingestion *)

(** C5 as stated fails: an empty text and a name that is already there are
    both accepted, and the [Document] is appended. *)
Lemma ingest_accepts_empty_and_duplicate :
  let doc := mkDocument "notes.txt" "text/plain" 0 in
  let kb1 : KnowledgeBase float := mkKB [mkDocument "notes.txt" "text/plain" 4]
                  [mkChunk "notes.txt" 0 "AAAA" (Some narrative)] [] [] in
  addDocumentToKnowledgeBase "notes.txt" "text/plain" 0 "" (@emptyKB float)
  = Returned (mkKB [doc] [] [] [])
  /\ addDocumentToKnowledgeBase "notes.txt" "text/plain" 4 "AAAA" kb1
     = Returned (mkKB [mkDocument "notes.txt" "text/plain" 4;
                       mkDocument "notes.txt" "text/plain" 4]
                      [mkChunk "notes.txt" 0 "AAAA" (Some narrative);
                       mkChunk "notes.txt" 0 "AAAA" (Some narrative)] [] [])
  /\ addDocumentToKnowledgeBase "notes.txt" "text/plain" 0 "" (@emptyKB float)
     <> Thrown IngestionError
  /\ addDocumentToKnowledgeBase "notes.txt" "text/plain" 4 "AAAA" kb1
     <> Thrown IngestionError.
Proof.
  repeat split; try (vm_compute; reflexivity); discriminate.
Qed.

(** C5, amended.  Ingestion has no failure path: whatever the text and the
    name, the call returns, the [Document] is appended to the documents and
    the chunks of the chunker are appended to the chunks.  A zero-length
    text appends the [Document] and no [Chunk]; a name that is already
    present is appended a second time. *)
Theorem addDocument_always_appends :
  forall num (N : JsNumber num)
         (fileName fileType : string) (fileSize : nat) (textContent : string)
         (kb : KnowledgeBase num),
    (exists kb',
        addDocumentToKnowledgeBase fileName fileType fileSize textContent kb
        = Returned kb'
        /\ documents kb'
           = documents kb ++ [mkDocument fileName fileType fileSize]
        /\ chunks kb'
           = chunks kb ++ fst (intelligentChunking textContent fileName))
    /\ (String.length textContent = 0 ->
        fst (@intelligentChunking num N textContent fileName) = []).
Proof.
  intros num N fileName fileType fileSize textContent kb. split.
  - unfold addDocumentToKnowledgeBase.
    destruct (intelligentChunking textContent fileName) as [newChunks ct].
    eexists. split; [reflexivity|]. split; reflexivity.
  - intros Hlen. unfold intelligentChunking, slidingWindow. cbn [fst].
    rewrite Hlen. reflexivity.
Qed.

(** ** Maps and sets *)

Section MapFacts.

Context {V : Type}.
Implicit Types (m : Map V) (k : string) (v : V).

Lemma Map_get_set m k v k' :
  Map_get (Map_set m k v) k'
  = if String.eqb k' k then Some v else Map_get m k'.
Proof.
  induction m as [|[k0 v0] m IH]; cbn.
  - reflexivity.
  - destruct (String.eqb k k0) eqn:Hk; cbn.
    + apply String.eqb_eq in Hk. subst k0.
      destruct (String.eqb k' k); reflexivity.
    + rewrite IH. destruct (String.eqb k' k0) eqn:Hk0; [|reflexivity].
      apply String.eqb_eq in Hk0. subst k0.
      destruct (String.eqb k' k) eqn:Hk'; [|reflexivity].
      apply String.eqb_eq in Hk'. subst k'.
      rewrite String.eqb_refl in Hk. discriminate.
Qed.

Lemma Map_get_None m k : Map_get m k = None <-> ~ In k (Map_keys m).
Proof.
  induction m as [|[k0 v0] m IH]; cbn.
  - tauto.
  - destruct (String.eqb k k0) eqn:Hk.
    + apply String.eqb_eq in Hk. subst. split; [discriminate | tauto].
    + apply String.eqb_neq in Hk. rewrite IH. split.
      * intros Hn [Heq | Hin]; [congruence | tauto].
      * tauto.
Qed.

Lemma Map_get_In m k v : Map_get m k = Some v -> In (k, v) m.
Proof.
  induction m as [|[k0 v0] m IH]; cbn; [discriminate|].
  destruct (String.eqb k k0) eqn:Hk.
  - apply String.eqb_eq in Hk. intros [= ->]. left. now subst.
  - intros Hget. right. now apply IH.
Qed.

Lemma Map_get_wf m k v : Map_wf m -> In (k, v) m -> Map_get m k = Some v.
Proof.
  unfold Map_wf. induction m as [|[k0 v0] m IH]; cbn; [tauto|].
  intros Hnd [Heq | Hin]; inversion Hnd as [|? ? Hnotin Hnd']; subst.
  - injection Heq as -> ->. now rewrite String.eqb_refl.
  - destruct (String.eqb k k0) eqn:Hk.
    + apply String.eqb_eq in Hk. subst k0. exfalso. apply Hnotin.
      apply (in_map fst) in Hin. exact Hin.
    + now apply IH.
Qed.

Lemma Map_keys_set m k v :
  Map_keys (Map_set m k v)
  = if Map_has m k then Map_keys m else Map_keys m ++ [k].
Proof.
  unfold Map_has, Map_keys.
  induction m as [|[k0 v0] m IH]; cbn; [reflexivity|].
  destruct (String.eqb k k0) eqn:Hk; cbn; [reflexivity|].
  rewrite IH. now destruct (Map_get m k).
Qed.

Lemma Map_set_wf m k v : Map_wf m -> Map_wf (Map_set m k v).
Proof.
  unfold Map_wf. rewrite Map_keys_set. unfold Map_has.
  destruct (Map_get m k) eqn:Hget; [trivial|].
  intros Hnd. apply Map_get_None in Hget.
  apply NoDup_app; [exact Hnd | repeat constructor; tauto |].
  intros x Hin [<- | []]. contradiction.
Qed.

End MapFacts.

(** Filling a map from the entries of another, one [set] per entry. *)
Lemma Map_get_fold_set {U V} (f : string -> U -> V) (entries : Map U) :
  Map_wf entries ->
  forall (acc : Map V) k,
    Map_get
      (fold_left (fun out '(term, u) => Map_set out term (f term u)) entries acc) k
    = match Map_get entries k with
      | Some u => Some (f k u)
      | None => Map_get acc k
      end.
Proof.
  unfold Map_wf. induction entries as [|[k0 u0] entries IH]; cbn; intros Hnd acc k.
  - reflexivity.
  - inversion Hnd as [|? ? Hnotin Hnd']; subst.
    rewrite IH by exact Hnd'. rewrite Map_get_set.
    destruct (String.eqb k k0) eqn:Hk.
    + apply String.eqb_eq in Hk. subst k0.
      apply Map_get_None in Hnotin. now rewrite Hnotin.
    + reflexivity.
Qed.

Lemma Map_fold_set_wf {U V} (f : string -> U -> V) (entries : Map U) :
  forall acc : Map V,
    Map_wf acc ->
    Map_wf (fold_left (fun out '(term, u) => Map_set out term (f term u))
                      entries acc).
Proof.
  induction entries as [|[k0 u0] entries IH]; cbn; intros acc Hacc.
  - exact Hacc.
  - apply IH. now apply Map_set_wf.
Qed.

Lemma Set_has_In (s : JsSet) (k : string) : Set_has s k = true <-> In k s.
Proof.
  unfold Set_has. rewrite existsb_exists. split.
  - intros [x [Hin Heq]]. apply String.eqb_eq in Heq. now subst.
  - intros Hin. exists k. split; [exact Hin | apply String.eqb_refl].
Qed.

Lemma Set_add_spec (s : JsSet) (k : string) :
  NoDup s ->
  NoDup (Set_add s k) /\ (forall x, In x (Set_add s k) <-> In x s \/ x = k).
Proof.
  intros Hnd. unfold Set_add. destruct (Set_has s k) eqn:Hhas.
  - apply Set_has_In in Hhas. split; [exact Hnd|].
    intros x. split; [tauto|]. intros [Hin | ->]; assumption.
  - assert (~ In k s) as Hnotin.
    { intros Hin. apply Set_has_In in Hin. congruence. }
    split.
    + apply NoDup_app; [exact Hnd | repeat constructor; tauto |].
      intros x Hin [<- | []]. contradiction.
    + intros x. rewrite in_app_iff. cbn. intuition congruence.
Qed.

Lemma Set_fold_spec (l : list string) :
  forall s : JsSet,
    NoDup s ->
    NoDup (fold_left Set_add l s)
    /\ (forall x, In x (fold_left Set_add l s) <-> In x s \/ In x l).
Proof.
  induction l as [|k l IH]; cbn; intros s Hnd.
  - split; [exact Hnd | tauto].
  - destruct (Set_add_spec s k Hnd) as [Hnd' Hin'].
    destruct (IH _ Hnd') as [Hnd'' Hin''].
    split; [exact Hnd''|].
    intros x. rewrite Hin'', Hin'. intuition congruence.
Qed.

Lemma Set_from_NoDup (l : list string) : NoDup (Set_from l).
Proof. apply (Set_fold_spec l []). constructor. Qed.

Lemma Set_from_In (l : list string) (x : string) : In x (Set_from l) <-> In x l.
Proof.
  unfold Set_from. destruct (Set_fold_spec l [] (NoDup_nil _)) as [_ Hin].
  rewrite Hin. cbn. tauto.
Qed.

(** ** Counting with [increment] *)

Lemma increment_wf (m : Map nat) (term : string) :
  Map_wf m -> Map_wf (increment m term).
Proof. apply Map_set_wf. Qed.

Lemma increment_fold_wf (l : list string) :
  forall m : Map nat, Map_wf m -> Map_wf (fold_left increment l m).
Proof.
  induction l as [|t l IH]; cbn; intros m Hm; [exact Hm|].
  apply IH. now apply increment_wf.
Qed.

Lemma increment_fold_get (l : list string) :
  forall (m : Map nat) (k : string),
    Map_get (fold_left increment l m) k
    = if Nat.eqb (count_occ string_dec l k) 0 then Map_get m k
      else Some (countOr0 (Map_get m k) + count_occ string_dec l k).
Proof.
  induction l as [|t l IH]; cbn [fold_left count_occ]; intros m k.
  - reflexivity.
  - rewrite IH. unfold increment at 1 2. rewrite Map_get_set.
    destruct (string_dec t k) as [-> | Hne].
    + rewrite String.eqb_refl. cbn [countOr0 Nat.eqb].
      destruct (Nat.eqb (count_occ string_dec l k) 0) eqn:Hc.
      * apply Nat.eqb_eq in Hc. rewrite Hc. f_equal; lia.
      * f_equal; lia.
    + assert (String.eqb k t = false) as ->
        by (apply String.eqb_neq; congruence).
      reflexivity.
Qed.

Lemma count_occ_set (s : JsSet) (k : string) :
  NoDup s ->
  count_occ string_dec s k = if Set_has s k then 1 else 0.
Proof.
  intros Hnd. destruct (Set_has s k) eqn:Hhas.
  - apply Set_has_In in Hhas.
    apply (count_occ_In string_dec) in Hhas.
    rewrite (NoDup_count_occ string_dec) in Hnd. specialize (Hnd k). lia.
  - apply (count_occ_not_In string_dec). intros Hin.
    apply Set_has_In in Hin. congruence.
Qed.

(** ** The IDF table *)

Lemma docFrequency_fold (corpus : list Chunk) :
  forall (m : Map nat) (k : string),
    Map_wf m ->
    let out :=
      fold_left
        (fun docFrequency c =>
           fold_left increment (Set_from (tokenize (text c))) docFrequency)
        corpus m in
    Map_wf out
    /\ Map_get out k
       = if Nat.eqb (documentFrequency k corpus) 0 then Map_get m k
         else Some (countOr0 (Map_get m k) + documentFrequency k corpus).
Proof.
  induction corpus as [|c corpus IH]; intros m k Hm; cbn zeta.
  - split; [exact Hm | reflexivity].
  - cbn [fold_left].
    set (m' := fold_left increment (Set_from (tokenize (text c))) m).
    assert (Hm' : Map_wf m') by (apply increment_fold_wf; exact Hm).
    destruct (IH m' k Hm') as [Hwf Hget]. split; [exact Hwf|].
    rewrite Hget. unfold m'. rewrite increment_fold_get.
    rewrite count_occ_set by apply Set_from_NoDup.
    assert (Hdf : documentFrequency k (c :: corpus)
                  = (if Set_has (Set_from (tokenize (text c))) k then 1 else 0)
                    + documentFrequency k corpus).
    { unfold documentFrequency. cbn [filter]. unfold containsTerm at 1.
      now destruct (Set_has _ k). }
    rewrite Hdf.
    destruct (Set_has (Set_from (tokenize (text c))) k); cbn [Nat.eqb Nat.add].
    + destruct (Nat.eqb (documentFrequency k corpus) 0) eqn:Hz.
      * apply Nat.eqb_eq in Hz. rewrite Hz. f_equal; lia.
      * cbn [countOr0]. f_equal; lia.
    + reflexivity.
Qed.

Lemma docFrequencyOf_get (corpus : list Chunk) (k : string) :
  Map_wf (docFrequencyOf corpus)
  /\ Map_get (docFrequencyOf corpus) k
     = if Nat.eqb (documentFrequency k corpus) 0 then None
       else Some (documentFrequency k corpus).
Proof.
  destruct (docFrequency_fold corpus [] k (NoDup_nil _)) as [Hwf Hget].
  split; [exact Hwf|]. unfold docFrequencyOf. rewrite Hget. reflexivity.
Qed.

Lemma calculateIdf_get {num} `{JsNumber num} `{JsLog num}
    (corpus : list Chunk) (term : string) :
  Map_get (calculateIdf corpus) term
  = if Nat.eqb (documentFrequency term corpus) 0 then None
    else Some (idfFormula (List.length corpus) (documentFrequency term corpus)).
Proof.
  unfold calculateIdf. destruct corpus as [|c corpus]; [reflexivity|].
  cbn [List.length Nat.eqb].
  destruct (docFrequencyOf_get (c :: corpus) term) as [Hwf Hget].
  rewrite (Map_get_fold_set
             (fun _ df => idfFormula (S (List.length corpus)) df)
             (docFrequencyOf (c :: corpus)) Hwf).
  rewrite Hget. now destruct (Nat.eqb _ 0).
Qed.

(** C2.  [calculateIdf] has an entry for a term exactly when the term is
    among the distinct tokens of at least one chunk, and the entry is
    [ln((N + 1) / (df + 1)) + 1] with [N] the number of chunks and [df] the
    number of chunks whose set of distinct tokens holds the term; the table
    has one entry per term; the empty corpus gives the empty table.  For
    the corpus ["cat dog"], ["dog bird"]: [idf(dog) = 1] and
    [idf(cat) = idf(bird) = ln(3/2) + 1]. *)
Theorem calculateIdf_table :
  (forall num (N : JsNumber num) (L : JsLog num)
          (corpus : list Chunk) (term : string),
      let df := documentFrequency term corpus in
      Map_get (calculateIdf corpus) term
      = if Nat.eqb df 0 then None
        else Some (Math_log (num_of_nat (List.length corpus + 1)
                             / num_of_nat (df + 1)) + num_one)%js)
  /\ (forall num (N : JsNumber num) (L : JsLog num) (corpus : list Chunk),
         Map_wf (calculateIdf corpus))
  /\ (forall num (N : JsNumber num) (L : JsLog num),
         @calculateIdf num N L [] = [])
  /\ (Map_get (@calculateIdf R _ _ [chunkA; chunkB]) "dog" = Some 1%R
      /\ Map_get (@calculateIdf R _ _ [chunkA; chunkB]) "cat"
         = Some (ln (3 / 2) + 1)%R
      /\ Map_get (@calculateIdf R _ _ [chunkA; chunkB]) "bird"
         = Some (ln (3 / 2) + 1)%R
      /\ Map_keys (@calculateIdf R _ _ [chunkA; chunkB]) = ["cat"; "dog"; "bird"]).
Proof.
  split; [|split; [|split]].
  - intros num N L corpus term. cbn zeta. apply calculateIdf_get.
  - intros num N L corpus. unfold calculateIdf.
    destruct (Nat.eqb (List.length corpus) 0); [constructor|].
    apply Map_fold_set_wf with (f := fun _ df => idfFormula (List.length corpus) df).
    constructor.
  - reflexivity.
  - split; [|split; [|split]].
    + rewrite calculateIdf_get.
      replace (documentFrequency "dog" [chunkA; chunkB]) with 2
        by (vm_compute; reflexivity).
      cbn [Nat.eqb List.length]. unfold idfFormula, num_one, Math_log, RealLog.
      cbn [num_add num_div num_of_nat RealNumber Nat.add INR].
      f_equal. replace ((1 + 1 + 1) / (1 + 1 + 1))%R with 1%R by lra.
      rewrite ln_1. lra.
    + rewrite calculateIdf_get.
      replace (documentFrequency "cat" [chunkA; chunkB]) with 1
        by (vm_compute; reflexivity).
      cbn [Nat.eqb List.length]. unfold idfFormula, num_one, Math_log, RealLog.
      cbn [num_add num_div num_of_nat RealNumber Nat.add INR].
      f_equal. replace ((1 + 1 + 1) / (1 + 1))%R with (3 / 2)%R by lra.
      reflexivity.
    + rewrite calculateIdf_get.
      replace (documentFrequency "bird" [chunkA; chunkB]) with 1
        by (vm_compute; reflexivity).
      cbn [Nat.eqb List.length]. unfold idfFormula, num_one, Math_log, RealLog.
      cbn [num_add num_div num_of_nat RealNumber Nat.add INR].
      f_equal. replace ((1 + 1 + 1) / (1 + 1))%R with (3 / 2)%R by lra.
      reflexivity.
    + unfold calculateIdf.
      replace (docFrequencyOf [chunkA; chunkB])
        with [("cat", 1); ("dog", 2); ("bird", 1)] by (vm_compute; reflexivity).
      reflexivity.
Qed.

(** ** TF-IDF vectors *)

Lemma vectorize_get {num} `{JsNumber num}
    (content : string) (idf : Map num) (term : string) :
  let tokens := tokenize content in
  let tf := count_occ string_dec tokens term in
  Map_get (vectorizeWithTfidf content idf) term
  = if Nat.eqb tf 0 then None
    else Some (num_of_nat tf / num_of_nat (List.length tokens)
               * getOrZero (Map_get idf term))%js.
Proof.
  cbn zeta. unfold vectorizeWithTfidf.
  destruct (tokenize content) as [|t tokens] eqn:Htok; [reflexivity|].
  cbn [List.length Nat.eqb].
  rewrite (Map_get_fold_set
             (fun term tf =>
                (num_of_nat tf / num_of_nat (S (List.length tokens))
                 * getOrZero (Map_get idf term))%js)).
  - rewrite increment_fold_get. cbn [Map_get countOr0 Nat.add].
    now destruct (Nat.eqb _ 0).
  - apply increment_fold_wf. constructor.
Qed.

Lemma orZero_real (x : R) : @orZero R _ x = x.
Proof.
  unfold orZero, num_zero. cbn [num_eqb num_of_nat RealNumber INR].
  destruct (Reqb x 0) eqn:Hz; cbn [orb].
  - apply Reqb_true in Hz. now subst.
  - assert (Reqb x x = true) as -> by now apply Reqb_true.
    reflexivity.
Qed.

(** C6 as stated fails: with the table [{dog: 1}] the vector of ["cat dog"]
    has the key [cat], whose weight is [0]. *)
Lemma vectorize_keeps_zero_weight :
  @vectorizeWithTfidf float _ "cat dog" [("dog", 1%float)]
  = [("cat", 0%float); ("dog", 0.5%float)]
  /\ Map_has (@vectorizeWithTfidf float _ "cat dog" [("dog", 1%float)]) "cat"
     = true
  /\ Map_get [("dog", 1%float)] "cat" = None.
Proof.
  repeat split; vm_compute; reflexivity.
Qed.

(** C6, amended.  The vector has one key for every distinct token of the
    text and no other, whatever the weight: the weight of a token is
    [(tf / tokenCount) * (idf.get(token) || 0)].  A token that is absent
    from the IDF table is therefore a key of the vector, with the weight
    [(tf / tokenCount) * 0], which is [0] in exact arithmetic. *)
Theorem vectorize_keys_are_tokens :
  (forall num (N : JsNumber num) (content : string) (idf : Map num)
          (term : string),
      let tokens := tokenize content in
      let tf := count_occ string_dec tokens term in
      (Map_has (vectorizeWithTfidf content idf) term = true <-> In term tokens)
      /\ Map_get (vectorizeWithTfidf content idf) term
         = if Nat.eqb tf 0 then None
           else Some (num_of_nat tf / num_of_nat (List.length tokens)
                      * getOrZero (Map_get idf term))%js)
  /\ (forall (content : string) (idf : Map R) (term : string),
         In term (tokenize content) ->
         Map_get idf term = None ->
         Map_get (vectorizeWithTfidf content idf) term = Some 0%R).
Proof.
  split.
  - intros num N content idf term. cbn zeta. split; [|apply vectorize_get].
    unfold Map_has. rewrite vectorize_get.
    rewrite (count_occ_In string_dec).
    destruct (Nat.eqb _ 0) eqn:Hz.
    + apply Nat.eqb_eq in Hz. split; [discriminate | lia].
    + apply Nat.eqb_neq in Hz. split; [lia | reflexivity].
  - intros content idf term Hin Hnone.
    rewrite vectorize_get, Hnone.
    apply (count_occ_In string_dec) in Hin.
    destruct (Nat.eqb _ 0) eqn:Hz; [apply Nat.eqb_eq in Hz; lia|].
    f_equal. cbn [getOrZero]. unfold num_zero.
    cbn [num_mul num_of_nat RealNumber INR]. apply Rmult_0_r.
Qed.

Lemma vectorize_keys_are_tokens_witness :
  Map_get (@vectorizeWithTfidf R _ "cat dog" [("dog", 1%R)]) "cat" = Some 0%R.
Proof.
  apply (proj2 vectorize_keys_are_tokens "cat dog" [("dog", 1%R)] "cat").
  - vm_compute. left. reflexivity.
  - reflexivity.
Defined.

(** ** Cosine similarity over the reals *)

Section RealSums.

Local Open Scope R_scope.

Lemma Rsum_cons (x : R) (l : list R) : Rsum (x :: l) = x + Rsum l.
Proof. reflexivity. Qed.

Lemma Rsum_app (l1 l2 : list R) : Rsum (l1 ++ l2) = Rsum l1 + Rsum l2.
Proof.
  unfold Rsum. induction l1 as [|x l1 IH]; cbn [app fold_right];
    [lra | rewrite IH; lra].
Qed.

Lemma Rsum_perm (l1 l2 : list R) : Permutation l1 l2 -> Rsum l1 = Rsum l2.
Proof.
  induction 1; unfold Rsum in *; cbn [fold_right] in *; lra.
Qed.

Lemma Rsum_nonneg (l : list R) : Forall (fun x => 0 <= x) l -> 0 <= Rsum l.
Proof.
  induction 1; unfold Rsum in *; cbn [fold_right] in *; lra.
Qed.

Lemma Rsum_fold {A} (f : A -> R) (l : list A) :
  forall acc,
    fold_left (fun acc x => acc + f x) l acc = acc + Rsum (map f l).
Proof.
  unfold Rsum.
  induction l as [|x l IH]; intros acc; cbn [fold_left map fold_right];
    [lra | rewrite IH; lra].
Qed.

Lemma Rsum_ext_in {A} (f g : A -> R) (l : list A) :
  (forall x, In x l -> f x = g x) -> Rsum (map f l) = Rsum (map g l).
Proof.
  intros Hext. f_equal. now apply map_ext_in.
Qed.

(** Cauchy-Schwarz on finite sums. *)
Lemma Rsum_cauchy_schwarz {A} (f g : A -> R) (l : list A) :
  Rsum (map (fun x => f x * g x) l) * Rsum (map (fun x => f x * g x) l)
  <= Rsum (map (fun x => f x * f x) l) * Rsum (map (fun x => g x * g x) l).
Proof.
  induction l as [|a l IH]; [cbn; lra|].
  rewrite !map_cons, !Rsum_cons.
  set (P := Rsum (map (fun x => f x * g x) l)) in *.
  set (B := Rsum (map (fun x => f x * f x) l)) in *.
  set (C := Rsum (map (fun x => g x * g x) l)) in *.
  assert (HB : 0 <= B).
  { apply Rsum_nonneg, Forall_forall. intros y Hy.
    apply in_map_iff in Hy as [x [<- _]]. nra. }
  assert (HC : 0 <= C).
  { apply Rsum_nonneg, Forall_forall. intros y Hy.
    apply in_map_iff in Hy as [x [<- _]]. nra. }
  generalize (f a) (g a). intros x y.
  assert (Hcross : 2 * (x * y * P) <= x * x * C + y * y * B).
  { destruct (Req_dec_T C 0) as [HC0 | HC0].
    - assert (P = 0) by nra. subst P. rewrite HC0, H. nra.
    - assert (0 < C) by lra.
      apply Rmult_le_reg_l with C; [assumption|].
      pose proof (Rle_0_sqr (x * C - y * P)) as Hsq. unfold Rsqr in Hsq.
      assert (y * y * (P * P) <= y * y * (B * C)) by
        (apply Rmult_le_compat_l; [nra | lra]).
      nra. }
  nra.
Qed.

End RealSums.

Section RealVectors.

Local Open Scope R_scope.

Implicit Types (vec : Map R) (key : string).

Lemma weightOf_real vec key :
  weightOf vec key
  = match Map_get vec key with Some x => x | None => 0 end.
Proof.
  unfold weightOf, getOrZero. destruct (Map_get vec key); [|reflexivity].
  apply orZero_real.
Qed.

Lemma weightOf_cons k0 v0 vec key :
  weightOf ((k0, v0) :: vec) key
  = if String.eqb key k0 then v0 else weightOf vec key.
Proof.
  rewrite !weightOf_real. cbn [Map_get]. now destruct (String.eqb key k0).
Qed.

Lemma sumSquares_real vec :
  sumSquares vec = Rsum (map (fun entry => snd entry * snd entry) vec).
Proof.
  unfold sumSquares, num_zero. cbn [num_of_nat RealNumber INR].
  assert (Hgen : forall acc,
             fold_left (fun acc '(_, value) => (acc + value * value)%js) vec acc
             = acc + Rsum (map (fun entry => snd entry * snd entry) vec)).
  { induction vec as [|[k v] vec IH]; intros acc.
    - cbn. lra.
    - cbn [fold_left]. rewrite IH, map_cons, Rsum_cons. cbn. lra. }
  rewrite Hgen. lra.
Qed.

Lemma sumSquares_nonneg vec : 0 <= sumSquares vec.
Proof.
  rewrite sumSquares_real. apply Rsum_nonneg, Forall_forall.
  intros y Hy. apply in_map_iff in Hy as [x [<- _]]. nra.
Qed.

Lemma dotProductOf_real vecA vecB :
  dotProductOf vecA vecB
  = Rsum (map (fun key => weightOf vecA key * weightOf vecB key)
              (Set_from (Map_keys vecA ++ Map_keys vecB))).
Proof.
  unfold dotProductOf.
  etransitivity;
    [exact (Rsum_fold (fun key => weightOf vecA key * weightOf vecB key) _ _)|].
  unfold num_zero. cbn [num_of_nat RealNumber INR]. lra.
Qed.

(** The squared weights over a duplicate-free list of keys are bounded by
    the sum of squares of the vector. *)
Lemma weights_squared_le vec :
  forall keys,
    NoDup keys ->
    Rsum (map (fun key => weightOf vec key * weightOf vec key) keys)
    <= sumSquares vec.
Proof.
  rewrite sumSquares_real.
  induction vec as [|[k0 v0] vec IH]; intros keys Hnd.
  - apply Req_le. induction keys as [|k keys IHk]; [reflexivity|].
    inversion Hnd; subst.
    rewrite map_cons, Rsum_cons, IHk by assumption.
    rewrite weightOf_real. cbn. lra.
  - rewrite map_cons, Rsum_cons. cbn [snd].
    specialize (IH keys Hnd).
    enough (Rsum (map (fun key => weightOf ((k0, v0) :: vec) key
                                  * weightOf ((k0, v0) :: vec) key) keys)
            <= v0 * v0
               + Rsum (map (fun key => weightOf vec key * weightOf vec key) keys))
      by lra.
    clear IH. induction keys as [|k keys IHk].
    + cbn. nra.
    + rewrite !map_cons, !Rsum_cons.
      inversion Hnd as [|? ? Hnotin Hnd']; subst.
      rewrite weightOf_cons.
      destruct (String.eqb k k0) eqn:Hk.
      * apply String.eqb_eq in Hk. subst k0.
        rewrite (Rsum_ext_in
                   (fun key => weightOf ((k, v0) :: vec) key
                               * weightOf ((k, v0) :: vec) key)
                   (fun key => weightOf vec key * weightOf vec key)).
        -- assert (0 <= weightOf vec k * weightOf vec k) by nra. lra.
        -- intros x Hx. rewrite weightOf_cons.
           assert (String.eqb x k = false) as ->; [|reflexivity].
           apply String.eqb_neq. intros ->. contradiction.
      * specialize (IHk Hnd'). lra.
Qed.

(** Over the keys of a well-formed vector they add up to it. *)
Lemma weights_squared_keys vec :
  Map_wf vec ->
  Rsum (map (fun key => weightOf vec key * weightOf vec key) (Map_keys vec))
  = sumSquares vec.
Proof.
  intros Hwf. rewrite sumSquares_real. unfold Map_keys. rewrite map_map.
  apply Rsum_ext_in. intros [k v] Hin. cbn [fst snd].
  rewrite weightOf_real, (Map_get_wf vec k v Hwf Hin). reflexivity.
Qed.

Lemma weightOf_nonneg vec key : nonNegative vec -> 0 <= weightOf vec key.
Proof.
  intros Hpos. rewrite weightOf_real.
  destruct (Map_get vec key) as [x|] eqn:Hget; [|lra].
  apply Map_get_In in Hget. unfold nonNegative in Hpos.
  rewrite Forall_forall in Hpos. apply (Hpos (key, x) Hget).
Qed.

End RealVectors.

Section RealCosine.

Local Open Scope R_scope.

Implicit Types (vecA vecB vec : Map R).

Lemma magnitude_nonneg vec : 0 <= magnitude vec.
Proof. apply sqrt_pos. Qed.

Lemma magnitude_squared vec : magnitude vec * magnitude vec = sumSquares vec.
Proof. apply sqrt_sqrt, sumSquares_nonneg. Qed.

Lemma cosine_zero_case vecA vecB :
  magnitude vecA = 0 \/ magnitude vecB = 0 ->
  cosineSimilarity vecA vecB = 0.
Proof.
  intros Hzero. unfold cosineSimilarity, num_zero.
  cbn [num_eqb num_of_nat RealNumber INR].
  destruct (Reqb (magnitude vecA) 0) eqn:HA; [reflexivity|].
  destruct (Reqb (magnitude vecB) 0) eqn:HB; [reflexivity|].
  exfalso. destruct Hzero as [Hz | Hz]; apply Reqb_true in Hz; congruence.
Qed.

Lemma cosine_quotient_case vecA vecB :
  magnitude vecA <> 0 -> magnitude vecB <> 0 ->
  cosineSimilarity vecA vecB
  = dotProductOf vecA vecB / (magnitude vecA * magnitude vecB).
Proof.
  intros HA HB. unfold cosineSimilarity, num_zero.
  cbn [num_eqb num_of_nat RealNumber INR].
  destruct (Reqb (magnitude vecA) 0) eqn:HA'.
  { apply Reqb_true in HA'. contradiction. }
  destruct (Reqb (magnitude vecB) 0) eqn:HB'.
  { apply Reqb_true in HB'. contradiction. }
  reflexivity.
Qed.



Lemma dotProductOf_nonneg vecA vecB :
  nonNegative vecA -> nonNegative vecB -> 0 <= dotProductOf vecA vecB.
Proof.
  intros HA HB. rewrite dotProductOf_real.
  apply Rsum_nonneg, Forall_forall. intros y Hy.
  apply in_map_iff in Hy as [x [<- _]].
  apply Rmult_le_pos; now apply weightOf_nonneg.
Qed.

Lemma dotProductOf_le vecA vecB :
  dotProductOf vecA vecB * dotProductOf vecA vecB
  <= sumSquares vecA * sumSquares vecB.
Proof.
  rewrite dotProductOf_real.
  set (keys := Set_from (Map_keys vecA ++ Map_keys vecB)).
  assert (Hnd : NoDup keys) by apply Set_from_NoDup.
  pose proof (Rsum_cauchy_schwarz (weightOf vecA) (weightOf vecB) keys) as Hcs.
  pose proof (weights_squared_le vecA keys Hnd) as HA.
  pose proof (weights_squared_le vecB keys Hnd) as HB.
  assert (0 <= Rsum (map (fun key => weightOf vecA key * weightOf vecA key) keys)).
  { apply Rsum_nonneg, Forall_forall. intros y Hy.
    apply in_map_iff in Hy as [x [<- _]]. nra. }
  assert (0 <= Rsum (map (fun key => weightOf vecB key * weightOf vecB key) keys)).
  { apply Rsum_nonneg, Forall_forall. intros y Hy.
    apply in_map_iff in Hy as [x [<- _]]. nra. }
  eapply Rle_trans; [exact Hcs|].
  apply Rmult_le_compat; assumption.
Qed.

Lemma dotProductOf_self vec :
  Map_wf vec -> dotProductOf vec vec = sumSquares vec.
Proof.
  intros Hwf. rewrite dotProductOf_real, <- (weights_squared_keys vec Hwf).
  apply Rsum_perm, Permutation_map, NoDup_Permutation.
  - apply Set_from_NoDup.
  - exact Hwf.
  - intros x. rewrite Set_from_In, in_app_iff. tauto.
Qed.

Lemma cosine_unit_interval vecA vecB :
  nonNegative vecA -> nonNegative vecB ->
  0 <= cosineSimilarity vecA vecB <= 1.
Proof.
  intros HA HB.
  destruct (Req_dec_T (magnitude vecA) 0) as [HzA | HnA].
  { rewrite cosine_zero_case by tauto. lra. }
  destruct (Req_dec_T (magnitude vecB) 0) as [HzB | HnB].
  { rewrite cosine_zero_case by tauto. lra. }
  rewrite cosine_quotient_case by assumption.
  pose proof (magnitude_nonneg vecA) as HpA.
  pose proof (magnitude_nonneg vecB) as HpB.
  pose proof (dotProductOf_nonneg vecA vecB HA HB) as Hdot.
  pose proof (dotProductOf_le vecA vecB) as Hle.
  rewrite <- (magnitude_squared vecA), <- (magnitude_squared vecB) in Hle.
  set (d := dotProductOf vecA vecB) in *.
  set (m := magnitude vecA * magnitude vecB).
  assert (Hm : 0 < m) by (unfold m; nra).
  assert (Hdm : d <= m) by (unfold m in *; nra).
  split.
  - apply Rmult_le_pos; [exact Hdot|]. left. now apply Rinv_0_lt_compat.
  - apply Rmult_le_reg_r with m; [exact Hm|].
    unfold Rdiv. rewrite Rmult_assoc, Rinv_l by lra. lra.
Qed.

Lemma cosine_self vec :
  Map_wf vec -> magnitude vec <> 0 -> cosineSimilarity vec vec = 1.
Proof.
  intros Hwf Hnz. rewrite cosine_quotient_case by assumption.
  rewrite (dotProductOf_self vec Hwf), <- magnitude_squared.
  field. exact Hnz.
Qed.


End RealCosine.

(** ** Cosine similarity in binary64 *)

(** C3.  The documentation of [cosineSimilarity] promises "a score between
    0 (not similar) and 1 (identical)", and in the arithmetic the program
    runs on the code does not keep it: the quotient
    [dotProduct / (magnitudeA * magnitudeB)] is returned as rounded,
    without clamping.  For [v = {a: 1, b: 1, c: 1}], whose weights are not
    negative and whose magnitude [Math.sqrt(3)] is not zero,
    [cosineSimilarity(v, v)] is [3 / (Math.sqrt(3) * Math.sqrt(3))], which
    is [1.0000000000000002]: above 1, and not 1.  In the application: after
    the upload of one file holding [a b c d e f g], the question
    [a b c d e f g] scores the file's chunk [1.0000000000000002], and the
    chunk is returned.  The excess is not bounded by the last bit:
    [cosineSimilarity({a: 0x1.3p-537}, {a: 1})] is [1.1875]. *)
Theorem cosineSimilarity_exceeds_one :
  cosineSimilarity unitVector3 unitVector3 = 0x1.0000000000001p+0%float
  /\ (num_one <? cosineSimilarity unitVector3 unitVector3)%js = true
  /\ (cosineSimilarity unitVector3 unitVector3 === num_one)%js = false
  /\ (magnitude unitVector3 === num_zero)%js = false
  /\ forallb (fun entry => negb (snd entry <? num_zero)%js) unitVector3 = true
  /\ scoreChunk (chunkTfidfVectors kbSevenWords)
                (vectorizeWithTfidf "a b c d e f g" (idfMap kbSevenWords))
                sevenWords
     = 0x1.0000000000001p+0%float
  /\ findRelevantChunks kbSevenWords "a b c d e f g" = [sevenWords]
  /\ cosineSimilarity tinyVector [("a", num_one)] = 0x1.3p+0%float
  /\ (num_one <? cosineSimilarity tinyVector [("a", num_one)])%js = true.
Proof.
  repeat split; vm_compute; reflexivity.
Qed.

(** In exact real arithmetic the documented contract holds.  When either
    magnitude is 0 the result is exactly 0, in binary64 as in any
    arithmetic; over the reals the result lies in [[0, 1]] for vectors
    with non-negative weights, and [cosineSimilarity(v, v) = 1] for every
    vector [v] of non-zero magnitude. *)
Theorem cosineSimilarity_bounds :
  (forall num (N : JsNumber num) (vecA vecB : Map num),
      (magnitude vecA === num_zero)%js = true
      \/ (magnitude vecB === num_zero)%js = true ->
      cosineSimilarity vecA vecB = num_zero)
  /\ (forall vecA vecB : Map R,
         nonNegative vecA -> nonNegative vecB ->
         (0 <= cosineSimilarity vecA vecB <= 1)%R)
  /\ (forall vec : Map R,
         Map_wf vec -> magnitude vec <> 0%R ->
         cosineSimilarity vec vec = 1%R).
Proof.
  split; [|split].
  - intros num N vecA vecB Hzero. unfold cosineSimilarity.
    destruct Hzero as [-> | ->]; [reflexivity|].
    now rewrite orb_true_r.
  - exact cosine_unit_interval.
  - exact cosine_self.
Qed.

Lemma cosineSimilarity_bounds_witness :
  @cosineSimilarity float _ [] unitVector3 = num_zero
  /\ (0 <= cosineSimilarity [("a", 1%R)] [("a", 2%R); ("b", 1%R)] <= 1)%R
  /\ cosineSimilarity [("a", 2%R)] [("a", 2%R)] = 1%R.
Proof.
  split; [|split].
  - apply (proj1 cosineSimilarity_bounds float _ [] unitVector3).
    left. vm_compute. reflexivity.
  - apply (proj1 (proj2 cosineSimilarity_bounds)).
    + repeat constructor; cbn; lra.
    + repeat constructor; cbn; lra.
  - apply (proj2 (proj2 cosineSimilarity_bounds)).
    + repeat constructor; cbn; tauto.
    + unfold magnitude. rewrite sumSquares_real. cbn.
      intros Hz. apply sqrt_eq_0 in Hz; lra.
Defined.



(** ** Sorting and ranking *)

Lemma firstn_In {A} (n : nat) (l : list A) (x : A) :
  In x (firstn n l) -> In x l.
Proof.
  intros Hin. rewrite <- (firstn_skipn n l). apply in_or_app. now left.
Qed.

Section SortAnyNumber.

Context {A B num : Type} `{JsNumber num}.

Lemma sortInsert_In (compareFn : A -> A -> num) (x z : A) (l : list A) :
  In z (sortInsert compareFn x l) <-> z = x \/ In z l.
Proof.
  induction l as [|y l IH]; cbn.
  - intuition congruence.
  - destruct (num_ltb _ _); cbn; [rewrite IH|]; intuition congruence.
Qed.

Lemma Array_sort_In (compareFn : A -> A -> num) (z : A) (l : list A) :
  In z (Array_sort compareFn l) <-> In z l.
Proof.
  unfold Array_sort. induction l as [|x l IH]; cbn; [tauto|].
  rewrite sortInsert_In, IH. intuition congruence.
Qed.

Lemma sortInsert_map (f : B -> A) (compareFn : A -> A -> num) (x : B) (l : list B) :
  map f (sortInsert (fun a b => compareFn (f a) (f b)) x l)
  = sortInsert compareFn (f x) (map f l).
Proof.
  induction l as [|y l IH]; cbn; [reflexivity|].
  destruct (num_ltb _ _); cbn; [now rewrite IH | reflexivity].
Qed.

Lemma Array_sort_map (f : B -> A) (compareFn : A -> A -> num) (l : list B) :
  map f (Array_sort (fun a b => compareFn (f a) (f b)) l)
  = Array_sort compareFn (map f l).
Proof.
  unfold Array_sort. induction l as [|x l IH]; cbn; [reflexivity|].
  now rewrite sortInsert_map, IH.
Qed.

Lemma rankScored_map (f : B -> A) (scoreOf : A -> num) (l : list B) :
  map f (rankScored (fun b => scoreOf (f b)) l) = rankScored scoreOf (map f l).
Proof.
  unfold rankScored. rewrite <- firstn_map. f_equal.
  rewrite <- (Array_sort_map f (fun a b => (scoreOf b - scoreOf a)%js)).
  now rewrite filter_map_swap.
Qed.

Lemma rankScored_length (scoreOf : A -> num) (l : list A) :
  List.length (rankScored scoreOf l) <= 3.
Proof.
  unfold rankScored. apply firstn_le_length.
Qed.

Lemma rankScored_In (scoreOf : A -> num) (l : list A) (x : A) :
  In x (rankScored scoreOf l) ->
  In x l /\ (scoreOf x >? RELEVANCE_FLOOR)%js = true.
Proof.
  unfold rankScored. intros Hin. apply firstn_In in Hin.
  apply filter_In in Hin as [Hin Hscore].
  apply Array_sort_In in Hin. tauto.
Qed.

End SortAnyNumber.

Lemma sortInsert_perm {A num} `{JsNumber num}
    (compareFn : A -> A -> num) (x : A) (l : list A) :
  Permutation (sortInsert compareFn x l) (x :: l).
Proof.
  induction l as [|y l IH]; cbn; [reflexivity|].
  destruct (num_ltb _ _); [|reflexivity].
  rewrite IH. apply perm_swap.
Qed.

Lemma Array_sort_perm {A num} `{JsNumber num}
    (compareFn : A -> A -> num) (l : list A) :
  Permutation (Array_sort compareFn l) l.
Proof.
  unfold Array_sort. induction l as [|x l IH]; cbn; [reflexivity|].
  rewrite sortInsert_perm. now apply perm_skip.
Qed.

Lemma StronglySorted_filter {A} (R : A -> A -> Prop) (p : A -> bool) (l : list A) :
  StronglySorted R l -> StronglySorted R (filter p l).
Proof.
  induction 1 as [|a l Hs IH Hall]; cbn; [constructor|].
  destruct (p a); [|exact IH].
  constructor; [exact IH|].
  rewrite Forall_forall in *. intros x Hx.
  apply filter_In in Hx as [Hx _]. now apply Hall.
Qed.

Lemma StronglySorted_map {A B} (R : A -> A -> Prop) (S : B -> B -> Prop)
    (f : A -> B) (l : list A) :
  (forall x y, In x l -> In y l -> R x y -> S (f x) (f y)) ->
  StronglySorted R l -> StronglySorted S (map f l).
Proof.
  intros Hmono Hs. induction Hs as [|a l Hs IH Hall]; cbn; [constructor|].
  constructor.
  - apply IH. intros x y Hx Hy. apply Hmono; now right.
  - rewrite Forall_forall in *. intros y Hy.
    apply in_map_iff in Hy as [x [<- Hx]].
    apply Hmono; [now left | now right | now apply Hall].
Qed.

Section SortReal.

Local Open Scope R_scope.

Context {A : Type}.
Variables (position : A -> nat) (scoreOf : A -> R).

Let compareFn (a b : A) : R := scoreOf b - scoreOf a.

Let before (a b : A) : Prop :=
  scoreOf b < scoreOf a
  \/ (scoreOf a = scoreOf b /\ (position a < position b)%nat).

Lemma sortInsert_sorted (x : A) (l : list A) :
  StronglySorted before l ->
  Forall (fun y => (position x < position y)%nat) l ->
  StronglySorted before (sortInsert compareFn x l).
Proof.
  intros Hs. induction Hs as [|y l Hs IH Hall]; intros Hpos; cbn.
  - repeat constructor.
  - inversion Hpos as [|? ? Hxy Hpos']; subst.
    unfold num_zero. cbn [num_ltb num_of_nat RealNumber INR].
    destruct (Rltb 0 (compareFn x y)) eqn:Hcmp.
    + apply Rltb_true in Hcmp. unfold compareFn in Hcmp.
      constructor; [now apply IH|].
      rewrite Forall_forall in *. intros z Hz.
      apply sortInsert_In in Hz as [-> | Hz].
      * left. lra.
      * now apply Hall.
    + assert (scoreOf y <= scoreOf x) as Hle.
      { destruct (Rle_dec (scoreOf y) (scoreOf x)) as [Hle | Hgt]; [exact Hle|].
        assert (Rltb 0 (compareFn x y) = true)
          by (apply Rltb_true; unfold compareFn; lra).
        congruence. }
      constructor; [now constructor|].
      constructor.
      * unfold before. destruct (Req_dec_T (scoreOf x) (scoreOf y)); [right | left].
        -- now split.
        -- lra.
      * rewrite Forall_forall in *. intros z Hz.
        specialize (Hall z Hz). specialize (Hpos' z Hz).
        unfold before in *.
        destruct (Req_dec_T (scoreOf x) (scoreOf z)); [right | left].
        -- now split.
        -- destruct Hall as [Hlt | [Heq _]]; lra.
Qed.

Lemma Array_sort_sorted (l : list A) :
  StronglySorted (fun a b => (position a < position b)%nat) l ->
  StronglySorted before (Array_sort compareFn l).
Proof.
  unfold Array_sort.
  induction 1 as [|x l Hs IH Hall]; cbn; [constructor|].
  apply sortInsert_sorted; [exact IH|].
  rewrite Forall_forall in *. intros y Hy.
  apply (proj1 (Array_sort_In compareFn y l)) in Hy. now apply Hall.
Qed.

End SortReal.

(** *** The order under a consistent comparator, in any arithmetic *)

Section Comparable.

Context {num : Type} `{JsNumber num}.
Variable scores : list num.
Hypothesis Hcomparable : comparableScores scores = true.

Lemma comparable_irreflexive (a : num) :
  In a scores -> (a <? a)%js = false.
Proof.
  intros Ha. unfold comparableScores in Hcomparable.
  rewrite forallb_forall in Hcomparable. specialize (Hcomparable a Ha).
  apply andb_true_iff in Hcomparable as [Hirr _].
  now apply negb_true_iff in Hirr.
Qed.

Lemma comparable_pair (a b : num) :
  In a scores -> In b scores ->
  ((b - a) === (b - a))%js = true
  /\ ((b - a) >? num_zero)%js = (a <? b)%js
  /\ ((b - a) <? num_zero)%js = (b <? a)%js
  /\ (a === b)%js = negb (a <? b)%js && negb (b <? a)%js.
Proof.
  intros Ha Hb. unfold comparableScores in Hcomparable.
  rewrite forallb_forall in Hcomparable. specialize (Hcomparable a Ha).
  apply andb_true_iff in Hcomparable as [_ Hall].
  rewrite forallb_forall in Hall. specialize (Hall b Hb). cbn zeta in Hall.
  repeat (apply andb_true_iff in Hall as [Hall ?]).
  repeat split; try assumption; now apply Bool.eqb_prop.
Qed.

Lemma comparable_triple (a b c : num) :
  In a scores -> In b scores -> In c scores ->
  ((a <? b)%js = true -> (b <? c)%js = true -> (a <? c)%js = true)
  /\ ((a <? b)%js = false -> (b <? c)%js = false -> (a <? c)%js = false).
Proof.
  intros Ha Hb Hc. unfold comparableScores in Hcomparable.
  rewrite forallb_forall in Hcomparable. specialize (Hcomparable a Ha).
  apply andb_true_iff in Hcomparable as [_ Hall].
  rewrite forallb_forall in Hall. specialize (Hall b Hb). cbn zeta in Hall.
  apply andb_true_iff in Hall as [_ Hall].
  rewrite forallb_forall in Hall. specialize (Hall c Hc).
  apply andb_true_iff in Hall as [Htrans Hneg].
  split.
  - intros Hab Hbc. rewrite Hab, Hbc in Htrans. exact Htrans.
  - intros Hab Hbc. rewrite Hab, Hbc in Hneg. cbn in Hneg.
    now apply negb_true_iff in Hneg.
Qed.

Lemma comparable_asymmetric (a b : num) :
  In a scores -> In b scores ->
  (a <? b)%js = true -> (b <? a)%js = false.
Proof.
  intros Ha Hb Hab. destruct (b <? a)%js eqn:Hba; [|reflexivity].
  destruct (comparable_triple a b a Ha Hb Ha) as [Htrans _].
  rewrite (comparable_irreflexive a Ha) in Htrans.
  symmetry. now apply Htrans.
Qed.

Section Sorting.

Context {A : Type}.
Variables (position : A -> nat) (scoreOf : A -> num).

Let compareFn (a b : A) : num := (scoreOf b - scoreOf a)%js.

Let before (a b : A) : Prop :=
  (scoreOf b <? scoreOf a)%js = true
  \/ ((scoreOf a === scoreOf b)%js = true /\ position a < position b).

Lemma before_not_less (a b : A) :
  In (scoreOf a) scores -> In (scoreOf b) scores ->
  before a b -> (scoreOf a <? scoreOf b)%js = false.
Proof.
  intros Ha Hb [Hlt | [Htie _]].
  - now apply comparable_asymmetric.
  - destruct (comparable_pair _ _ Ha Hb) as [_ [_ [_ Heq]]].
    rewrite Htie in Heq. symmetry in Heq.
    apply andb_true_iff in Heq as [Hab _]. now apply negb_true_iff in Hab.
Qed.

Lemma not_less_before (a b : A) :
  In (scoreOf a) scores -> In (scoreOf b) scores ->
  (scoreOf a <? scoreOf b)%js = false -> position a < position b ->
  before a b.
Proof.
  intros Ha Hb Hab Hpos. unfold before.
  destruct (scoreOf b <? scoreOf a)%js eqn:Hba; [now left | right].
  split; [|exact Hpos].
  destruct (comparable_pair _ _ Ha Hb) as [_ [_ [_ ->]]].
  now rewrite Hab, Hba.
Qed.

Lemma sortInsert_ordered (x : A) (l : list A) :
  In (scoreOf x) scores ->
  Forall (fun y => In (scoreOf y) scores) l ->
  StronglySorted before l ->
  Forall (fun y => position x < position y) l ->
  StronglySorted before (sortInsert compareFn x l).
Proof.
  intros Hx Hin Hs. induction Hs as [|y l Hs IH Hall]; intros Hpos; cbn.
  - repeat constructor.
  - inversion Hpos as [|? ? Hxy Hpos']; subst.
    inversion Hin as [|? ? Hy Hin']; subst.
    unfold compareFn at 1.
    destruct (comparable_pair _ _ Hx Hy) as [_ [-> _]].
    destruct (scoreOf x <? scoreOf y)%js eqn:Hcmp.
    + constructor; [now apply IH|].
      rewrite Forall_forall in *. intros z Hz.
      apply sortInsert_In in Hz as [-> | Hz]; [now left | now apply Hall].
    + constructor; [now constructor|].
      constructor; [now apply not_less_before|].
      rewrite Forall_forall in *. intros z Hz.
      apply not_less_before; [exact Hx | now apply Hin' | | now apply Hpos'].
      destruct (comparable_triple _ _ _ Hx Hy (Hin' z Hz)) as [_ Hneg].
      apply Hneg; [exact Hcmp|].
      apply before_not_less; [exact Hy | now apply Hin' | now apply Hall].
Qed.

Lemma Array_sort_ordered (l : list A) :
  Forall (fun y => In (scoreOf y) scores) l ->
  StronglySorted (fun a b => position a < position b) l ->
  StronglySorted before (Array_sort compareFn l).
Proof.
  unfold Array_sort. intros Hin Hs.
  induction Hs as [|x l Hs IH Hall]; cbn; [constructor|].
  inversion Hin as [|? ? Hx Hin']; subst.
  apply sortInsert_ordered; [exact Hx | | now apply IH |].
  - rewrite Forall_forall in *. intros y Hy.
    apply (proj1 (Array_sort_In compareFn y l)) in Hy. now apply Hin'.
  - rewrite Forall_forall in *. intros y Hy.
    apply (proj1 (Array_sort_In compareFn y l)) in Hy. now apply Hall.
Qed.

(** The order is the only one: an array with the same items that is in
    descending order of score, equal scores in ascending position, is the
    array the insertion sort returns. *)
Lemma before_asymmetric (a b : A) :
  In (scoreOf a) scores -> In (scoreOf b) scores ->
  before a b -> before b a -> False.
Proof.
  intros Ha Hb Hab [Hlt | [Htie Hpos]].
  - apply (before_not_less a b Ha Hb) in Hab. congruence.
  - destruct Hab as [Hlt | [_ Hpos']]; [|lia].
    destruct (comparable_pair _ _ Hb Ha) as [_ [_ [_ Heq]]].
    rewrite Htie, Hlt in Heq. discriminate.
Qed.

Lemma Array_sort_unique (l sorted : list A) :
  Forall (fun y => In (scoreOf y) scores) l ->
  StronglySorted (fun a b => position a < position b) l ->
  Permutation l sorted ->
  StronglySorted before sorted ->
  sorted = Array_sort compareFn l.
Proof.
  intros Hin Hpos Hperm Hsorted.
  pose proof (Array_sort_ordered l Hin Hpos) as Hmodel.
  assert (Hperm' : Permutation sorted (Array_sort compareFn l))
    by (etransitivity; [symmetry; exact Hperm | symmetry; apply Array_sort_perm]).
  assert (Hscores : Forall (fun y => In (scoreOf y) scores) sorted).
  { rewrite Forall_forall in *. intros y Hy. apply Hin.
    apply (Permutation_in _ (Permutation_sym Hperm)). exact Hy. }
  clear Hperm Hpos Hin. revert Hsorted Hscores Hmodel Hperm'.
  generalize (Array_sort compareFn l) as model. clear l.
  induction sorted as [|a sorted IH]; intros model Hsorted Hscores Hmodel Hperm.
  - apply Permutation_nil in Hperm. now subst.
  - destruct model as [|b model].
    { symmetry in Hperm. apply Permutation_nil in Hperm. discriminate. }
    inversion Hsorted as [|? ? Hs1 Hall1]; subst.
    inversion Hmodel as [|? ? Hs2 Hall2]; subst.
    inversion Hscores as [|? ? Ha Hscores']; subst.
    assert (Hb : In (scoreOf b) scores).
    { rewrite Forall_forall in Hscores. apply Hscores.
      apply (Permutation_in _ (Permutation_sym Hperm)). now left. }
    assert (Heq : a = b).
    { assert (Hain : In a (b :: model))
        by (apply (Permutation_in _ Hperm); now left).
      assert (Hbin : In b (a :: sorted))
        by (apply (Permutation_in _ (Permutation_sym Hperm)); now left).
      destruct Hain as [Hba | Hain]; [now symmetry|].
      destruct Hbin as [Hab | Hbin]; [exact Hab|].
      rewrite Forall_forall in Hall1, Hall2.
      exfalso. apply (before_asymmetric a b Ha Hb);
        [now apply Hall1 | now apply Hall2]. }
    subst b. f_equal. apply IH; try assumption.
    now apply Permutation_cons_inv in Hperm.
Qed.

End Sorting.
End Comparable.

Lemma comparableScores_real (scores : list R) : comparableScores scores = true.
Proof.
  unfold comparableScores. apply forallb_forall. intros a _.
  cbn [num_ltb num_eqb num_sub RealNumber]. unfold num_zero.
  cbn [num_of_nat RealNumber INR].
  apply andb_true_iff. split.
  { apply negb_true_iff. destruct (Rltb a a) eqn:H; [|reflexivity].
    apply Rltb_true in H. lra. }
  apply forallb_forall. intros b _. cbn zeta.
  assert (Hlt : forall x y : R, Rltb x y = true \/ Rltb x y = false)
    by (intros x y; destruct (Rltb x y); tauto).
  assert (Hfalse : forall x y : R, Rltb x y = false <-> (y <= x)%R).
  { intros x y. destruct (Rltb x y) eqn:H.
    - apply Rltb_true in H. split; [discriminate | lra].
    - split; [|reflexivity]. intros _.
      destruct (Rle_dec y x) as [Hle | Hgt]; [exact Hle|].
      assert (Rltb x y = true) by (apply Rltb_true; lra). congruence. }
  repeat (apply andb_true_iff; split).
  - now apply Reqb_true.
  - apply Bool.eqb_true_iff.
    destruct (Rltb a b) eqn:Hab.
    + apply Rltb_true in Hab. apply Rltb_true. lra.
    + apply Hfalse in Hab. apply Hfalse. lra.
  - apply Bool.eqb_true_iff.
    destruct (Rltb b a) eqn:Hba.
    + apply Rltb_true in Hba. apply Rltb_true. lra.
    + apply Hfalse in Hba. apply Hfalse. lra.
  - apply Bool.eqb_true_iff.
    destruct (Rltb a b) eqn:Hab; destruct (Rltb b a) eqn:Hba; cbn;
      try apply Rltb_true in Hab; try apply Rltb_true in Hba;
      try apply Hfalse in Hab; try apply Hfalse in Hba.
    + lra.
    + destruct (Reqb a b) eqn:Heq; [apply Reqb_true in Heq; lra | reflexivity].
    + destruct (Reqb a b) eqn:Heq; [apply Reqb_true in Heq; lra | reflexivity].
    + apply Reqb_true. lra.
  - apply forallb_forall. intros c _.
    apply andb_true_iff. split.
    + destruct (Rltb a b) eqn:Hab; destruct (Rltb b c) eqn:Hbc; cbn;
        try reflexivity.
      apply Rltb_true in Hab, Hbc. apply Rltb_true. lra.
    + destruct (Rltb a b) eqn:Hab; destruct (Rltb b c) eqn:Hbc; cbn;
        try reflexivity.
      apply Hfalse in Hab, Hbc. apply negb_true_iff, Hfalse. lra.
Qed.

Lemma tagFrom_snd {A} (l : list A) : forall start, map snd (tagFrom start l) = l.
Proof.
  induction l as [|x l IH]; intros start; cbn; [reflexivity | now rewrite IH].
Qed.

Lemma tagFrom_In {A} (l : list A) :
  forall start p x,
    In (p, x) (tagFrom start l) ->
    start <= p /\ nth_error l (p - start) = Some x.
Proof.
  induction l as [|y l IH]; intros start p x; cbn; [tauto|].
  intros [[= <- <-] | Hin].
  - split; [lia|]. now rewrite Nat.sub_diag.
  - apply IH in Hin as [Hle Hnth]. split; [lia|].
    replace (p - start) with (S (p - S start)) by lia. exact Hnth.
Qed.

Lemma tagFrom_sorted {A} (l : list A) :
  forall start,
    StronglySorted (fun a b : nat * A => fst a < fst b) (tagFrom start l).
Proof.
  induction l as [|x l IH]; intros start; cbn; constructor.
  - apply IH.
  - rewrite Forall_forall. intros [p y] Hin.
    apply tagFrom_In in Hin as [Hle _]. cbn. lia.
Qed.

(** ** Retrieval *)

Lemma Forall2_maps {A B C} (P : B -> C -> Prop) (f : A -> B) (g : A -> C)
    (l : list A) :
  Forall (fun x => P (f x) (g x)) l -> Forall2 P (map f l) (map g l).
Proof.
  induction 1; cbn; constructor; assumption.
Qed.

Section Retrieval.

Context {num : Type} `{JsNumber num}.
Variables (kb : KnowledgeBase num) (query : string).

Let queryVector := vectorizeWithTfidf query (idfMap kb).
Let toScored (c : Chunk) : ScoredChunk num :=
  mkScored c (scoreChunk (chunkTfidfVectors kb) queryVector c).

(** Past the guard for an empty index, the result is the ranking of the
    scored chunks. *)
Lemma findRelevantChunks_cases :
  findRelevantChunks kb query = []
  \/ findRelevantChunks kb query
     = map chunk (rankScored score (map toScored (chunks kb))).
Proof.
  unfold findRelevantChunks.
  destruct (indexIsEmpty kb); [left | right]; reflexivity.
Qed.

Lemma toScored_In (sc : ScoredChunk num) :
  In sc (map toScored (chunks kb)) ->
  In (chunk sc) (chunks kb)
  /\ score sc = scoreChunk (chunkTfidfVectors kb) queryVector (chunk sc).
Proof.
  intros Hin. apply in_map_iff in Hin as [c [<- Hc]]. now split.
Qed.

Lemma findRelevantChunks_bounded :
  List.length (findRelevantChunks kb query) <= 3
  /\ Forall
       (fun c =>
          In c (chunks kb)
          /\ (scoreChunk (chunkTfidfVectors kb) queryVector c
              >? RELEVANCE_FLOOR)%js = true)
       (findRelevantChunks kb query).
Proof.
  destruct findRelevantChunks_cases as [-> | ->].
  - split; [cbn; lia | constructor].
  - split.
    + rewrite length_map. apply rankScored_length.
    + apply Forall_forall. intros c Hc.
      apply in_map_iff in Hc as [sc [<- Hsc]].
      apply rankScored_In in Hsc as [Hin Hscore].
      apply toScored_In in Hin as [Hin Heq]. rewrite <- Heq. now split.
Qed.

(** A chunk without a stored vector scores 0, which does not pass the
    test: every returned chunk was scored against the vector stored under
    its id. *)
Lemma findRelevantChunks_stored_vector :
  (num_zero >? RELEVANCE_FLOOR)%js = false ->
  Forall
    (fun c =>
       exists chunkVector,
         Map_get (chunkTfidfVectors kb) (getChunkId c) = Some chunkVector
         /\ (cosineSimilarity queryVector chunkVector >? RELEVANCE_FLOOR)%js
            = true)
    (findRelevantChunks kb query).
Proof.
  intros Hzero. destruct findRelevantChunks_bounded as [_ Hall].
  rewrite Forall_forall in *. intros c Hc.
  destruct (Hall c Hc) as [_ Hscore]. unfold scoreChunk in Hscore.
  destruct (Map_get (chunkTfidfVectors kb) (getChunkId c)) as [v|].
  - exists v. now split.
  - congruence.
Qed.

End Retrieval.

Lemma tagFrom_nth {A} (l : list A) :
  forall start p x,
    nth_error l p = Some x -> In (start + p, x) (tagFrom start l).
Proof.
  induction l as [|y l IH]; intros start [|p] x; cbn; try discriminate.
  - intros [= ->]. left. f_equal. lia.
  - intros Hnth. right.
    replace (start + S p) with (S start + p) by lia. now apply IH.
Qed.

Lemma filter_none {A} (p : A -> bool) (l : list A) :
  (forall x, In x l -> p x = false) -> filter p l = [].
Proof.
  induction l as [|x l IH]; cbn; intros Hall; [reflexivity|].
  rewrite (Hall x) by now left. apply IH. intros y Hy. apply Hall. now right.
Qed.

Lemma vectorize_wf {num} `{JsNumber num} (content : string) (idf : Map num) :
  Map_wf (vectorizeWithTfidf content idf).
Proof.
  unfold vectorizeWithTfidf. destruct (Nat.eqb _ 0); [constructor|].
  apply (Map_fold_set_wf
           (fun term tf =>
              (num_of_nat tf / num_of_nat (List.length (tokenize content))
               * getOrZero (Map_get idf term))%js)).
  constructor.
Qed.

(** With an empty IDF table every weight of the query vector is zero. *)
Lemma vectorize_empty_idf (content : string) :
  magnitude (@vectorizeWithTfidf R _ content []) = 0%R.
Proof.
  unfold magnitude. rewrite sumSquares_real.
  rewrite (Rsum_ext_in _ (fun _ => 0%R)).
  - replace (Rsum (map (fun _ => 0%R) (vectorizeWithTfidf content [])))
      with 0%R; [apply sqrt_0|].
    induction (vectorizeWithTfidf content []) as [|e l IH];
      [reflexivity | rewrite map_cons, Rsum_cons, <- IH; lra].
  - intros [k v] Hin. cbn [snd].
    apply (Map_get_wf _ k v (vectorize_wf content [])) in Hin.
    rewrite vectorize_get in Hin. cbn [Map_get getOrZero] in Hin.
    destruct (Nat.eqb _ 0); [discriminate|]. injection Hin as <-.
    unfold num_zero. cbn [num_mul num_of_nat RealNumber INR]. lra.
Qed.

Section RetrievalReal.

Local Open Scope R_scope.

Variables (kb : KnowledgeBase R) (query : string).

Let queryVector := vectorizeWithTfidf query (idfMap kb).
Let scoreOfChunk := scoreChunk (chunkTfidfVectors kb) queryVector.
Let scoreAt (p : nat) : R :=
  match nth_error (chunks kb) p with
  | Some c => scoreOfChunk c
  | None => 0
  end.
Let toScored (c : Chunk) : ScoredChunk R := mkScored c (scoreOfChunk c).
Let tagged := tagFrom 0 (map toScored (chunks kb)).
Let taggedScore (t : nat * ScoredChunk R) : R := score (snd t).
Let rankedAll :=
  filter (fun t => (taggedScore t >? RELEVANCE_FLOOR)%js)
         (Array_sort (fun a b => (taggedScore b - taggedScore a)%js) tagged).

Lemma floor_real (x : R) :
  (x >? RELEVANCE_FLOOR)%js = true <-> 1 / 100 < x.
Proof.
  unfold RELEVANCE_FLOOR. rewrite real_lit.
  cbn [num_ltb RealNumber]. rewrite Rltb_true.
  replace (INR 1 / INR 100) with (1 / 100) by (cbn; lra). tauto.
Qed.

(** With an empty index every score is zero: the early return of
    [findRelevantChunks] is what the ranking would have returned. *)
Lemma score_zero_when_index_empty (c : Chunk) :
  indexIsEmpty kb = true -> In c (chunks kb) -> scoreOfChunk c = 0.
Proof.
  unfold indexIsEmpty, scoreOfChunk, scoreChunk. intros Hguard Hin.
  apply orb_true_iff in Hguard as [Hguard | Hidf];
    [apply orb_true_iff in Hguard as [Hchunks | Hvectors]|].
  - apply Nat.eqb_eq, length_zero_iff_nil in Hchunks.
    rewrite Hchunks in Hin. contradiction.
  - apply Nat.eqb_eq, length_zero_iff_nil in Hvectors.
    rewrite Hvectors. reflexivity.
  - apply Nat.eqb_eq, length_zero_iff_nil in Hidf.
    destruct (Map_get _ _); [|reflexivity].
    apply cosine_zero_case. left. unfold queryVector. rewrite Hidf.
    apply vectorize_empty_idf.
Qed.

Lemma tagged_sound (t : nat * ScoredChunk R) :
  In t tagged ->
  nth_error (chunks kb) (fst t) = Some (chunk (snd t))
  /\ taggedScore t = scoreAt (fst t).
Proof.
  destruct t as [p sc]. intros Ht.
  apply tagFrom_In in Ht as [_ Hnth]. rewrite Nat.sub_0_r in Hnth.
  rewrite nth_error_map in Hnth. cbn [fst snd]. unfold scoreAt, taggedScore.
  destruct (nth_error (chunks kb) p) as [c|]; [|discriminate].
  injection Hnth as <-. now split.
Qed.

Lemma rankedAll_In (t : nat * ScoredChunk R) :
  In t rankedAll <-> In t tagged /\ 1 / 100 < taggedScore t.
Proof.
  unfold rankedAll. rewrite filter_In, Array_sort_In, floor_real. tauto.
Qed.

Lemma rankedAll_sorted :
  StronglySorted (ranksBefore scoreAt) (map fst rankedAll).
Proof.
  apply StronglySorted_map
    with (R := fun a b : nat * ScoredChunk R =>
                 taggedScore b < taggedScore a
                 \/ (taggedScore a = taggedScore b /\ (fst a < fst b)%nat)).
  - intros x y Hx Hy Hxy. unfold ranksBefore.
    apply rankedAll_In in Hx as [Hx _]. apply rankedAll_In in Hy as [Hy _].
    destruct (tagged_sound x Hx) as [_ <-].
    destruct (tagged_sound y Hy) as [_ <-]. exact Hxy.
  - unfold rankedAll. apply StronglySorted_filter.
    apply (Array_sort_sorted fst taggedScore). apply tagFrom_sorted.
Qed.

Lemma rankedAll_positions (p : nat) :
  In p (map fst rankedAll) <-> 1 / 100 < scoreAt p.
Proof.
  rewrite in_map_iff. split.
  - intros [t [<- Ht]]. apply rankedAll_In in Ht as [Ht Hscore].
    destruct (tagged_sound t Ht) as [_ <-]. exact Hscore.
  - intros Hscore. unfold scoreAt in Hscore.
    destruct (nth_error (chunks kb) p) as [c|] eqn:Hnth; [|lra].
    exists (p, toScored c). split; [reflexivity|].
    apply rankedAll_In. split; [|exact Hscore].
    apply (tagFrom_nth (map toScored (chunks kb)) 0 p).
    now apply map_nth_error.
Qed.

Lemma findRelevantChunks_top3 :
  Forall2 (fun c p => nth_error (chunks kb) p = Some c)
          (findRelevantChunks kb query) (firstn 3 (map fst rankedAll)).
Proof.
  unfold findRelevantChunks. destruct (indexIsEmpty kb) eqn:Hguard.
  - assert (rankedAll = []) as ->; [|constructor].
    unfold rankedAll. apply filter_none. intros t Ht.
    apply (proj1 (Array_sort_In _ t tagged)) in Ht.
    destruct (tagged_sound t Ht) as [Hnth Hscore].
    unfold scoreAt in Hscore. rewrite Hnth in Hscore.
    apply nth_error_In in Hnth.
    rewrite (score_zero_when_index_empty _ Hguard Hnth) in Hscore.
    destruct (num_ltb _ _) eqn:Hpass; [|reflexivity].
    apply floor_real in Hpass. unfold taggedScore in *. lra.
  - fold queryVector. fold scoreOfChunk.
    change (fun c => mkScored c (scoreOfChunk c)) with toScored.
    replace (rankScored score (map toScored (chunks kb)))
      with (map snd (firstn 3 rankedAll)).
    + rewrite map_map, firstn_map. apply Forall2_maps, Forall_forall.
      intros t Ht. apply firstn_In in Ht.
      apply rankedAll_In in Ht as [Ht _]. now apply tagged_sound.
    + change (firstn 3 rankedAll) with (rankScored taggedScore tagged).
      unfold taggedScore. rewrite (rankScored_map snd score tagged).
      unfold tagged. now rewrite tagFrom_snd.
Qed.

End RetrievalReal.

Section RetrievalRanked.

Context {num : Type} `{JsNumber num}.
Variables (kb : KnowledgeBase num) (query : string).

Let queryVector := vectorizeWithTfidf query (idfMap kb).
Let scoreOfChunk := scoreChunk (chunkTfidfVectors kb) queryVector.
Let scoreAt (p : nat) : num :=
  match nth_error (chunks kb) p with
  | Some c => scoreOfChunk c
  | None => num_zero
  end.
Let toScored (c : Chunk) : ScoredChunk num := mkScored c (scoreOfChunk c).
Let tagged := tagFrom 0 (map toScored (chunks kb)).
Let taggedScore (t : nat * ScoredChunk num) : num := score (snd t).
Let rankedAll :=
  filter (fun t => (taggedScore t >? RELEVANCE_FLOOR)%js)
         (Array_sort (fun a b => (taggedScore b - taggedScore a)%js) tagged).

Hypothesis Hcomparable :
  comparableScores (map scoreOfChunk (chunks kb)) = true.

Lemma tagged_at (t : nat * ScoredChunk num) :
  In t tagged ->
  nth_error (chunks kb) (fst t) = Some (chunk (snd t))
  /\ taggedScore t = scoreAt (fst t)
  /\ In (taggedScore t) (map scoreOfChunk (chunks kb)).
Proof.
  destruct t as [p sc]. intros Ht.
  apply tagFrom_In in Ht as [_ Hnth]. rewrite Nat.sub_0_r in Hnth.
  rewrite nth_error_map in Hnth. cbn [fst snd]. unfold scoreAt, taggedScore.
  destruct (nth_error (chunks kb) p) as [c|] eqn:Hc; [|discriminate].
  injection Hnth as <-. cbn [snd score chunk toScored].
  repeat split. apply in_map. now apply nth_error_In in Hc.
Qed.

Lemma ranked_In (t : nat * ScoredChunk num) :
  In t rankedAll <->
  In t tagged /\ (taggedScore t >? RELEVANCE_FLOOR)%js = true.
Proof.
  unfold rankedAll. rewrite filter_In, Array_sort_In. tauto.
Qed.

Lemma ranked_sorted :
  StronglySorted (ranksBeforeIn scoreAt) (map fst rankedAll).
Proof.
  apply StronglySorted_map
    with (R := fun a b : nat * ScoredChunk num =>
                 (taggedScore b <? taggedScore a)%js = true
                 \/ ((taggedScore a === taggedScore b)%js = true
                     /\ fst a < fst b)).
  - intros x y Hx Hy Hxy. unfold ranksBeforeIn.
    apply ranked_In in Hx as [Hx _]. apply ranked_In in Hy as [Hy _].
    destruct (tagged_at x Hx) as [_ [<- _]].
    destruct (tagged_at y Hy) as [_ [<- _]]. exact Hxy.
  - unfold rankedAll. apply StronglySorted_filter.
    apply (Array_sort_ordered _ Hcomparable fst taggedScore).
    + apply Forall_forall. intros t Ht. now apply tagged_at.
    + apply tagFrom_sorted.
Qed.

Lemma ranked_positions (p : nat) :
  In p (map fst rankedAll) <->
  p < List.length (chunks kb) /\ (scoreAt p >? RELEVANCE_FLOOR)%js = true.
Proof.
  rewrite in_map_iff. split.
  - intros [t [<- Ht]]. apply ranked_In in Ht as [Ht Hscore].
    destruct (tagged_at t Ht) as [Hnth [<- _]]. split; [|exact Hscore].
    apply nth_error_Some. congruence.
  - intros [Hp Hscore]. unfold scoreAt in Hscore.
    destruct (nth_error (chunks kb) p) as [c|] eqn:Hnth.
    + exists (p, toScored c). split; [reflexivity|].
      apply ranked_In. split; [|exact Hscore].
      apply (tagFrom_nth (map toScored (chunks kb)) 0 p).
      now apply map_nth_error.
    + apply nth_error_None in Hnth. lia.
Qed.

Lemma findRelevantChunks_first3 :
  indexIsEmpty kb = false ->
  Forall2 (fun c p => nth_error (chunks kb) p = Some c)
          (findRelevantChunks kb query) (firstn 3 (map fst rankedAll)).
Proof.
  intros Hguard. unfold findRelevantChunks. rewrite Hguard.
  fold queryVector. fold scoreOfChunk.
  change (fun c => mkScored c (scoreOfChunk c)) with toScored.
  replace (rankScored score (map toScored (chunks kb)))
    with (map snd (firstn 3 rankedAll)).
  - rewrite map_map, firstn_map. apply Forall2_maps, Forall_forall.
    intros t Ht. apply firstn_In in Ht.
    apply ranked_In in Ht as [Ht _]. now apply tagged_at.
  - change (firstn 3 rankedAll) with (rankScored taggedScore tagged).
    unfold taggedScore. rewrite (rankScored_map snd score tagged).
    unfold tagged. now rewrite tagFrom_snd.
Qed.

Lemma findRelevantChunks_ranking :
  exists ranking : list nat,
    StronglySorted (ranksBeforeIn scoreAt) ranking
    /\ (forall p, In p ranking <->
                  indexIsEmpty kb = false
                  /\ p < List.length (chunks kb)
                  /\ (scoreAt p >? RELEVANCE_FLOOR)%js = true)
    /\ Forall2 (fun c p => nth_error (chunks kb) p = Some c)
               (findRelevantChunks kb query) (firstn 3 ranking).
Proof.
  destruct (indexIsEmpty kb) eqn:Hguard.
  - exists []. split; [constructor | split].
    + intros p. split; [intros [] | intros [Habs _]; discriminate].
    + unfold findRelevantChunks. rewrite Hguard. constructor.
  - exists (map fst rankedAll). split; [exact ranked_sorted | split].
    + intros p. rewrite ranked_positions. tauto.
    + now apply findRelevantChunks_first3.
Qed.

(** The result does not depend on the sorting algorithm: whatever array
    with the same scored chunks is in descending order of score, equal
    scores in corpus order, filtering and slicing it gives the result. *)
Lemma findRelevantChunks_any_stable_sort (sorted : list (nat * ScoredChunk num)) :
  indexIsEmpty kb = false ->
  Permutation tagged sorted ->
  StronglySorted
    (fun a b =>
       (taggedScore b <? taggedScore a)%js = true
       \/ ((taggedScore a === taggedScore b)%js = true /\ fst a < fst b))
    sorted ->
  findRelevantChunks kb query
  = map (fun t => chunk (snd t))
        (firstn 3 (filter (fun t => (taggedScore t >? RELEVANCE_FLOOR)%js)
                          sorted)).
Proof.
  intros Hguard Hperm Hsorted.
  assert (Hmodel : sorted
                   = Array_sort (fun a b => (taggedScore b - taggedScore a)%js)
                                tagged).
  { apply (Array_sort_unique _ Hcomparable fst taggedScore);
      [| apply tagFrom_sorted | exact Hperm | exact Hsorted].
    apply Forall_forall. intros t Ht. now apply tagged_at. }
  rewrite Hmodel. fold rankedAll.
  unfold findRelevantChunks. rewrite Hguard.
  fold queryVector. fold scoreOfChunk.
  change (fun c => mkScored c (scoreOfChunk c)) with toScored.
  replace (rankScored score (map toScored (chunks kb)))
    with (map snd (firstn 3 rankedAll)); [now rewrite map_map|].
  change (firstn 3 rankedAll) with (rankScored taggedScore tagged).
  unfold taggedScore. rewrite (rankScored_map snd score tagged).
  unfold tagged. now rewrite tagFrom_snd.
Qed.

End RetrievalRanked.

(** C1.  [findRelevantChunks] returns at most 3 chunks, each a chunk of the
    corpus whose score passed the test [score > 0.01], in whichever
    arithmetic the scores are computed.  The order, in binary64 as in any
    arithmetic: when [(a, b) => b.score - a.score] is a consistent
    comparator on the scores of the corpus ([comparableScores], which a
    [NaN] score fails), the returned chunks are the chunks at the first
    three positions of the ranking of the corpus, where the ranking holds
    exactly the positions whose computed score passes the test, ordered by
    descending computed score, equal scores by ascending position; and
    the result is the same for every sorting algorithm, since any array
    with the same scored chunks in that order gives it.  Where [0 > 0.01]
    is false, as in binary64, every returned chunk was scored by the
    cosine similarity of the query vector with the vector stored under
    the chunk's id.  In exact arithmetic the comparator is always
    consistent: every returned chunk has a stored vector whose cosine
    similarity with the query vector is above [1/100], and the ranking
    holds exactly the positions whose score is above [1/100], the early
    return for an empty index included. *)
Theorem findRelevantChunks_ranked :
  (forall num (N : JsNumber num) (kb : KnowledgeBase num) (query : string),
      let queryVector := vectorizeWithTfidf query (idfMap kb) in
      List.length (findRelevantChunks kb query) <= 3
      /\ Forall
           (fun c =>
              In c (chunks kb)
              /\ (scoreChunk (chunkTfidfVectors kb) queryVector c
                  >? num_lit 1 100)%js = true)
           (findRelevantChunks kb query))
  /\ (forall (kb : KnowledgeBase R) (query : string),
         let queryVector := vectorizeWithTfidf query (idfMap kb) in
         let scoreAt (p : nat) : R :=
           match nth_error (chunks kb) p with
           | Some c => scoreChunk (chunkTfidfVectors kb) queryVector c
           | None => 0%R
           end in
         Forall
           (fun c =>
              exists chunkVector,
                Map_get (chunkTfidfVectors kb) (getChunkId c) = Some chunkVector
                /\ (1 / 100 < cosineSimilarity queryVector chunkVector)%R)
           (findRelevantChunks kb query)
         /\ exists ranking : list nat,
             StronglySorted (ranksBefore scoreAt) ranking
             /\ (forall p, In p ranking <-> (1 / 100 < scoreAt p)%R)
             /\ Forall2 (fun c p => nth_error (chunks kb) p = Some c)
                        (findRelevantChunks kb query) (firstn 3 ranking))
  /\ (forall num (N : JsNumber num) (kb : KnowledgeBase num) (query : string),
         let queryVector := vectorizeWithTfidf query (idfMap kb) in
         let scoreOf := scoreChunk (chunkTfidfVectors kb) queryVector in
         let scoreAt (p : nat) : num :=
           match nth_error (chunks kb) p with
           | Some c => scoreOf c
           | None => num_zero
           end in
         comparableScores (map scoreOf (chunks kb)) = true ->
         exists ranking : list nat,
           StronglySorted (ranksBeforeIn scoreAt) ranking
           /\ (forall p, In p ranking <->
                         indexIsEmpty kb = false
                         /\ p < List.length (chunks kb)
                         /\ (scoreAt p >? num_lit 1 100)%js = true)
           /\ Forall2 (fun c p => nth_error (chunks kb) p = Some c)
                      (findRelevantChunks kb query) (firstn 3 ranking))
  /\ (forall num (N : JsNumber num) (kb : KnowledgeBase num) (query : string)
             (sorted : list (nat * ScoredChunk num)),
         let queryVector := vectorizeWithTfidf query (idfMap kb) in
         let scoreOf := scoreChunk (chunkTfidfVectors kb) queryVector in
         let scoredChunks := map (fun c => mkScored c (scoreOf c)) (chunks kb) in
         comparableScores (map scoreOf (chunks kb)) = true ->
         indexIsEmpty kb = false ->
         Permutation (tagFrom 0 scoredChunks) sorted ->
         StronglySorted
           (fun a b =>
              (score (snd b) <? score (snd a))%js = true
              \/ ((score (snd a) === score (snd b))%js = true
                  /\ fst a < fst b))
           sorted ->
         findRelevantChunks kb query
         = map (fun t => chunk (snd t))
               (firstn 3 (filter (fun t => (score (snd t) >? num_lit 1 100)%js)
                                 sorted)))
  /\ (forall num (N : JsNumber num) (kb : KnowledgeBase num) (query : string),
         let queryVector := vectorizeWithTfidf query (idfMap kb) in
         (num_zero >? num_lit 1 100)%js = false ->
         Forall
           (fun c =>
              exists chunkVector,
                Map_get (chunkTfidfVectors kb) (getChunkId c) = Some chunkVector
                /\ (cosineSimilarity queryVector chunkVector
                    >? num_lit 1 100)%js = true)
           (findRelevantChunks kb query))
  /\ (forall scores : list R, comparableScores scores = true).
Proof.
  split; [|split; [|split; [|split; [|split]]]].
  - intros num N kb query. apply findRelevantChunks_bounded.
  - intros kb query queryVector scoreAt. split.
    + destruct (findRelevantChunks_bounded kb query) as [_ Hall].
      rewrite Forall_forall in *. intros c Hc.
      destruct (Hall c Hc) as [_ Hscore].
      apply floor_real in Hscore. fold queryVector in Hscore.
      unfold scoreChunk in Hscore.
      destruct (Map_get (chunkTfidfVectors kb) (getChunkId c)) as [v|].
      * exists v. split; [reflexivity | exact Hscore].
      * exfalso. unfold num_zero in Hscore. cbn in Hscore. lra.
    + eexists. split; [|split].
      * apply (rankedAll_sorted kb query).
      * apply (rankedAll_positions kb query).
      * apply (findRelevantChunks_top3 kb query).
  - intros num N kb query queryVector scoreOf scoreAt Hcomparable.
    exact (findRelevantChunks_ranking kb query Hcomparable).
  - intros num N kb query sorted queryVector scoreOf scoredChunks
           Hcomparable Hguard Hperm Hsorted.
    exact (findRelevantChunks_any_stable_sort kb query Hcomparable sorted
             Hguard Hperm Hsorted).
  - intros num N kb query queryVector Hzero.
    exact (findRelevantChunks_stored_vector kb query Hzero).
  - exact comparableScores_real.
Qed.

(** On the binary64 state after the two uploads the query [a b b b c]
    scores the first chunk [0.9999999999999999] and the second [1]: the
    second chunk is returned first. *)
Lemma findRelevantChunks_ranked_witness :
  let query := "a b b b c" in
  let scoreOf :=
    scoreChunk (chunkTfidfVectors kbTwoUploads)
               (vectorizeWithTfidf query (idfMap kbTwoUploads)) in
  let scoreAt (p : nat) : float :=
    match nth_error (chunks kbTwoUploads) p with
    | Some c => scoreOf c
    | None => num_zero
    end in
  let sorted :=
    [(1, mkScored uploadB 1%float);
     (0, mkScored uploadA 0x1.fffffffffffffp-1%float)] in
  (map scoreOf (chunks kbTwoUploads) = [0x1.fffffffffffffp-1%float; 1%float]
   /\ findRelevantChunks kbTwoUploads query = [uploadB; uploadA])
  /\ (exists ranking : list nat,
        StronglySorted (ranksBeforeIn scoreAt) ranking
        /\ (forall p, In p ranking <->
                      indexIsEmpty kbTwoUploads = false
                      /\ p < List.length (chunks kbTwoUploads)
                      /\ (scoreAt p >? num_lit 1 100)%js = true)
        /\ Forall2 (fun c p => nth_error (chunks kbTwoUploads) p = Some c)
                   (findRelevantChunks kbTwoUploads query) (firstn 3 ranking))
  /\ findRelevantChunks kbTwoUploads query
     = map (fun t => chunk (snd t))
           (firstn 3 (filter (fun t => (score (snd t) >? num_lit 1 100)%js)
                             sorted))
  /\ Forall
       (fun c =>
          exists chunkVector,
            Map_get (chunkTfidfVectors kbTwoUploads) (getChunkId c)
            = Some chunkVector
            /\ (cosineSimilarity
                  (vectorizeWithTfidf query (idfMap kbTwoUploads)) chunkVector
                >? num_lit 1 100)%js = true)
       (findRelevantChunks kbTwoUploads query).
Proof.
  split; [|split; [|split]].
  - split; vm_compute; reflexivity.
  - apply (proj1 (proj2 (proj2 findRelevantChunks_ranked))
             float _ kbTwoUploads "a b b b c").
    vm_compute. reflexivity.
  - apply (proj1 (proj2 (proj2 (proj2 findRelevantChunks_ranked)))
             float _ kbTwoUploads "a b b b c").
    + vm_compute. reflexivity.
    + vm_compute. reflexivity.
    + vm_compute. apply perm_swap.
    + constructor; [constructor; constructor|].
      constructor; [|constructor].
      left. vm_compute. reflexivity.
  - apply (proj1 (proj2 (proj2 (proj2 (proj2 findRelevantChunks_ranked))))
             float _ kbTwoUploads "a b b b c").
    vm_compute. reflexivity.
Defined.

Lemma addDocument_always_appends_witness :
  fst (@intelligentChunking float _ "" "notes.txt") = []
  /\ exists kb',
      addDocumentToKnowledgeBase "notes.txt" "text/plain" 0 "" (@emptyKB float)
      = Returned kb'
      /\ documents kb' = [] ++ [mkDocument "notes.txt" "text/plain" 0]
      /\ chunks kb' = [] ++ fst (@intelligentChunking float _ "" "notes.txt").
Proof.
  split.
  - apply (proj2 (addDocument_always_appends float _ "notes.txt" "text/plain" 0 ""
                    emptyKB)).
    reflexivity.
  - apply (proj1 (addDocument_always_appends float _ "notes.txt" "text/plain" 0 ""
                    emptyKB)).
Defined.

Lemma analyzeContentType_density_witness :
  @analyzeContentType float _
     (string_of_list_ascii (repeat "a"%char 96 ++ repeat newline 4))
  = atomic
  /\ @analyzeContentType float _
       (string_of_list_ascii (repeat "a"%char 97 ++ repeat newline 3))
     = narrative
  /\ @analyzeContentType float _ "" = narrative.
Proof.
  split; [|split].
  - assert (Hlength : String.length
                        (string_of_list_ascii
                           (repeat "a"%char 96 ++ repeat newline 4)) = 100)
      by (vm_compute; reflexivity).
    assert (Hnewlines : newlineCharacters
                          (string_of_list_ascii
                             (repeat "a"%char 96 ++ repeat newline 4)) = 4)
      by (vm_compute; reflexivity).
    apply (proj1 (proj2 (proj2 analyzeContentType_density)));
      rewrite Hlength; [|rewrite Hnewlines]; lia.
  - apply (proj1 (proj2 (proj1 analyzeContentType_density float _ _))).
    intros Hatomic.
    apply (proj1 (proj1 analyzeContentType_density float _ _)) in Hatomic.
    destruct Hatomic as [_ Hdensity]. vm_compute in Hdensity. discriminate.
  - apply (proj2 (proj2 (proj1 analyzeContentType_density float _ ""))).
    reflexivity.
Defined.

(** ** The program run in binary64 *)

(** The two decimal constants are the doubles the literals denote. *)
Example thresholds_binary64 :
  @NEWLINE_DENSITY_THRESHOLD float _ = 0x1.eb851eb851eb8p-6%float
  /\ @RELEVANCE_FLOOR float _ = 0x1.47ae147ae147bp-7%float.
Proof. split; vm_compute; reflexivity. Qed.

Example tokenize_example :
  tokenize "Cat, DOG!  it's a_b	9" = ["cat"; "dog"; "its"; "a_b"; "9"]
  /\ splitWhitespace "  a b " = [""; "a"; "b"; ""]
  /\ tokenize "" = [].
Proof. repeat split. Qed.

Example getChunkId_example :
  getChunkId (mkChunk "notes.txt" 12 "x" None) = "notes.txt_12".
Proof. reflexivity. Qed.

(** Three newlines in a hundred code units are not above the threshold
    (the quotient is the double of the literal [0.03] itself), four are. *)
Example analyzeContentType_example :
  @analyzeContentType float _
     (string_of_list_ascii (repeat "a"%char 97 ++ repeat newline 3))
  = narrative
  /\ @analyzeContentType float _
       (string_of_list_ascii (repeat "a"%char 96 ++ repeat newline 4))
     = atomic
  /\ @analyzeContentType float _ "one line of prose" = narrative.
Proof. repeat split; vm_compute; reflexivity. Qed.

Example intelligentChunking_example :
  @intelligentChunking float _ "AAAA" "notes.txt"
  = ([mkChunk "notes.txt" 0 "AAAA" (Some narrative)], narrative).
Proof. vm_compute. reflexivity. Qed.

(** Retrieval on the example: an unknown word finds nothing, [cat] finds
    the first chunk alone, [dog] scores both chunks alike and keeps the
    corpus order, [bird dog] puts the second chunk first. *)
Example findRelevantChunks_example :
  findRelevantChunks kbExample "fish" = []
  /\ findRelevantChunks kbExample "cat" = [chunkA]
  /\ findRelevantChunks kbExample "dog" = [chunkA; chunkB]
  /\ findRelevantChunks kbExample "bird dog" = [chunkB; chunkA]
  /\ findRelevantChunks (@emptyKB float) "cat" = [].
Proof. repeat split; vm_compute; reflexivity. Qed.

(** ** The index after a change of the corpus *)

(** The binary64 states [kbSevenWords] and [kbTwoUploads] are the states
    after the uploads, for every [Math.log] that returns [+0] at [1], as
    the standard requires: when every term occurs in every chunk, the only
    logarithm the effect takes is [Math.log(1)]. *)
Section Binary64Uploads.

Variable floatLog : JsLog float.
Hypothesis log_one : Math_log (num_lit 1 1 : float) = num_zero.

Lemma idf_shared_term (n : nat) :
  (num_of_nat (n + 1) / num_of_nat (n + 1))%js = (num_lit 1 1 : float) ->
  idfFormula n n = (num_lit 1 1 : float).
Proof.
  intros Hone. unfold idfFormula. rewrite Hone, log_one.
  vm_compute. reflexivity.
Qed.

Lemma calculateIdf_seven_words :
  calculateIdf [sevenWords] = onesTable ["a"; "b"; "c"; "d"; "e"; "f"; "g"].
Proof.
  unfold calculateIdf. cbn [List.length Nat.eqb].
  replace (docFrequencyOf [sevenWords])
    with [("a", 1); ("b", 1); ("c", 1); ("d", 1); ("e", 1); ("f", 1); ("g", 1)]
    by (vm_compute; reflexivity).
  unfold onesTable. cbn -[idfFormula num_lit].
  rewrite (idf_shared_term 1) by (vm_compute; reflexivity). reflexivity.
Qed.

Lemma calculateIdf_two_uploads :
  calculateIdf [uploadA; uploadB] = onesTable ["a"; "b"; "c"].
Proof.
  unfold calculateIdf. cbn [List.length Nat.eqb].
  replace (docFrequencyOf [uploadA; uploadB])
    with [("a", 2); ("b", 2); ("c", 2)] by (vm_compute; reflexivity).
  unfold onesTable. cbn -[idfFormula num_lit].
  rewrite (idf_shared_term 2) by (vm_compute; reflexivity). reflexivity.
Qed.

Lemma ingest_seven_words :
  ingest "doc.txt" "text/plain" 13 "a b c d e f g" emptyKB
  = Returned kbSevenWords.
Proof.
  unfold ingest.
  replace (addDocumentToKnowledgeBase "doc.txt" "text/plain" 13
             "a b c d e f g" (@emptyKB float))
    with (Returned (mkKB [mkDocument "doc.txt" "text/plain" 13] [sevenWords]
                         ([] : Map float) []))
    by (vm_compute; reflexivity).
  unfold reindex. cbn [chunks documents List.length Nat.eqb].
  rewrite calculateIdf_seven_words. reflexivity.
Qed.

Lemma ingest_second_upload (idf : Map float) (vectors : Map (Map float)) :
  ingest "b.txt" "text/plain" 9 "a c b b b"
         (mkKB [mkDocument "a.txt" "text/plain" 9] [uploadA] idf vectors)
  = Returned kbTwoUploads.
Proof.
  unfold ingest.
  replace (addDocumentToKnowledgeBase "b.txt" "text/plain" 9 "a c b b b"
             (mkKB [mkDocument "a.txt" "text/plain" 9] [uploadA] idf vectors))
    with (Returned (mkKB [mkDocument "a.txt" "text/plain" 9;
                          mkDocument "b.txt" "text/plain" 9]
                         [uploadA; uploadB] idf vectors))
    by (vm_compute; reflexivity).
  unfold reindex. cbn [chunks documents List.length Nat.eqb].
  rewrite calculateIdf_two_uploads. reflexivity.
Qed.

Lemma ingest_two_uploads :
  exists kb1 : KnowledgeBase float,
    ingest "a.txt" "text/plain" 9 "a b b b c" emptyKB = Returned kb1
    /\ ingest "b.txt" "text/plain" 9 "a c b b b" kb1 = Returned kbTwoUploads.
Proof.
  eexists. split; [reflexivity|]. apply ingest_second_upload.
Qed.

End Binary64Uploads.

(** The effect leaves an IDF table computed from the current chunks, and a
    vector under the id of every chunk. *)
Lemma reindex_derived {num} `{JsNumber num} `{JsLog num} (kb : KnowledgeBase num) :
  chunks (reindex kb) = chunks kb
  /\ documents (reindex kb) = documents kb
  /\ idfMap (reindex kb) = calculateIdf (chunks kb)
  /\ (forall c, In c (chunks kb) ->
               Map_has (chunkTfidfVectors (reindex kb)) (getChunkId c) = true).
Proof.
  unfold reindex. destruct (chunks kb) as [|c0 rest] eqn:Hchunks.
  - cbn. repeat split; try assumption. intros c [].
  - cbn [List.length Nat.eqb chunks documents idfMap chunkTfidfVectors].
    repeat split; try reflexivity.
    set (idf := calculateIdf (c0 :: rest)).
    assert (Hgen : forall (l : list Chunk) (acc : Map (Map num)) c,
               In c l \/ Map_has acc (getChunkId c) = true ->
               Map_has
                 (fold_left
                    (fun vectors chunk =>
                       Map_set vectors (getChunkId chunk)
                               (vectorizeWithTfidf (text chunk) idf)) l acc)
                 (getChunkId c) = true).
    { induction l as [|x l IH]; intros acc c Hc; cbn [fold_left].
      - destruct Hc as [[] | Hc]. exact Hc.
      - apply IH. destruct Hc as [[-> | Hc] | Hc]; [right | now left | right].
        + unfold Map_has. now rewrite Map_get_set, String.eqb_refl.
        + unfold Map_has in *. rewrite Map_get_set.
          now destruct (String.eqb (getChunkId c) (getChunkId x)). }
    intros c Hc. apply Hgen. now left.
Qed.

(** After [clear] and the effect, retrieval finds nothing. *)
Lemma findRelevantChunks_after_clear {num} `{JsNumber num} `{JsLog num}
    (kb : KnowledgeBase num) (query : string) :
  findRelevantChunks (reindex (clearKnowledgeBase kb)) query = [].
Proof. reflexivity. Qed.

(** * Further properties of the code *)

(** ** The chunks of one document *)

Lemma string_length_substring (s : string) (n m : nat) :
  String.length (String.substring n m s) = Nat.min m (String.length s - n).
Proof.
  rewrite <- !list_of_length, list_of_substring, length_firstn, length_skipn.
  reflexivity.
Qed.

Lemma slidingWindow_nth
    (config : ChunkConfig) (contentType : ContentType)
    (content sourceName : string) (i : nat) (c : Chunk) :
  cfg_overlap config < cfg_size config ->
  nth_error (slidingWindow config contentType content sourceName) i = Some c ->
  c = windowAt config contentType content sourceName
        (i * (cfg_size config - cfg_overlap config)) i
  /\ i * (cfg_size config - cfg_overlap config) < String.length content.
Proof.
  intros Hadv Hnth. unfold slidingWindow in Hnth.
  destruct (chunkLoop_fuel config contentType content sourceName
              (String.length content) Hadv 0 0) as [n [Heq Hn]]; [lia|].
  rewrite Heq, nth_error_map, nth_error_seq in Hnth.
  destruct (Nat.ltb i n) eqn:Hi; [|discriminate].
  apply Nat.ltb_lt in Hi. cbn in Hnth. injection Hnth as <-.
  split; [reflexivity|]. apply Hn in Hi. exact Hi.
Qed.

Lemma slidingWindow_length
    (config : ChunkConfig) (contentType : ContentType)
    (content sourceName : string) :
  cfg_overlap config < cfg_size config ->
  List.length (slidingWindow config contentType content sourceName)
  = ceilDiv (String.length content) (cfg_size config - cfg_overlap config).
Proof.
  intros Hadv. unfold slidingWindow, ceilDiv.
  destruct (chunkLoop_fuel config contentType content sourceName
              (String.length content) Hadv 0 0) as [n [Heq Hn]]; [lia|].
  rewrite Heq, length_map, length_seq.
  set (step := cfg_size config - cfg_overlap config) in *.
  set (len := String.length content) in *.
  assert (Hstep : 0 < step) by (unfold step; lia).
  assert (Hupper : len <= n * step).
  { destruct (Nat.le_gt_cases len (n * step)) as [Hle | Hgt]; [exact Hle|].
    assert (n < n) by (apply Hn; lia). lia. }
  assert (Hlower : n = 0 \/ (n - 1) * step < len).
  { destruct n as [|m]; [now left | right].
    assert (m < S m) as Hm by lia. apply Hn in Hm.
    replace (S m - 1) with m by lia. lia. }
  apply Nat.div_unique with (r := len + step - 1 - step * n).
  - destruct Hlower as [-> | Hlower]; [lia|].
    destruct n as [|m]; [lia|]. replace (S m - 1) with m in Hlower by lia.
    nia.
  - destruct Hlower as [-> | Hlower]; [lia|].
    destruct n as [|m]; [lia|]. replace (S m - 1) with m in Hlower by lia.
    nia.
Qed.

(** X1.  Every chunk [intelligentChunking] returns carries the name of its
    document, its own position as [chunkIndex] and the detected content
    type; its text is not empty and has at most [size] code units (800 for
    narrative text, 400 for atomic text). *)
Theorem intelligentChunking_chunk_shape :
  forall num (N : JsNumber num) (content sourceName : string)
         (i : nat) (c : Chunk),
    nth_error (fst (intelligentChunking content sourceName)) i = Some c ->
    source c = sourceName
    /\ chunkIndex c = i
    /\ metadata c = Some (snd (intelligentChunking content sourceName))
    /\ 0 < String.length (text c)
    /\ String.length (text c)
       <= match snd (intelligentChunking content sourceName) with
          | narrative => 800
          | atomic => 400
          end.
Proof.
  intros num N content sourceName i c Hnth.
  destruct (intelligentChunking_window content sourceName) as [Heq Hadv].
  cbn zeta in Heq, Hadv. rewrite Heq in *. cbn [fst snd] in *.
  apply slidingWindow_nth in Hnth as [-> Hin]; [|exact Hadv].
  unfold windowAt. cbn [source chunkIndex metadata text].
  repeat split; try reflexivity.
  - unfold js_substring. rewrite string_length_substring.
    destruct (analyzeContentType content); cbn in *; lia.
  - unfold js_substring. rewrite string_length_substring.
    destruct (analyzeContentType content); cbn in *; lia.
Qed.

Lemma intelligentChunking_chunk_shape_witness :
  source (mkChunk "notes.txt" 0 "AAAA" (Some narrative)) = "notes.txt"
  /\ chunkIndex (mkChunk "notes.txt" 0 "AAAA" (Some narrative)) = 0
  /\ metadata (mkChunk "notes.txt" 0 "AAAA" (Some narrative))
     = Some (snd (@intelligentChunking float _ "AAAA" "notes.txt"))
  /\ 0 < String.length (text (mkChunk "notes.txt" 0 "AAAA" (Some narrative)))
  /\ String.length (text (mkChunk "notes.txt" 0 "AAAA" (Some narrative)))
     <= match snd (@intelligentChunking float _ "AAAA" "notes.txt") with
        | narrative => 800
        | atomic => 400
        end.
Proof.
  apply (intelligentChunking_chunk_shape float _ "AAAA" "notes.txt" 0).
  vm_compute. reflexivity.
Defined.

(** X2.  [intelligentChunking] returns [ceil(length / 720)] chunks for
    narrative text and [ceil(length / 360)] chunks for atomic text: none for
    the empty text, one for a narrative text of up to 720 code units. *)
Theorem intelligentChunking_count :
  forall num (N : JsNumber num) (content sourceName : string),
    List.length (fst (intelligentChunking content sourceName))
    = match snd (intelligentChunking content sourceName) with
      | narrative => ceilDiv (String.length content) 720
      | atomic => ceilDiv (String.length content) 360
      end.
Proof.
  intros num N content sourceName.
  destruct (intelligentChunking_window content sourceName) as [Heq Hadv].
  cbn zeta in Heq, Hadv. rewrite Heq. cbn [fst snd].
  rewrite slidingWindow_length by exact Hadv.
  destruct (analyzeContentType content); reflexivity.
Qed.

Lemma slidingWindow_overlap
    (config : ChunkConfig) (contentType : ContentType)
    (content sourceName : string) (i : nat) (a b : Chunk) :
  cfg_overlap config < cfg_size config ->
  nth_error (slidingWindow config contentType content sourceName) i = Some a ->
  nth_error (slidingWindow config contentType content sourceName) (S i) = Some b ->
  String.prefix (dropPrefix (cfg_size config - cfg_overlap config) (text a))
                (text b) = true
  /\ String.length (dropPrefix (cfg_size config - cfg_overlap config) (text a))
     = Nat.min (cfg_overlap config) (String.length (text b)).
Proof.
  intros Hadv Ha Hb.
  apply slidingWindow_nth in Ha as [-> Hina]; [|exact Hadv].
  apply slidingWindow_nth in Hb as [-> Hinb]; [|exact Hadv].
  unfold windowAt. cbn [text].
  set (size := cfg_size config) in *. set (overlap := cfg_overlap config) in *.
  set (step := size - overlap) in *.
  set (len := String.length content) in *.
  replace (S i * step) with (i * step + step) in * by lia.
  set (start := i * step) in *.
  assert (Hdropped :
            list_ascii_of_string
              (dropPrefix step
                 (js_substring content start (Nat.min (start + size) len)))
            = firstn (Nat.min (start + size) len - (start + step))
                     (skipn (start + step) (list_ascii_of_string content))).
  { apply list_of_dropped_slice; fold len; lia. }
  assert (HL : List.length (list_ascii_of_string content) = len)
    by apply list_of_length.
  assert (Hlen : String.length
                   (dropPrefix step
                      (js_substring content start (Nat.min (start + size) len)))
                 = Nat.min (start + size) len - (start + step)).
  { rewrite <- list_of_length, Hdropped, length_firstn, length_skipn. lia. }
  split.
  - apply prefix_correct. apply list_of_string_inj.
    rewrite list_of_substring, Hlen, Hdropped. cbn [skipn].
    unfold js_substring. rewrite list_of_substring, firstn_firstn.
    f_equal. lia.
  - rewrite Hlen. unfold js_substring. rewrite string_length_substring.
    fold len. lia.
Qed.

(** X3.  Two consecutive chunks of a document overlap: what is left of a
    chunk after its first [size - overlap] code units (720 or 360) is the
    beginning of the next chunk, and it has [overlap] code units (80 or 40),
    or all of the next chunk when that one is shorter. *)
Theorem intelligentChunking_overlap :
  forall num (N : JsNumber num) (content sourceName : string)
         (i : nat) (a b : Chunk),
    nth_error (fst (intelligentChunking content sourceName)) i = Some a ->
    nth_error (fst (intelligentChunking content sourceName)) (S i) = Some b ->
    let step := match snd (intelligentChunking content sourceName) with
                | narrative => 720 | atomic => 360 end in
    let overlap := match snd (intelligentChunking content sourceName) with
                   | narrative => 80 | atomic => 40 end in
    String.prefix (dropPrefix step (text a)) (text b) = true
    /\ String.length (dropPrefix step (text a))
       = Nat.min overlap (String.length (text b)).
Proof.
  intros num N content sourceName i a b Ha Hb.
  destruct (intelligentChunking_window content sourceName) as [Heq Hadv].
  cbn zeta in Heq, Hadv. rewrite Heq in *. cbn [fst snd] in *.
  pose proof (slidingWindow_overlap _ _ _ _ _ _ _ Hadv Ha Hb) as Hov.
  destruct (analyzeContentType content); exact Hov.
Qed.

Lemma intelligentChunking_overlap_witness :
  let content := string_of_list_ascii (repeat "a"%char 800 ++ repeat "b"%char 100) in
  let chunks := fst (@intelligentChunking float _ content "notes.txt") in
  exists a b,
    nth_error chunks 0 = Some a /\ nth_error chunks 1 = Some b
    /\ String.prefix (dropPrefix 720 (text a)) (text b) = true
    /\ String.length (dropPrefix 720 (text a))
       = Nat.min 80 (String.length (text b)).
Proof.
  cbv zeta.
  set (content := string_of_list_ascii (repeat "a"%char 800 ++ repeat "b"%char 100)).
  destruct (nth_error (fst (@intelligentChunking float _ content "notes.txt")) 0)
    as [a|] eqn:Ha; [|vm_compute in Ha; discriminate].
  destruct (nth_error (fst (@intelligentChunking float _ content "notes.txt")) 1)
    as [b|] eqn:Hb; [|vm_compute in Hb; discriminate].
  exists a, b. split; [reflexivity|]. split; [reflexivity|].
  assert (Hct : snd (@intelligentChunking float _ content "notes.txt") = narrative)
    by (vm_compute; reflexivity).
  pose proof (intelligentChunking_overlap float _ content "notes.txt" 0 a b Ha Hb)
    as Hov.
  cbv zeta in Hov. rewrite Hct in Hov. exact Hov.
Defined.

(** ** The tokenizer *)

Lemma lowerChar_not_upper (c : ascii) : between 65 90 (lowerChar c) = false.
Proof. destruct c as [[] [] [] [] [] [] [] []]; reflexivity. Qed.

Lemma lowerChar_space (c : ascii) : isSpaceChar (lowerChar c) = isSpaceChar c.
Proof. destruct c as [[] [] [] [] [] [] [] []]; reflexivity. Qed.

Lemma lowerChar_token (c : ascii) : isTokenChar c = true -> lowerChar c = c.
Proof. destruct c as [[] [] [] [] [] [] [] []]; intros H; try reflexivity; discriminate. Qed.

Lemma tokenChar_word (c : ascii) : isTokenChar c = true -> isWordChar c = true.
Proof. destruct c as [[] [] [] [] [] [] [] []]; intros H; try reflexivity; discriminate. Qed.

Lemma tokenChar_not_space (c : ascii) : isTokenChar c = true -> isSpaceChar c = false.
Proof. destruct c as [[] [] [] [] [] [] [] []]; intros H; try reflexivity; discriminate. Qed.

Lemma kept_lower_is_token (c : ascii) :
  isWordChar c || isSpaceChar c = true ->
  between 65 90 c = false ->
  isSpaceChar c = false ->
  isTokenChar c = true.
Proof.
  destruct c as [[] [] [] [] [] [] [] []]; intros H1 H2 H3;
    try reflexivity; discriminate.
Qed.

Lemma list_of_string_map (f : ascii -> ascii) (s : string) :
  list_ascii_of_string (string_map f s) = map f (list_ascii_of_string s).
Proof. induction s as [|c s IH]; cbn; [reflexivity | now rewrite IH]. Qed.

Lemma list_of_string_filter (p : ascii -> bool) (s : string) :
  list_ascii_of_string (string_filter p s) = filter p (list_ascii_of_string s).
Proof.
  induction s as [|c s IH]; cbn; [reflexivity|].
  destruct (p c); cbn; now rewrite IH.
Qed.

Lemma string_map_app (f : ascii -> ascii) (s1 s2 : string) :
  string_map f (s1 ++ s2) = (string_map f s1 ++ string_map f s2)%string.
Proof. induction s1 as [|c s1 IH]; cbn; [reflexivity | now rewrite IH]. Qed.

Lemma string_filter_app (p : ascii -> bool) (s1 s2 : string) :
  string_filter p (s1 ++ s2)
  = (string_filter p s1 ++ string_filter p s2)%string.
Proof.
  induction s1 as [|c s1 IH]; cbn; [reflexivity|].
  destruct (p c); cbn; now rewrite IH.
Qed.

Lemma string_forallb_snoc (q : ascii -> bool) (s : string) (c : ascii) :
  string_forallb q (s ++ String c EmptyString) = string_forallb q s && q c.
Proof.
  unfold string_forallb. rewrite list_of_append, forallb_app. cbn.
  now rewrite andb_true_r.
Qed.

(** The pieces [split] cuts are made of the code units of the string that
    are not white space. *)
Lemma splitLoop_pieces (q : ascii -> bool) (s : string) :
  (forall c, In c (list_ascii_of_string s) ->
             isSpaceChar c = false -> q c = true) ->
  forall cur inRun,
    string_forallb q cur = true ->
    Forall (fun piece => string_forallb q piece = true) (splitLoop s cur inRun).
Proof.
  induction s as [|c s IH]; intros Hq cur inRun Hcur; cbn [splitLoop].
  - repeat constructor. exact Hcur.
  - assert (Hrest : forall c', In c' (list_ascii_of_string s) ->
                               isSpaceChar c' = false -> q c' = true).
    { intros c' Hin. apply Hq. cbn. now right. }
    destruct (isSpaceChar c) eqn:Hsp.
    + destruct inRun.
      * now apply IH.
      * constructor; [exact Hcur|]. now apply IH.
    + apply IH; [exact Hrest|].
      rewrite string_forallb_snoc, Hcur. cbn. apply Hq; [cbn; now left | exact Hsp].
Qed.

Lemma tokens_are_clean (content : string) :
  Forall (fun token =>
            token <> EmptyString /\ string_forallb isTokenChar token = true)
         (tokenize content).
Proof.
  revert content.
  intros content. unfold tokenize. apply Forall_forall. intros token Hin.
  apply filter_In in Hin as [Hin Hne]. split.
  - intros ->. discriminate.
  - revert token Hin Hne. 
    assert (Hall : Forall (fun piece => string_forallb isTokenChar piece = true)
                          (splitWhitespace (removePunctuation (toLowerCase content)))).
    { apply splitLoop_pieces; [|reflexivity].
      intros c Hc Hsp. unfold removePunctuation in Hc.
      rewrite list_of_string_filter in Hc. apply filter_In in Hc as [Hc Hkept].
      unfold toLowerCase in Hc. rewrite list_of_string_map in Hc.
      apply in_map_iff in Hc as [c0 [<- _]].
      apply kept_lower_is_token;
        [exact Hkept | apply lowerChar_not_upper | exact Hsp]. }
    rewrite Forall_forall in Hall. intros token Hin _. now apply Hall.
Qed.

(** X4.  Every token is a non-empty string over [[a-z0-9_]]: no upper-case
    letter, no white space, no punctuation survives [tokenize]. *)
Theorem tokenize_tokens_clean :
  forall content : string,
    Forall (fun token =>
              token <> EmptyString /\ string_forallb isTokenChar token = true)
           (tokenize content).
Proof. exact tokens_are_clean. Qed.

Lemma splitLoop_flag (s : string) :
  filter (fun word => Nat.ltb 0 (String.length word))
         (splitLoop s EmptyString true)
  = filter (fun word => Nat.ltb 0 (String.length word))
           (splitLoop s EmptyString false).
Proof.
  destruct s as [|c s]; [reflexivity|]. cbn [splitLoop].
  destruct (isSpaceChar c); reflexivity.
Qed.

(** The words of a string, a white-space code unit, and another string are
    the words of the first followed by the words of the second. *)
Lemma splitLoop_app (x y : string) (w : ascii) :
  isSpaceChar w = true ->
  forall cur inRun,
    (inRun = true -> cur = EmptyString) ->
    filter (fun word => Nat.ltb 0 (String.length word))
           (splitLoop (x ++ String w y) cur inRun)
    = filter (fun word => Nat.ltb 0 (String.length word))
             (splitLoop x cur inRun)
      ++ filter (fun word => Nat.ltb 0 (String.length word))
                (splitLoop y EmptyString false).
Proof.
  intros Hw. induction x as [|c x IH]; intros cur inRun Hinv.
  - cbn [String.append splitLoop]. rewrite Hw. destruct inRun.
    + rewrite (Hinv eq_refl). cbn [filter String.length Nat.ltb Nat.leb].
      apply splitLoop_flag.
    + cbn [filter]. rewrite splitLoop_flag.
      destruct (Nat.ltb 0 (String.length cur)); reflexivity.
  - cbn [String.append splitLoop]. destruct (isSpaceChar c).
    + destruct inRun.
      * apply IH. intros _. now apply Hinv.
      * cbn [filter]. rewrite IH by reflexivity.
        destruct (Nat.ltb 0 (String.length cur)); reflexivity.
    + apply IH. discriminate.
Qed.

Lemma tokenize_app (a b : string) (w : ascii) :
  isSpaceChar w = true ->
  tokenize (a ++ String w b) = tokenize a ++ tokenize b.
Proof.
  intros Hw. unfold tokenize, toLowerCase, removePunctuation, splitWhitespace.
  rewrite string_map_app. cbn [string_map].
  rewrite string_filter_app. cbn [string_filter].
  rewrite lowerChar_space, Hw, orb_true_r.
  apply splitLoop_app; [|discriminate].
  now rewrite lowerChar_space.
Qed.

(** X5.  Joining two texts with a space concatenates their token lists in
    order: a token never straddles the space, and no token is dropped. *)
Theorem tokenize_join_two :
  forall a b : string,
    tokenize (a ++ " " ++ b) = tokenize a ++ tokenize b.
Proof.
  intros a b. apply (tokenize_app a b " "%char). reflexivity.
Qed.

Lemma tokenize_concat (l : list string) :
  tokenize (String.concat " " l) = List.concat (map tokenize l).
Proof.
  induction l as [|x [|y l] IH].
  - reflexivity.
  - cbn. now rewrite app_nil_r.
  - change (String.concat " " (x :: y :: l))
      with (x ++ String " " (String.concat " " (y :: l)))%string.
    rewrite tokenize_app by reflexivity. rewrite IH. reflexivity.
Qed.

Lemma string_app_nil_r (s : string) : (s ++ "")%string = s.
Proof. induction s as [|c s IH]; cbn; [reflexivity | now rewrite IH]. Qed.

Lemma string_app_snoc (s t : string) (c : ascii) :
  ((s ++ String c EmptyString) ++ t)%string = (s ++ String c t)%string.
Proof. induction s as [|d s IH]; cbn; [reflexivity | now rewrite IH]. Qed.

Lemma splitLoop_no_space (s : string) :
  string_forallb (fun c => negb (isSpaceChar c)) s = true ->
  forall cur, splitLoop s cur false = [(cur ++ s)%string].
Proof.
  unfold string_forallb.
  induction s as [|c s IH]; cbn [splitLoop list_ascii_of_string forallb];
    intros Hs cur.
  - now rewrite string_app_nil_r.
  - apply andb_true_iff in Hs as [Hc Hs]. apply negb_true_iff in Hc.
    rewrite Hc, IH by exact Hs. now rewrite string_app_snoc.
Qed.

Lemma string_forallb_impl (p q : ascii -> bool) (s : string) :
  (forall c, p c = true -> q c = true) ->
  string_forallb p s = true -> string_forallb q s = true.
Proof.
  unfold string_forallb. intros Himp Hp.
  rewrite forallb_forall in *. intros c Hc. apply Himp, Hp, Hc.
Qed.

Lemma string_map_id (f : ascii -> ascii) (s : string) :
  string_forallb (fun c => Ascii.eqb (f c) c) s = true -> string_map f s = s.
Proof.
  unfold string_forallb.
  induction s as [|c s IH]; cbn; [reflexivity|]. intros Hs.
  apply andb_true_iff in Hs as [Hc Hs]. apply Ascii.eqb_eq in Hc.
  now rewrite Hc, IH.
Qed.

Lemma string_filter_id (p : ascii -> bool) (s : string) :
  string_forallb p s = true -> string_filter p s = s.
Proof.
  unfold string_forallb.
  induction s as [|c s IH]; cbn; [reflexivity|]. intros Hs.
  apply andb_true_iff in Hs as [Hc Hs]. now rewrite Hc, IH.
Qed.

(** A clean token is its own only token. *)
Lemma tokenize_token (token : string) :
  token <> EmptyString ->
  string_forallb isTokenChar token = true ->
  tokenize token = [token].
Proof.
  intros Hne Hclean. unfold tokenize, toLowerCase, removePunctuation,
    splitWhitespace.
  rewrite string_map_id.
  2:{ apply (string_forallb_impl isTokenChar); [|exact Hclean].
      intros c Hc. apply Ascii.eqb_eq. now apply lowerChar_token. }
  rewrite string_filter_id.
  2:{ apply (string_forallb_impl isTokenChar); [|exact Hclean].
      intros c Hc. now rewrite tokenChar_word. }
  rewrite splitLoop_no_space.
  2:{ apply (string_forallb_impl isTokenChar); [|exact Hclean].
      intros c Hc. now rewrite tokenChar_not_space. }
  cbn [String.append filter].
  destruct token; [contradiction | reflexivity].
Qed.

(** X6.  Tokenizing is stable: the tokens of a text, joined with spaces and
    tokenized again, are the same tokens in the same order. *)
Theorem tokenize_stable :
  forall content : string,
    tokenize (String.concat " " (tokenize content)) = tokenize content.
Proof.
  intros content. rewrite tokenize_concat.
  pose proof (tokens_are_clean content) as Hclean.
  induction Hclean as [|token l [Hne Htok] _ IH]; [reflexivity|].
  cbn [map List.concat]. rewrite IH, tokenize_token by assumption.
  reflexivity.
Qed.

(** X7.  The retrieval query of [handleSendMessage], the user's query
    joined with the expanded queries, has the tokens of the query followed
    by the tokens of each expansion in turn; with no expansion it has the
    tokens of the query alone. *)
Theorem retrievalQuery_tokens :
  forall (query : string) (expandedQueries : list string),
    tokenize (retrievalQuery query expandedQueries)
    = tokenize query ++ List.concat (map tokenize expandedQueries).
Proof.
  intros query expandedQueries. unfold retrievalQuery.
  rewrite tokenize_concat. reflexivity.
Qed.

(** ** The IDF table *)

Lemma documentFrequency_le (term : string) (corpus : list Chunk) :
  documentFrequency term corpus <= List.length corpus.
Proof. unfold documentFrequency. apply filter_length_le. Qed.

Lemma documentFrequency_perm (term : string) (corpus corpus' : list Chunk) :
  Permutation corpus corpus' ->
  documentFrequency term corpus = documentFrequency term corpus'.
Proof.
  unfold documentFrequency. induction 1 as [| c l l' _ IH | a b l | l1 l2 l3 _ IH1 _ IH2].
  - reflexivity.
  - cbn [filter]. destruct (containsTerm term c); cbn; now rewrite IH.
  - cbn [filter].
    destruct (containsTerm term a), (containsTerm term b); reflexivity.
  - now rewrite IH1.
Qed.

(** The worked example again, for the statements below. *)
Lemma idf_of_example :
  Map_get (@calculateIdf R _ _ [chunkA; chunkB]) "dog" = Some 1%R
  /\ Map_get (@calculateIdf R _ _ [chunkA; chunkB]) "cat"
     = Some (ln (3 / 2) + 1)%R.
Proof.
  split; rewrite calculateIdf_get.
  - replace (documentFrequency "dog" [chunkA; chunkB]) with 2
      by (vm_compute; reflexivity).
    cbn [Nat.eqb List.length]. unfold idfFormula, num_one, Math_log, RealLog.
    cbn [num_add num_div num_of_nat RealNumber Nat.add INR].
    f_equal. replace ((1 + 1 + 1) / (1 + 1 + 1))%R with 1%R by lra.
    rewrite ln_1. lra.
  - replace (documentFrequency "cat" [chunkA; chunkB]) with 1
      by (vm_compute; reflexivity).
    cbn [Nat.eqb List.length]. unfold idfFormula, num_one, Math_log, RealLog.
    cbn [num_add num_div num_of_nat RealNumber Nat.add INR].
    f_equal. replace ((1 + 1 + 1) / (1 + 1))%R with (3 / 2)%R by lra.
    reflexivity.
Qed.

Lemma ln_nonneg (x : R) : (1 <= x)%R -> (0 <= ln x)%R.
Proof.
  intros [Hlt | <-]; [|rewrite ln_1; lra].
  left. rewrite <- ln_1. apply ln_increasing; lra.
Qed.

Lemma idf_value_bounds (corpus : list Chunk) (term : string) (idf : R) :
  Map_get (@calculateIdf R _ _ corpus) term = Some idf ->
  (1 <= idf <= ln (INR (List.length corpus + 1) / 2) + 1)%R
  /\ (documentFrequency term corpus = List.length corpus -> idf = 1%R).
Proof.
  intros Hget. rewrite calculateIdf_get in Hget.
  destruct (Nat.eqb (documentFrequency term corpus) 0) eqn:Hdf; [discriminate|].
  apply Nat.eqb_neq in Hdf. injection Hget as <-. unfold Math_log, RealLog.
  pose proof (documentFrequency_le term corpus) as Hle.
  set (df := documentFrequency term corpus) in *.
  set (n := List.length corpus) in *.
  assert (Hdf1 : (2 <= INR (df + 1))%R).
  { replace 2%R with (INR 2) by (cbn; lra). apply le_INR. lia. }
  assert (Hn : (INR (df + 1) <= INR (n + 1))%R) by (apply le_INR; lia).
  assert (Hq1 : (1 <= INR (n + 1) / INR (df + 1))%R).
  { apply Rmult_le_reg_r with (INR (df + 1)); [lra|].
    unfold Rdiv. rewrite Rmult_assoc, Rinv_l by lra. lra. }
  assert (Hq2 : (INR (n + 1) / INR (df + 1) <= INR (n + 1) / 2)%R).
  { unfold Rdiv. apply Rmult_le_compat_l; [lra|].
    apply Rinv_le_contravar; lra. }
  split; [split|].
  - pose proof (ln_nonneg _ Hq1). lra.
  - destruct Hq2 as [Hlt | Heq].
    + assert (ln (INR (n + 1) / INR (df + 1)) < ln (INR (n + 1) / 2))%R
        by (apply ln_increasing; lra).
      lra.
    + rewrite Heq. lra.
  - intros Hall. rewrite Hall.
    unfold Rdiv. rewrite Rinv_r by lra. rewrite ln_1. lra.
Qed.

(** X8.  In exact arithmetic every IDF value is at least 1 and at most
    [ln((N + 1) / 2) + 1], where [N] is the number of chunks; a term that
    occurs in every chunk has the value 1 exactly. *)
Theorem calculateIdf_range :
  forall (corpus : list Chunk) (term : string) (idf : R),
    Map_get (@calculateIdf R _ _ corpus) term = Some idf ->
    (1 <= idf <= ln (INR (List.length corpus + 1) / 2) + 1)%R
    /\ (documentFrequency term corpus = List.length corpus -> idf = 1%R).
Proof.
  exact idf_value_bounds.
Qed.

Lemma calculateIdf_range_witness :
  (1 <= 1 <= ln (INR (List.length [chunkA; chunkB] + 1) / 2) + 1)%R
  /\ (documentFrequency "dog" [chunkA; chunkB]
      = List.length [chunkA; chunkB] -> 1%R = 1%R).
Proof.
  apply (calculateIdf_range [chunkA; chunkB] "dog" 1%R).
  exact (proj1 idf_of_example).
Defined.

(** X9.  In exact arithmetic a rarer term weighs more: of two terms of the
    table, the one found in fewer chunks has the strictly larger IDF. *)
Theorem calculateIdf_rarer_heavier :
  forall (corpus : list Chunk) (rare common : string) (idfRare idfCommon : R),
    Map_get (@calculateIdf R _ _ corpus) rare = Some idfRare ->
    Map_get (@calculateIdf R _ _ corpus) common = Some idfCommon ->
    documentFrequency rare corpus < documentFrequency common corpus ->
    (idfCommon < idfRare)%R.
Proof.
  intros corpus rare common idfRare idfCommon Hrare Hcommon Hlt.
  rewrite calculateIdf_get in Hrare, Hcommon.
  destruct (Nat.eqb (documentFrequency rare corpus) 0); [discriminate|].
  destruct (Nat.eqb (documentFrequency common corpus) 0); [discriminate|].
  injection Hrare as <-. injection Hcommon as <-. unfold Math_log, RealLog.
  set (r := documentFrequency rare corpus) in *.
  set (c := documentFrequency common corpus) in *.
  set (n := List.length corpus).
  assert (Hr : (0 < INR (r + 1))%R) by (apply lt_0_INR; lia).
  assert (Hc : (INR (r + 1) < INR (c + 1))%R) by (apply lt_INR; lia).
  assert (Hn : (0 < INR (n + 1))%R) by (apply lt_0_INR; lia).
  enough (ln (INR (n + 1) / INR (c + 1)) < ln (INR (n + 1) / INR (r + 1)))%R
    by lra.
  apply ln_increasing.
  - apply Rdiv_lt_0_compat; lra.
  - unfold Rdiv. apply Rmult_lt_compat_l; [exact Hn|].
    apply Rinv_lt_contravar; [|exact Hc]. apply Rmult_lt_0_compat; lra.
Qed.

Lemma calculateIdf_rarer_heavier_witness : (1 < ln (3 / 2) + 1)%R.
Proof.
  apply (calculateIdf_rarer_heavier [chunkA; chunkB] "cat" "dog").
  - exact (proj2 idf_of_example).
  - exact (proj1 idf_of_example).
  - vm_compute. lia.
Defined.

(** X10.  The IDF table does not depend on the order of the chunks: two
    corpora with the same chunks in different orders give every term the
    same value, in any arithmetic. *)
Theorem calculateIdf_order_independent :
  forall num (N : JsNumber num) (L : JsLog num)
         (corpus corpus' : list Chunk) (term : string),
    Permutation corpus corpus' ->
    Map_get (calculateIdf corpus) term = Map_get (calculateIdf corpus') term.
Proof.
  intros num N L corpus corpus' term Hperm.
  rewrite !calculateIdf_get.
  rewrite (documentFrequency_perm term corpus corpus' Hperm).
  now rewrite (Permutation_length Hperm).
Qed.

Lemma calculateIdf_order_independent_witness :
  Map_get (@calculateIdf R _ _ [chunkA; chunkB]) "cat"
  = Map_get (@calculateIdf R _ _ [chunkB; chunkA]) "cat".
Proof.
  apply (calculateIdf_order_independent R _ _ [chunkA; chunkB] [chunkB; chunkA]).
  apply perm_swap.
Defined.

(** ** Weights and scores in exact arithmetic *)

Lemma calculateIdf_wf {num} `{JsNumber num} `{JsLog num} (corpus : list Chunk) :
  Map_wf (calculateIdf corpus).
Proof.
  unfold calculateIdf. destruct (Nat.eqb (List.length corpus) 0); [constructor|].
  apply Map_fold_set_wf with (f := fun _ df => idfFormula (List.length corpus) df).
  constructor.
Qed.

Lemma vectorize_entry {num} `{JsNumber num}
    (content : string) (idf : Map num) (term : string) (w : num) :
  Map_get (vectorizeWithTfidf content idf) term = Some w ->
  In term (tokenize content)
  /\ w = (num_of_nat (count_occ string_dec (tokenize content) term)
          / num_of_nat (List.length (tokenize content))
          * getOrZero (Map_get idf term))%js.
Proof.
  rewrite vectorize_get. destruct (Nat.eqb _ 0) eqn:Hz; [discriminate|].
  apply Nat.eqb_neq in Hz. intros [= <-]. split; [|reflexivity].
  apply (count_occ_In string_dec). lia.
Qed.

Lemma tf_ratio_positive (tokens : list string) (term : string) :
  In term tokens ->
  (0 < INR (count_occ string_dec tokens term) / INR (List.length tokens))%R.
Proof.
  intros Hin. apply (count_occ_In string_dec) in Hin.
  assert (0 < List.length tokens) by (destruct tokens; [cbn in Hin; lia | cbn; lia]).
  apply Rdiv_lt_0_compat; apply lt_0_INR; lia.
Qed.

Lemma getOrZero_real (o : option R) :
  @getOrZero R _ o = match o with Some x => x | None => 0%R end.
Proof. destruct o; [apply orZero_real | reflexivity]. Qed.

(** X11.  In exact arithmetic, with the IDF table of a corpus, no weight of
    a TF-IDF vector is negative, and the weight of a token is positive
    exactly when the token occurs in the corpus; the tokens the corpus does
    not know weigh [0]. *)
Theorem vectorize_weight_sign :
  forall (corpus : list Chunk) (content term : string) (w : R),
    Map_get (vectorizeWithTfidf content (@calculateIdf R _ _ corpus)) term
    = Some w ->
    (0 <= w)%R
    /\ ((0 < w)%R <-> documentFrequency term corpus <> 0).
Proof.
  intros corpus content term w Hget.
  apply vectorize_entry in Hget as [Hin ->].
  pose proof (tf_ratio_positive _ _ Hin) as Htf.
  rewrite getOrZero_real. cbn [num_mul num_div num_of_nat RealNumber].
  destruct (Map_get (calculateIdf corpus) term) as [idf|] eqn:Hidf.
  - destruct (idf_value_bounds corpus term idf Hidf) as [[Hone _] _].
    rewrite calculateIdf_get in Hidf.
    destruct (Nat.eqb (documentFrequency term corpus) 0) eqn:Hdf; [discriminate|].
    apply Nat.eqb_neq in Hdf.
    assert (0 < INR (count_occ string_dec (tokenize content) term)
                / INR (List.length (tokenize content)) * idf)%R
      by (apply Rmult_lt_0_compat; lra).
    split; [lra | tauto].
  - rewrite calculateIdf_get in Hidf.
    destruct (Nat.eqb (documentFrequency term corpus) 0) eqn:Hdf; [|discriminate].
    apply Nat.eqb_eq in Hdf. rewrite Rmult_0_r. split; [lra|].
    split; [lra | intros; contradiction].
Qed.

Lemma vectorize_weight_sign_witness :
  (0 <= INR 1 / INR 1 * 0)%R
  /\ ((0 < INR 1 / INR 1 * 0)%R <-> documentFrequency "fish" [chunkA] <> 0).
Proof.
  apply (vectorize_weight_sign [chunkA] "fish" "fish").
  rewrite vectorize_get, calculateIdf_get.
  replace (documentFrequency "fish" [chunkA]) with 0 by (vm_compute; reflexivity).
  replace (tokenize "fish") with ["fish"] by (vm_compute; reflexivity).
  reflexivity.
Defined.

(** Where the entries of a map filled by successive [set]s come from. *)
Lemma fold_set_origin {X V} (key : X -> string) (val : X -> V) (l : list X) :
  forall (acc : Map V) k v,
    Map_get (fold_left (fun m x => Map_set m (key x) (val x)) l acc) k = Some v ->
    (exists x, In x l /\ key x = k /\ v = val x) \/ Map_get acc k = Some v.
Proof.
  induction l as [|x l IH]; cbn [fold_left]; intros acc k v Hget.
  - now right.
  - apply IH in Hget as [[y [Hy [Hk Hv]]] | Hget].
    + left. exists y. split; [now right | now split].
    + rewrite Map_get_set in Hget. destruct (String.eqb k (key x)) eqn:Hk.
      * apply String.eqb_eq in Hk. injection Hget as <-.
        left. exists x. split; [now left | now split].
      * now right.
Qed.

(** The last [set] of a key decides its value. *)
Lemma fold_set_last {X V} (key : X -> string) (val : X -> V)
    (l1 l2 : list X) (x : X) (acc : Map V) :
  (forall y, In y l2 -> key y <> key x) ->
  Map_get (fold_left (fun m x => Map_set m (key x) (val x)) (l1 ++ x :: l2) acc)
          (key x)
  = Some (val x).
Proof.
  intros Hlater. rewrite fold_left_app. cbn [fold_left].
  set (m := Map_set _ (key x) (val x)).
  assert (Hm : Map_get m (key x) = Some (val x))
    by (unfold m; now rewrite Map_get_set, String.eqb_refl).
  clearbody m. revert m Hm.
  induction l2 as [|y l2 IH]; cbn [fold_left]; intros m Hm; [exact Hm|].
  apply IH.
  - intros z Hz. apply Hlater. now right.
  - rewrite Map_get_set.
    assert (String.eqb (key x) (key y) = false) as ->; [|exact Hm].
    apply String.eqb_neq. intros Heq. apply (Hlater y); [now left | now symmetry].
Qed.

Lemma vectorize_nonNegative (content : string) (idf : Map R) :
  (forall k v, Map_get idf k = Some v -> (0 <= v)%R) ->
  nonNegative (vectorizeWithTfidf content idf).
Proof.
  intros Hidf. apply Forall_forall. intros [k w] Hin. cbn [snd].
  apply (Map_get_wf _ k w (vectorize_wf content idf)) in Hin.
  apply vectorize_entry in Hin as [Hin ->].
  pose proof (tf_ratio_positive _ _ Hin) as Htf.
  rewrite getOrZero_real. cbn [num_mul num_div num_of_nat RealNumber].
  destruct (Map_get idf k) as [v|] eqn:Hv.
  - apply Rmult_le_pos; [lra | now apply (Hidf k)].
  - lra.
Qed.

Lemma calculateIdf_nonNegative (corpus : list Chunk) (k : string) (v : R) :
  Map_get (@calculateIdf R _ _ corpus) k = Some v -> (0 <= v)%R.
Proof.
  intros Hget. destruct (idf_value_bounds corpus k v Hget) as [[Hone _] _]. lra.
Qed.

(** X12.  In exact arithmetic, once the effect has re-indexed the corpus,
    every score [findRelevantChunks] computes lies between 0 and 1, for
    every corpus, query and chunk: the vectors the index holds and the
    query vector have no negative weight. *)
Theorem reindexed_scores_in_unit_interval :
  forall (kb : KnowledgeBase R) (query : string) (c : Chunk),
    (0 <= scoreChunk (chunkTfidfVectors (reindex kb))
                     (vectorizeWithTfidf query (idfMap (reindex kb))) c
     <= 1)%R.
Proof.
  intros kb query c.
  destruct (reindex_derived kb) as [_ [_ [Hidf _]]]. rewrite Hidf.
  unfold scoreChunk.
  destruct (Map_get (chunkTfidfVectors (reindex kb)) (getChunkId c))
    as [v|] eqn:Hv; [|unfold num_zero; cbn; lra].
  apply cosine_unit_interval.
  - apply vectorize_nonNegative, calculateIdf_nonNegative.
  - unfold reindex in Hv. destruct (Nat.eqb (List.length (chunks kb)) 0).
    + cbn in Hv. discriminate.
    + cbn [chunkTfidfVectors] in Hv.
      apply (fold_set_origin getChunkId
               (fun chunk => vectorizeWithTfidf (text chunk)
                               (calculateIdf (chunks kb)))) in Hv.
      destruct Hv as [[x [_ [_ ->]]] | Hv]; [|discriminate].
      apply vectorize_nonNegative, calculateIdf_nonNegative.
Qed.

Lemma Rsum_zero {A} (f : A -> R) (l : list A) :
  (forall x, In x l -> f x = 0%R) -> Rsum (map f l) = 0%R.
Proof.
  induction l as [|x l IH]; intros Hz; [reflexivity|].
  rewrite map_cons, Rsum_cons, (Hz x) by now left.
  rewrite IH; [lra|]. intros y Hy. apply Hz. now right.
Qed.

Lemma findRelevantChunks_zero_query (kb : KnowledgeBase R) (query : string) :
  magnitude (vectorizeWithTfidf query (idfMap kb)) = 0%R ->
  findRelevantChunks kb query = [].
Proof.
  intros Hzero. unfold findRelevantChunks.
  destruct (indexIsEmpty kb); [reflexivity|].
  unfold rankScored. rewrite filter_none; [reflexivity|].
  intros sc Hsc. apply (proj1 (Array_sort_In _ sc _)) in Hsc.
  apply in_map_iff in Hsc as [c [<- _]]. cbn [score].
  assert (Hscore : scoreChunk (chunkTfidfVectors kb)
                     (vectorizeWithTfidf query (idfMap kb)) c = 0%R).
  { unfold scoreChunk. destruct (Map_get _ _); [|reflexivity].
    apply cosine_zero_case. now left. }
  rewrite Hscore. destruct (num_ltb _ _) eqn:Hpass; [|reflexivity].
  apply floor_real in Hpass. lra.
Qed.

(** X13.  In exact arithmetic a query none of whose tokens is in the IDF
    table retrieves nothing, whatever the index holds; so does a query
    with no token at all (empty, or white space and punctuation only). *)
Theorem findRelevantChunks_unknown_query :
  forall (kb : KnowledgeBase R) (query : string),
    (forall token, In token (tokenize query) ->
                   Map_get (idfMap kb) token = None) ->
    findRelevantChunks kb query = [].
Proof.
  intros kb query Hunknown. apply findRelevantChunks_zero_query.
  unfold magnitude. rewrite sumSquares_real, Rsum_zero; [apply sqrt_0|].
  intros [k w] Hin. cbn [snd].
  apply (Map_get_wf _ k w (vectorize_wf query (idfMap kb))) in Hin.
  apply vectorize_entry in Hin as [Hin ->].
  rewrite (Hunknown k Hin). cbn [getOrZero]. unfold num_zero.
  cbn [num_mul num_div num_of_nat RealNumber INR]. lra.
Qed.

Lemma findRelevantChunks_unknown_query_witness :
  findRelevantChunks
    (mkKB [mkDocument "pets.txt" "text/plain" 7] [chunkA] [("dog", 1%R)]
          [("pets.txt_0", [("dog", 1%R)])])
    "cat!" = [].
Proof.
  apply findRelevantChunks_unknown_query.
  replace (tokenize "cat!") with ["cat"] by (vm_compute; reflexivity).
  intros token [<- | []]. reflexivity.
Defined.

Lemma cosine_disjoint_zero (vecA vecB : Map R) :
  (forall key, In key (Map_keys vecA) -> ~ In key (Map_keys vecB)) ->
  cosineSimilarity vecA vecB = 0%R.
Proof.
  intros Hdisjoint.
  assert (Hdot : dotProductOf vecA vecB = 0%R).
  { rewrite dotProductOf_real. apply Rsum_zero. intros key _.
    rewrite !weightOf_real.
    destruct (Map_get vecA key) as [x|] eqn:HA; [|lra].
    assert (Map_get vecB key = None) as ->; [|lra].
    apply Map_get_None, Hdisjoint.
    apply Map_get_In in HA. apply (in_map fst) in HA. exact HA. }
  destruct (Req_dec_T (magnitude vecA) 0) as [HzA | HnA].
  { apply cosine_zero_case. now left. }
  destruct (Req_dec_T (magnitude vecB) 0) as [HzB | HnB].
  { apply cosine_zero_case. now right. }
  rewrite cosine_quotient_case, Hdot by assumption.
  unfold Rdiv. apply Rmult_0_l.
Qed.

(** X14.  In exact arithmetic two vectors with no key in common have
    similarity 0: a chunk that shares no term with the query scores 0. *)
Theorem cosineSimilarity_disjoint :
  forall vecA vecB : Map R,
    (forall key, In key (Map_keys vecA) -> ~ In key (Map_keys vecB)) ->
    cosineSimilarity vecA vecB = 0%R.
Proof.
  exact cosine_disjoint_zero.
Qed.

Lemma cosineSimilarity_disjoint_witness :
  cosineSimilarity [("cat", 1%R)] [("dog", 1%R); ("bird", 2%R)] = 0%R.
Proof.
  apply cosineSimilarity_disjoint.
  intros key [<- | []] [H | [H | []]]; discriminate.
Defined.

Section Scaling.

Local Open Scope R_scope.

Variables (c : R) (vec : Map R).
Hypothesis c_positive : 0 < c.

Lemma scaleVector_keys : Map_keys (scaleVector c vec) = Map_keys vec.
Proof.
  unfold Map_keys, scaleVector. rewrite map_map. now apply map_ext.
Qed.

Lemma scaleVector_weight (key : string) :
  weightOf (scaleVector c vec) key = c * weightOf vec key.
Proof.
  rewrite !weightOf_real. unfold scaleVector.
  induction vec as [|[k v] rest IH]; cbn [map Map_get fst snd]; [lra|].
  destruct (String.eqb key k); [reflexivity | exact IH].
Qed.

Lemma scaleVector_sumSquares :
  sumSquares (scaleVector c vec) = c * c * sumSquares vec.
Proof.
  rewrite !sumSquares_real. unfold scaleVector.
  induction vec as [|[k v] rest IH]; [cbn; lra|].
  rewrite !map_cons, !Rsum_cons, IH. cbn [snd]. lra.
Qed.

Lemma scaleVector_magnitude :
  magnitude (scaleVector c vec) = c * magnitude vec.
Proof.
  unfold magnitude. rewrite scaleVector_sumSquares.
  rewrite sqrt_mult; [|nra | apply sumSquares_nonneg].
  rewrite sqrt_square by lra. reflexivity.
Qed.

Lemma scaleVector_dot (other : Map R) :
  dotProductOf (scaleVector c vec) other = c * dotProductOf vec other.
Proof.
  rewrite !dotProductOf_real, scaleVector_keys.
  induction (Set_from (Map_keys vec ++ Map_keys other)) as [|k keys IH];
    [cbn; lra|].
  rewrite !map_cons, !Rsum_cons, IH, scaleVector_weight. lra.
Qed.

Lemma scaleVector_cosine (other : Map R) :
  cosineSimilarity (scaleVector c vec) other = cosineSimilarity vec other.
Proof.
  destruct (Req_dec_T (magnitude vec) 0) as [Hz | Hnz].
  { rewrite !cosine_zero_case; try reflexivity; left;
      [exact Hz | rewrite scaleVector_magnitude, Hz; lra]. }
  destruct (Req_dec_T (magnitude other) 0) as [Hzo | Hnzo].
  { rewrite !cosine_zero_case; try reflexivity; now right. }
  assert (Hscaled : magnitude (scaleVector c vec) <> 0).
  { rewrite scaleVector_magnitude. intros Habs.
    apply Rmult_integral in Habs as [Habs | Habs]; [lra | contradiction]. }
  rewrite !cosine_quotient_case by assumption.
  rewrite scaleVector_dot, scaleVector_magnitude. field.
  repeat split; try assumption. lra.
Qed.

End Scaling.

(** X15.  In exact arithmetic the similarity does not change when all the
    weights of a vector are multiplied by the same positive factor: only
    the direction of a vector counts, not its length. *)
Theorem cosineSimilarity_scale_invariant :
  forall (c : R) (vecA vecB : Map R),
    (0 < c)%R ->
    cosineSimilarity (scaleVector c vecA) vecB = cosineSimilarity vecA vecB.
Proof.
  intros c vecA vecB Hc. now apply scaleVector_cosine.
Qed.

Lemma cosineSimilarity_scale_invariant_witness :
  cosineSimilarity (scaleVector 3 [("cat", 1%R); ("dog", 2%R)]) [("dog", 1%R)]
  = cosineSimilarity [("cat", 1%R); ("dog", 2%R)] [("dog", 1%R)].
Proof.
  apply (cosineSimilarity_scale_invariant 3). lra.
Defined.

(** ** Chunk ids and the index *)

Lemma decimal_no_underscore (d : Decimal.uint) :
  string_forallb (fun c => negb (Ascii.eqb c "_")) (NilEmpty.string_of_uint d)
  = true.
Proof.
  unfold string_forallb. induction d; cbn; try reflexivity; exact IHd.
Qed.

Lemma decimal_inj (n m : nat) :
  NilEmpty.string_of_uint (Nat.to_uint n) = NilEmpty.string_of_uint (Nat.to_uint m) ->
  n = m.
Proof.
  intros Heq.
  assert (Hu : Some (Nat.to_uint n) = Some (Nat.to_uint m))
    by (rewrite <- !NilEmpty.usu; now rewrite Heq).
  injection Hu as Hu.
  rewrite <- (DecimalNat.Unsigned.of_to n), <- (DecimalNat.Unsigned.of_to m).
  now rewrite Hu.
Qed.

(** The last underscore of an id separates the source from the index. *)
Lemma underscore_split (s1 s2 d1 d2 : string) :
  string_forallb (fun c => negb (Ascii.eqb c "_")) d1 = true ->
  string_forallb (fun c => negb (Ascii.eqb c "_")) d2 = true ->
  (s1 ++ "_" ++ d1)%string = (s2 ++ "_" ++ d2)%string ->
  s1 = s2 /\ d1 = d2.
Proof.
  intros Hd1 Hd2. revert s2.
  assert (Hclash : forall s d d',
             string_forallb (fun c => negb (Ascii.eqb c "_")) d = true ->
             d <> (s ++ "_" ++ d')%string).
  { intros s d d' Hd Heq. rewrite Heq in Hd. unfold string_forallb in Hd.
    rewrite list_of_append, forallb_app in Hd. cbn in Hd.
    now rewrite andb_false_r in Hd. }
  induction s1 as [|c s1 IH]; intros [|c' s2]; cbn; intros Heq.
  - injection Heq as ->. now split.
  - injection Heq as <- Heq. exfalso. now apply (Hclash s2 d1 d2).
  - injection Heq as -> Heq. exfalso. symmetry in Heq.
    now apply (Hclash s1 d2 d1).
  - injection Heq as <- Heq. destruct (IH s2 Heq) as [-> ->]. now split.
Qed.

Lemma getChunkId_same (a b : Chunk) :
  getChunkId a = getChunkId b <->
  source a = source b /\ chunkIndex a = chunkIndex b.
Proof.
  unfold getChunkId. split.
  - intros Heq.
    apply underscore_split in Heq as [Hs Hd];
      try apply decimal_no_underscore.
    split; [exact Hs | now apply decimal_inj].
  - intros [-> ->]. reflexivity.
Qed.

(** X16.  [getChunkId] tells chunks apart by source and index: two chunks
    have the same id exactly when they have the same source and the same
    [chunkIndex], whatever underscores and digits the source names hold. *)
Theorem getChunkId_injective :
  forall a b : Chunk,
    getChunkId a = getChunkId b <->
    source a = source b /\ chunkIndex a = chunkIndex b.
Proof.
  exact getChunkId_same.
Qed.

(** X17.  The effect stores, under the id of a chunk that no later chunk
    shares its id with, the TF-IDF vector of that chunk's text under the
    IDF table of the whole current corpus, which is the table it leaves
    in [idfMap].  When an id occurs twice, the later chunk's vector is the
    one that stays. *)
Theorem reindex_vector_of_chunk :
  forall num (N : JsNumber num) (L : JsLog num) (kb : KnowledgeBase num)
         (earlier later : list Chunk) (c : Chunk),
    chunks kb = earlier ++ c :: later ->
    (forall c', In c' later -> getChunkId c' <> getChunkId c) ->
    idfMap (reindex kb) = calculateIdf (chunks kb)
    /\ Map_get (chunkTfidfVectors (reindex kb)) (getChunkId c)
       = Some (vectorizeWithTfidf (text c) (calculateIdf (chunks kb))).
Proof.
  intros num N L kb earlier later c Hchunks Hlater.
  split; [apply reindex_derived|].
  unfold reindex. rewrite Hchunks at 1.
  rewrite length_app. cbn [List.length].
  replace (Nat.eqb (List.length earlier + S (List.length later)) 0) with false
    by (symmetry; apply Nat.eqb_neq; lia).
  cbn [chunkTfidfVectors]. rewrite Hchunks at 1.
  apply (fold_set_last getChunkId
           (fun chunk => vectorizeWithTfidf (text chunk)
                           (calculateIdf (chunks kb)))).
  exact Hlater.
Qed.

Lemma reindex_vector_of_chunk_witness :
  let kb : KnowledgeBase R := mkKB [] [chunkA; chunkB] [] [] in
  idfMap (reindex kb) = calculateIdf (chunks kb)
  /\ Map_get (chunkTfidfVectors (reindex kb)) (getChunkId chunkA)
     = Some (vectorizeWithTfidf (text chunkA) (calculateIdf (chunks kb))).
Proof.
  apply (reindex_vector_of_chunk R _ _ (mkKB [] [chunkA; chunkB] [] [])
           [] [chunkB] chunkA).
  - reflexivity.
  - intros c' [<- | []]. vm_compute. discriminate.
Defined.

(** ** Documents with distinct names *)

Lemma NoDup_map_inj_in {A B} (f : A -> B) (l : list A) :
  (forall x y, In x l -> In y l -> f x = f y -> x = y) ->
  NoDup l -> NoDup (map f l).
Proof.
  intros Hinj Hnd. induction Hnd as [|x l Hnotin Hnd IH]; cbn; constructor.
  - intros Hin. apply in_map_iff in Hin as [y [Heq Hy]].
    apply Hinj in Heq; [subst y; contradiction | now right | now left].
  - apply IH. intros a b Ha Hb. apply Hinj; now right.
Qed.

(** The chunks of one document carry its name and have distinct ids. *)
Lemma intelligentChunking_ids {num} `{JsNumber num} (content sourceName : string) :
  NoDup (map getChunkId (fst (intelligentChunking content sourceName)))
  /\ (forall c, In c (fst (intelligentChunking content sourceName)) ->
                source c = sourceName).
Proof.
  destruct (intelligentChunking_window content sourceName) as [Heq Hadv].
  cbn zeta in Heq, Hadv. rewrite Heq. cbn [fst]. unfold slidingWindow.
  destruct (chunkLoop_fuel _ (analyzeContentType content) content sourceName
              (String.length content) Hadv 0 0) as [n [-> _]]; [lia|].
  split.
  - rewrite map_map. apply NoDup_map_inj_in; [|apply seq_NoDup].
    intros i j _ _ Hid. apply getChunkId_same in Hid as [_ Hidx].
    exact Hidx.
  - intros c Hc. apply in_map_iff in Hc as [i [<- _]]. reflexivity.
Qed.

Lemma appendDocument_consistent {num} `{JsNumber num}
    (kb : KnowledgeBase num) (docName docType : string) (docSize : nat)
    (content : string) :
  kbConsistent kb ->
  ~ In docName (map name (documents kb)) ->
  kbConsistent
    (mkKB (documents kb ++ [mkDocument docName docType docSize])
          (chunks kb ++ fst (intelligentChunking content docName))
          (idfMap kb) (chunkTfidfVectors kb)).
Proof.
  intros [Hdocs [Hnd Hsrc]] Hfresh.
  destruct (intelligentChunking_ids content docName) as [Hnew Hnames].
  unfold kbConsistent. cbn [chunks documents]. split; [|split].
  - rewrite map_app. cbn [map name]. apply NoDup_app; [exact Hdocs | |].
    + constructor; [intros [] | constructor].
    + intros docName' Hold [<- | []]. contradiction.
  - rewrite map_app. apply NoDup_app; [exact Hnd | exact Hnew |].
    intros id Hold Hnewid.
    apply in_map_iff in Hold as [a [<- Ha]].
    apply in_map_iff in Hnewid as [b [Hid Hb]].
    apply getChunkId_same in Hid as [Hsame _].
    apply Hfresh. rewrite <- (Hnames b Hb), Hsame. now apply Hsrc.
  - intros c Hc. rewrite map_app, in_app_iff.
    apply in_app_or in Hc as [Hc | Hc].
    + left. now apply Hsrc.
    + right. rewrite (Hnames c Hc). now left.
Qed.

(** X18.  Ingesting a document whose name is not in the knowledge base yet
    keeps the document names pairwise distinct, the chunk ids pairwise
    distinct and every chunk attached to a listed document: ids can only
    collide when a name is ingested twice.  The empty knowledge base is in
    that state. *)
Theorem addDocument_keeps_ids_distinct :
  forall num (N : JsNumber num)
         (fileName fileType : string) (fileSize : nat) (textContent : string)
         (kb kb' : KnowledgeBase num),
    kbConsistent kb ->
    ~ In fileName (map name (documents kb)) ->
    addDocumentToKnowledgeBase fileName fileType fileSize textContent kb
    = Returned kb' ->
    kbConsistent kb' /\ kbConsistent (@emptyKB num).
Proof.
  intros num N fileName fileType fileSize textContent kb kb' Hkb Hfresh Hadd.
  split.
  - unfold addDocumentToKnowledgeBase in Hadd.
    pose proof (appendDocument_consistent kb fileName fileType fileSize
                  textContent Hkb Hfresh) as Hnew.
    destruct (intelligentChunking textContent fileName) as [newChunks ct].
    injection Hadd as <-. exact Hnew.
  - split; [constructor | split; [constructor | intros c []]].
Qed.

Lemma addDocument_keeps_ids_distinct_witness :
  kbConsistent
    (mkKB [mkDocument "notes.txt" "text/plain" 4]
          [mkChunk "notes.txt" 0 "AAAA" (Some narrative)]
          ([] : Map float) [])
  /\ kbConsistent (@emptyKB float).
Proof.
  apply (addDocument_keeps_ids_distinct float _ "notes.txt" "text/plain" 4
           "AAAA" emptyKB).
  - split; [constructor | split; [constructor | intros c []]].
  - intros [].
  - vm_compute. reflexivity.
Defined.

Lemma loadSampleDocs_fold {num} `{JsNumber num}
    (sampleDocs : list (string * string)) :
  forall kb : KnowledgeBase num,
    kbConsistent kb ->
    NoDup (map name (documents kb) ++ map fst sampleDocs) ->
    let kb' :=
      fold_left
        (fun kb '(docName, content) =>
           let fileSize := blobSize content in
           let newChunks := fst (intelligentChunking content docName) in
           mkKB (documents kb ++ [mkDocument docName "text/plain" fileSize])
                (chunks kb ++ newChunks) (idfMap kb) (chunkTfidfVectors kb))
        sampleDocs kb in
    kbConsistent kb'
    /\ map name (documents kb') = map name (documents kb) ++ map fst sampleDocs.
Proof.
  induction sampleDocs as [|[docName content] rest IH]; intros kb Hkb Hnd;
    cbn zeta; cbn [fold_left map fst].
  - split; [exact Hkb | now rewrite app_nil_r].
  - assert (Hfresh : ~ In docName (map name (documents kb))).
    { intros Hin. apply NoDup_remove_2 in Hnd. apply Hnd.
      apply in_or_app. now left. }
    pose proof (appendDocument_consistent kb docName "text/plain"
                  (blobSize content) content Hkb Hfresh) as Hstep.
    match goal with
    | |- context [fold_left _ rest ?kb1] => specialize (IH kb1 Hstep)
    end.
    cbn [documents] in IH. rewrite map_app in IH. cbn [map name] in IH.
    rewrite <- app_assoc in IH. cbn [app] in IH.
    destruct IH as [Hcons Hnames].
    + exact Hnd.
    + split; [exact Hcons | exact Hnames].
Qed.

Lemma loadSampleDocs_same_start {num} `{JsNumber num}
    (sampleDocs : list (string * string)) :
  forall kb1 kb2 : KnowledgeBase num,
    documents kb1 = documents kb2 ->
    chunks kb1 = chunks kb2 ->
    let step := fun (kb : KnowledgeBase num) '(docName, content) =>
      let fileSize := blobSize content in
      let newChunks := fst (intelligentChunking content docName) in
      mkKB (documents kb ++ [mkDocument docName "text/plain" fileSize])
           (chunks kb ++ newChunks) (idfMap kb) (chunkTfidfVectors kb) in
    documents (fold_left step sampleDocs kb1)
    = documents (fold_left step sampleDocs kb2)
    /\ chunks (fold_left step sampleDocs kb1)
       = chunks (fold_left step sampleDocs kb2).
Proof.
  induction sampleDocs as [|[docName content] rest IH]; intros kb1 kb2 Hd Hc;
    cbn zeta; cbn [fold_left].
  - now split.
  - apply IH; cbn [documents chunks]; congruence.
Qed.

(** X19.  Loading the sample documents replaces the knowledge base: the
    documents and chunks afterwards are those of loading the samples into
    an empty knowledge base, whatever was there before; the documents are
    the samples in order; and when the sample names are distinct, as the
    three in the source are, the chunk ids are pairwise distinct. *)
Theorem loadSampleDocs_replaces :
  forall num (N : JsNumber num) (sampleDocs : list (string * string))
         (kb : KnowledgeBase num),
    NoDup (map fst sampleDocs) ->
    map name (documents (loadSampleDocs sampleDocs kb)) = map fst sampleDocs
    /\ kbConsistent (loadSampleDocs sampleDocs kb)
    /\ documents (loadSampleDocs sampleDocs kb)
       = documents (loadSampleDocs sampleDocs emptyKB)
    /\ chunks (loadSampleDocs sampleDocs kb)
       = chunks (loadSampleDocs sampleDocs emptyKB).
Proof.
  intros num N sampleDocs kb Hnd. unfold loadSampleDocs.
  assert (Hstart : kbConsistent (clearKnowledgeBase kb))
    by (split; [constructor | split; [constructor | intros c []]]).
  destruct (loadSampleDocs_fold sampleDocs (clearKnowledgeBase kb) Hstart Hnd)
    as [Hcons Hnames].
  destruct (loadSampleDocs_same_start sampleDocs (clearKnowledgeBase kb)
              (clearKnowledgeBase emptyKB) eq_refl eq_refl) as [Hdocs Hchunks].
  split; [exact Hnames | split; [exact Hcons | split; [exact Hdocs | exact Hchunks]]].
Qed.

Lemma loadSampleDocs_replaces_witness :
  let samples := [("a.txt", "cat dog"); ("b.txt", "dog bird")] in
  map name (documents (loadSampleDocs samples kbExample)) = map fst samples
  /\ kbConsistent (loadSampleDocs samples kbExample)
  /\ documents (loadSampleDocs samples kbExample)
     = documents (loadSampleDocs samples emptyKB)
  /\ chunks (loadSampleDocs samples kbExample)
     = chunks (loadSampleDocs samples emptyKB).
Proof.
  apply (loadSampleDocs_replaces float _
           [("a.txt", "cat dog"); ("b.txt", "dog bird")] kbExample).
  repeat constructor; cbn; intuition discriminate.
Defined.

(** ** Uploads *)

(** X20.  An upload is refused, with one alert and nothing else changed,
    when the file is larger than [MAX_UPLOAD_BYTES] (5 MB), when its type
    is not [text/plain], or when it cannot be read; the size is checked
    first, so an oversized file always gets the size message.  Any other
    file is ingested by [addDocumentToKnowledgeBase] under its own name,
    type and size, the Knowledge tab is opened and no alert is raised. *)
Theorem handleFileUpload_outcomes :
  forall num (N : JsNumber num) (file : File) (st : Screen num),
    (MAX_UPLOAD_BYTES < file_size file
     \/ file_type file <> "text/plain"
     \/ file_read file = None ->
     screen_kb (handleFileUpload file st) = screen_kb st
     /\ activeTab (handleFileUpload file st) = activeTab st
     /\ exists message,
         alerts (handleFileUpload file st) = alerts st ++ [message])
    /\ (MAX_UPLOAD_BYTES < file_size file ->
        alerts (handleFileUpload file st)
        = alerts st ++ ["Error: File size exceeds 5MB limit."])
    /\ (forall content,
           file_size file <= MAX_UPLOAD_BYTES ->
           file_type file = "text/plain" ->
           file_read file = Some content ->
           addDocumentToKnowledgeBase (file_name file) (file_type file)
             (file_size file) content (screen_kb st)
           = Returned (screen_kb (handleFileUpload file st))
           /\ activeTab (handleFileUpload file st) = "knowledge"
           /\ alerts (handleFileUpload file st) = alerts st).
Proof.
  intros num N file st. unfold handleFileUpload.
  generalize MAX_UPLOAD_BYTES. intros limit.
  destruct (Nat.ltb limit (file_size file)) eqn:Hsize.
  - apply Nat.ltb_lt in Hsize. split; [|split].
    + intros _. cbn. repeat split. eexists. reflexivity.
    + intros _. reflexivity.
    + intros content Hle. lia.
  - apply Nat.ltb_ge in Hsize. unfold processFile.
    destruct (String.eqb (file_type file) "text/plain") eqn:Htype; cbn [negb].
    + apply String.eqb_eq in Htype.
      destruct (file_read file) as [content|] eqn:Hread.
      * split; [|split].
        -- intros [Hbig | [Hty | Hrd]]; [lia | contradiction | discriminate].
        -- intros Hbig. lia.
        -- intros content' _ _ [= <-]. unfold addDocumentToKnowledgeBase.
           destruct (intelligentChunking content (file_name file)) as [cs ct].
           cbn. repeat split.
      * split; [|split].
        -- intros _. cbn. repeat split. eexists. reflexivity.
        -- intros Hbig. lia.
        -- intros content _ _ Habs. discriminate.
    + apply String.eqb_neq in Htype. split; [|split].
      * intros _. cbn. repeat split. eexists. reflexivity.
      * intros Hbig. lia.
      * intros content _ Hty. contradiction.
Qed.

Lemma handleFileUpload_outcomes_witness :
  let pdf := mkFile "paper.pdf" "application/pdf" 1000 (Some "%PDF") in
  let txt := mkFile "notes.txt" "text/plain" 4 (Some "AAAA") in
  let st : Screen float := mkScreen emptyKB "upload" [] in
  (screen_kb (handleFileUpload pdf st) = screen_kb st
   /\ activeTab (handleFileUpload pdf st) = activeTab st
   /\ exists message, alerts (handleFileUpload pdf st) = alerts st ++ [message])
  /\ (addDocumentToKnowledgeBase "notes.txt" "text/plain" 4 "AAAA" (screen_kb st)
      = Returned (screen_kb (handleFileUpload txt st))
      /\ activeTab (handleFileUpload txt st) = "knowledge"
      /\ alerts (handleFileUpload txt st) = alerts st).
Proof.
  cbv zeta. split.
  - apply (proj1 (handleFileUpload_outcomes float _
                    (mkFile "paper.pdf" "application/pdf" 1000 (Some "%PDF"))
                    (mkScreen emptyKB "upload" []))).
    right. left. cbn. discriminate.
  - apply (proj2 (proj2 (handleFileUpload_outcomes float _
                           (mkFile "notes.txt" "text/plain" 4 (Some "AAAA"))
                           (mkScreen emptyKB "upload" [])))).
    + unfold MAX_UPLOAD_BYTES. cbn [file_size]. lia.
    + reflexivity.
    + reflexivity.
Defined.

(** ** Retrieval in any arithmetic *)

Lemma filter_keeps_distinct {X Y} (keep : X -> bool) (key : X -> Y) :
  forall items : list X,
    NoDup (map key items) -> NoDup (map key (filter keep items)).
Proof.
  intros items. induction items as [|x items IH]; cbn; intros Hnd; [constructor|].
  inversion Hnd as [|? ? Hnotin Hnd']; subst.
  destruct (keep x); cbn; [|now apply IH].
  constructor; [|now apply IH].
  intros Hin. apply Hnotin. apply in_map_iff in Hin as [y [Heq Hy]].
  apply filter_In in Hy as [Hy _]. apply in_map_iff. now exists y.
Qed.

Lemma NoDup_firstn {A} (n : nat) (l : list A) : NoDup l -> NoDup (firstn n l).
Proof.
  intros Hnd. revert n. induction Hnd as [|x l Hnotin Hnd IH]; intros [|n]; cbn;
    try constructor.
  - intros Hin. apply Hnotin. now apply firstn_In in Hin.
  - apply IH.
Qed.

Lemma tagFrom_fst {A} (l : list A) :
  forall start, map fst (tagFrom start l) = seq start (List.length l).
Proof.
  induction l as [|x l IH]; intros start; cbn; [reflexivity | now rewrite IH].
Qed.

(** X21.  In any arithmetic, binary64 included, the chunks
    [findRelevantChunks] returns are the chunks at pairwise distinct
    positions of the corpus: an entry of the corpus is never returned
    twice, and nothing is returned that is not in the corpus. *)
Theorem findRelevantChunks_distinct_positions :
  forall num (N : JsNumber num) (kb : KnowledgeBase num) (query : string),
    exists positions : list nat,
      NoDup positions
      /\ Forall2 (fun c p => nth_error (chunks kb) p = Some c)
                 (findRelevantChunks kb query) positions.
Proof.
  intros num N kb query.
  destruct (findRelevantChunks_cases kb query) as [-> | ->].
  { exists []. split; constructor. }
  set (toScored := fun c =>
         mkScored c (scoreChunk (chunkTfidfVectors kb)
                       (vectorizeWithTfidf query (idfMap kb)) c)).
  set (tagged := tagFrom 0 (map toScored (chunks kb))).
  set (ranked := rankScored (fun t : nat * ScoredChunk num => score (snd t)) tagged).
  assert (Hranked : rankScored score (map toScored (chunks kb)) = map snd ranked).
  { unfold ranked. rewrite (rankScored_map snd score tagged).
    unfold tagged. now rewrite tagFrom_snd. }
  exists (map fst ranked). split.
  - unfold ranked, rankScored. rewrite <- firstn_map.
    apply NoDup_firstn, filter_keeps_distinct.
    apply (Permutation_NoDup
             (Permutation_sym (Permutation_map fst (Array_sort_perm _ tagged)))).
    unfold tagged. rewrite tagFrom_fst. apply seq_NoDup.
  - rewrite Hranked, map_map. apply Forall2_maps, Forall_forall.
    intros [p sc] Ht. apply rankScored_In in Ht as [Ht _].
    apply tagFrom_In in Ht as [_ Hnth]. rewrite Nat.sub_0_r in Hnth.
    rewrite nth_error_map in Hnth. cbn [fst snd].
    destruct (nth_error (chunks kb) p) as [c|]; [|discriminate].
    injection Hnth as <-. reflexivity.
Qed.

(** ** The chat form *)

Lemma list_of_string_rev (s : string) :
  list_ascii_of_string (string_rev s) = rev (list_ascii_of_string s).
Proof. unfold string_rev. apply list_ascii_of_string_of_list_ascii. Qed.

Lemma string_rev_involutive (s : string) : string_rev (string_rev s) = s.
Proof.
  apply list_of_string_inj. now rewrite !list_of_string_rev, rev_involutive.
Qed.

Lemma string_rev_app (a b : string) :
  string_rev (a ++ b) = (string_rev b ++ string_rev a)%string.
Proof.
  apply list_of_string_inj.
  now rewrite list_of_string_rev, !list_of_append, !list_of_string_rev, rev_app_distr.
Qed.

Lemma string_forallb_rev (p : ascii -> bool) (s : string) :
  string_forallb p s = true -> string_forallb p (string_rev s) = true.
Proof.
  unfold string_forallb. rewrite list_of_string_rev, !forallb_forall.
  intros Hp c Hc. apply Hp. now apply in_rev.
Qed.

Lemma trimStart_split (s : string) :
  exists ws,
    string_forallb isSpaceChar ws = true /\ s = (ws ++ trimStart s)%string.
Proof.
  induction s as [|c s [ws [Hws Hs]]]; cbn [trimStart].
  - exists EmptyString. now split.
  - destruct (isSpaceChar c) eqn:Hc.
    + exists (String c ws). split.
      * unfold string_forallb in *. cbn. now rewrite Hc, Hws.
      * cbn. now rewrite <- Hs.
    + exists EmptyString. now split.
Qed.

Lemma trimEnd_split (s : string) :
  exists ws,
    string_forallb isSpaceChar ws = true /\ s = (trimEnd s ++ ws)%string.
Proof.
  destruct (trimStart_split (string_rev s)) as [ws [Hws Hs]].
  exists (string_rev ws). split; [now apply string_forallb_rev|].
  unfold trimEnd. rewrite <- string_rev_app, <- Hs.
  now rewrite string_rev_involutive.
Qed.

Lemma trimStart_idempotent (s : string) : trimStart (trimStart s) = trimStart s.
Proof.
  induction s as [|c s IH]; cbn [trimStart]; [reflexivity|].
  destruct (isSpaceChar c) eqn:Hc; [exact IH|]. cbn [trimStart]. now rewrite Hc.
Qed.

Lemma trimStart_spaces (ws : string) :
  string_forallb isSpaceChar ws = true -> trimStart ws = EmptyString.
Proof.
  unfold string_forallb. induction ws as [|c ws IH]; cbn; [reflexivity|].
  intros Hws. apply andb_true_iff in Hws as [Hc Hws]. now rewrite Hc, IH.
Qed.

Lemma trim_fixed (s : string) : trim (trim s) = trim s.
Proof.
  unfold trim.
  assert (Hstart : trimStart (trimEnd (trimStart s)) = trimEnd (trimStart s)).
  { destruct (trimEnd_split (trimStart s)) as [ws [Hws Hs]].
    destruct (trimEnd (trimStart s)) as [|d t] eqn:Ht; [reflexivity|].
    cbn [trimStart]. destruct (isSpaceChar d) eqn:Hd; [|reflexivity].
    exfalso. pose proof (trimStart_idempotent s) as Hidem.
    rewrite Hs in Hidem. cbn [String.append trimStart] in Hidem.
    rewrite Hd in Hidem.
    destruct (trimStart_split (t ++ ws)) as [ws' [_ Hsplit]].
    apply (f_equal String.length) in Hidem.
    apply (f_equal String.length) in Hsplit.
    rewrite <- !list_of_length in *. rewrite !list_of_append in *.
    cbn [list_ascii_of_string List.length] in *.
    rewrite !length_app in *. rewrite list_of_append, length_app in Hidem.
    lia. }
  rewrite Hstart. unfold trimEnd.
  now rewrite string_rev_involutive, trimStart_idempotent.
Qed.

Lemma tokenize_spaces (ws : string) :
  string_forallb isSpaceChar ws = true -> tokenize ws = [].
Proof.
  unfold string_forallb. induction ws as [|c ws IH]; cbn [list_ascii_of_string forallb];
    [reflexivity|].
  intros Hws. apply andb_true_iff in Hws as [Hc Hws].
  change (String c ws) with (EmptyString ++ String c ws)%string.
  rewrite tokenize_app by exact Hc. now rewrite IH.
Qed.

Lemma tokenize_leading (ws s : string) :
  string_forallb isSpaceChar ws = true -> tokenize (ws ++ s) = tokenize s.
Proof.
  unfold string_forallb. induction ws as [|c ws IH]; cbn [list_ascii_of_string forallb];
    [reflexivity|].
  intros Hws. apply andb_true_iff in Hws as [Hc Hws].
  change (String c ws ++ s)%string with (EmptyString ++ String c (ws ++ s))%string.
  rewrite tokenize_app by exact Hc. now rewrite IH.
Qed.

Lemma tokenize_trailing (s ws : string) :
  string_forallb isSpaceChar ws = true -> tokenize (s ++ ws) = tokenize s.
Proof.
  destruct ws as [|c ws]; [now rewrite string_app_nil_r|].
  unfold string_forallb. cbn [list_ascii_of_string forallb]. intros Hws.
  apply andb_true_iff in Hws as [Hc Hws].
  rewrite tokenize_app by exact Hc.
  rewrite (tokenize_spaces ws) by exact Hws. apply app_nil_r.
Qed.

Lemma tokenize_trim (s : string) : tokenize (trim s) = tokenize s.
Proof.
  unfold trim.
  destruct (trimStart_split s) as [ws1 [Hws1 Hs]].
  destruct (trimEnd_split (trimStart s)) as [ws2 [Hws2 Ht]].
  rewrite Hs at 2. rewrite tokenize_leading by exact Hws1.
  rewrite Ht at 2. now rewrite tokenize_trailing.
Qed.

(** X22.  The chat form sends a message only when no answer is pending and
    the knowledge base is ready, and then it sends the input with the white
    space at both ends removed: the message is not empty, has nothing left
    to trim, and has exactly the tokens of the input as typed.  An input of
    white space alone is never sent. *)
Theorem handleSubmit_sends_trimmed :
  forall (input : string) (isAiLoading isKnowledgeBaseReady : bool),
    (forall message,
        handleSubmit input isAiLoading isKnowledgeBaseReady = Some message ->
        message = trim input
        /\ message <> EmptyString
        /\ trim message = message
        /\ tokenize message = tokenize input
        /\ isAiLoading = false /\ isKnowledgeBaseReady = true)
    /\ (string_forallb isSpaceChar input = true ->
        handleSubmit input isAiLoading isKnowledgeBaseReady = None).
Proof.
  intros input isAiLoading isKnowledgeBaseReady. unfold handleSubmit. split.
  - intros message Hsend.
    destruct (Nat.ltb 0 (String.length (trim input))) eqn:Hlen;
      [|discriminate].
    destruct isAiLoading; [discriminate|].
    destruct isKnowledgeBaseReady; [|discriminate].
    injection Hsend as <-.
    split; [reflexivity|]. split.
    { intros Hempty. rewrite Hempty in Hlen. discriminate. }
    split; [apply trim_fixed|]. split; [apply tokenize_trim|]. now split.
  - intros Hspaces. unfold trim. rewrite (trimStart_spaces input Hspaces).
    reflexivity.
Qed.

Lemma handleSubmit_sends_trimmed_witness :
  "what is a cat?" = trim "  what is a cat? "
  /\ "what is a cat?" <> EmptyString
  /\ trim "what is a cat?" = "what is a cat?"
  /\ tokenize "what is a cat?" = tokenize "  what is a cat? "
  /\ false = false /\ true = true.
Proof.
  apply (proj1 (handleSubmit_sends_trimmed "  what is a cat? " false true)).
  reflexivity.
Defined.

(** ** What a retrieved chunk shares with the query *)

Lemma vectorize_key_is_token {num} `{JsNumber num}
    (content : string) (idf : Map num) (key : string) :
  In key (Map_keys (vectorizeWithTfidf content idf)) ->
  In key (tokenize content).
Proof.
  intros Hin.
  destruct (Map_get (vectorizeWithTfidf content idf) key) as [w|] eqn:Hget.
  - now apply vectorize_entry in Hget as [Htok _].
  - apply Map_get_None in Hget. contradiction.
Qed.

Lemma common_key_or_disjoint (vecA vecB : Map R) :
  (exists key, In key (Map_keys vecA) /\ In key (Map_keys vecB))
  \/ (forall key, In key (Map_keys vecA) -> ~ In key (Map_keys vecB)).
Proof.
  destruct (existsb (fun key => Map_has vecB key) (Map_keys vecA)) eqn:Hex.
  - left. apply existsb_exists in Hex as [key [Hin Hhas]].
    exists key. split; [exact Hin|]. unfold Map_has in Hhas.
    destruct (Map_get vecB key) eqn:Hget; [|discriminate].
    apply Map_get_In in Hget. apply (in_map fst) in Hget. exact Hget.
  - right. intros key HA HB.
    assert (existsb (fun key => Map_has vecB key) (Map_keys vecA) = true);
      [|congruence].
    apply existsb_exists. exists key. split; [exact HA|].
    unfold Map_has. destruct (Map_get vecB key) eqn:Hget; [reflexivity|].
    apply Map_get_None in Hget. contradiction.
Qed.

Lemma magnitude_positive_entry (vec : Map R) (k : string) (w : R) :
  In (k, w) vec -> (0 < w)%R -> magnitude vec <> 0%R.
Proof.
  intros Hin Hw. unfold magnitude. cbn [num_sqrt RealNumber].
  rewrite sumSquares_real.
  assert (Hpos : (0 < Rsum (map (fun entry : string * R => (snd entry * snd entry)%R) vec))%R).
  { induction vec as [|[k' w'] vec IH]; [destruct Hin|].
    rewrite map_cons, Rsum_cons. cbn [snd].
    assert (Hrest : (0 <= Rsum (map (fun entry : string * R => (snd entry * snd entry)%R) vec))%R).
    { clear. induction vec as [|[k v] vec IH]; [cbn; lra|].
      rewrite map_cons, Rsum_cons. cbn [snd]. nra. }
    destruct Hin as [[= -> ->] | Hin]; [nra|].
    specialize (IH Hin). nra. }
  apply sqrt_lt_R0 in Hpos. lra.
Qed.

Lemma vectorize_same_tokens {num} `{JsNumber num}
    (a b : string) (idf : Map num) :
  tokenize a = tokenize b ->
  vectorizeWithTfidf a idf = vectorizeWithTfidf b idf.
Proof. intros Heq. unfold vectorizeWithTfidf. now rewrite Heq. Qed.

Lemma matching_query_score (kb : KnowledgeBase R) (query : string) (c : Chunk) :
  NoDup (map getChunkId (chunks kb)) ->
  In c (chunks kb) ->
  tokenize (text c) <> [] ->
  tokenize query = tokenize (text c) ->
  scoreChunk (chunkTfidfVectors (reindex kb))
             (vectorizeWithTfidf query (idfMap (reindex kb))) c = 1%R.
Proof.
  intros Hnd Hin Htok Hsame.
  rewrite (vectorize_same_tokens _ _ _ Hsame).
  destruct (reindex_derived kb) as [_ [_ [Hidf _]]]. rewrite Hidf.
  pose proof Hin as Hin0.
  apply in_split in Hin as [earlier [later Hsplit]].
  assert (Hlater : forall c', In c' later -> getChunkId c' <> getChunkId c).
  { intros c' Hc' Heq. rewrite Hsplit, map_app in Hnd. cbn [map] in Hnd.
    apply NoDup_remove_2 in Hnd. apply Hnd. apply in_or_app. right.
    rewrite <- Heq. now apply in_map. }
  assert (Hvec : Map_get (chunkTfidfVectors (reindex kb)) (getChunkId c)
                 = Some (vectorizeWithTfidf (text c) (calculateIdf (chunks kb)))).
  { unfold reindex. rewrite Hsplit at 1. rewrite length_app. cbn [List.length].
    replace (Nat.eqb (List.length earlier + S (List.length later)) 0) with false
      by (symmetry; apply Nat.eqb_neq; lia).
    cbn [chunkTfidfVectors]. rewrite Hsplit at 1.
    apply (fold_set_last getChunkId
             (fun chunk => vectorizeWithTfidf (text chunk)
                             (calculateIdf (chunks kb)))).
    exact Hlater. }
  unfold scoreChunk. rewrite Hvec.
  apply cosine_self; [apply vectorize_wf|].
  destruct (tokenize (text c)) as [|t rest] eqn:Ht; [contradiction|].
  assert (Htin : In t (tokenize (text c))) by (rewrite Ht; now left).
  assert (Hdf : documentFrequency t (chunks kb) <> 0).
  { unfold documentFrequency.
    assert (Hf : In c (filter (containsTerm t) (chunks kb))).
    { apply filter_In. split; [exact Hin0|]. unfold containsTerm.
      apply Set_has_In, Set_from_In. exact Htin. }
    destruct (filter (containsTerm t) (chunks kb)); [destruct Hf | discriminate]. }
  pose proof (vectorize_get (text c) (@calculateIdf R _ _ (chunks kb)) t) as Hget.
  cbn zeta in Hget.
  pose proof (proj1 (count_occ_In string_dec _ _) Htin) as Hcount.
  destruct (Nat.eqb (count_occ string_dec (tokenize (text c)) t) 0) eqn:Hz.
  { apply Nat.eqb_eq in Hz. lia. }
  apply (magnitude_positive_entry _ t _ (Map_get_In _ _ _ Hget)).
  rewrite getOrZero_real. cbn [num_mul num_div num_of_nat RealNumber].
  pose proof (tf_ratio_positive _ _ Htin) as Htf.
  rewrite calculateIdf_get.
  destruct (Nat.eqb (documentFrequency t (chunks kb)) 0) eqn:Hd.
  { apply Nat.eqb_eq in Hd. contradiction. }
  pose proof (calculateIdf_get (num:=R) (chunks kb) t) as Hidfget.
  rewrite Hd in Hidfget. apply calculateIdf_nonNegative in Hidfget as Hnn.
  destruct (idf_value_bounds _ _ _ Hidfget) as [[Hone _] _].
  apply Rmult_lt_0_compat; [exact Htf | lra].
Qed.

Lemma findRelevantChunks_single_chunk :
  findRelevantChunks (reindex (mkKB [] [chunkA] [] [])) "Cat, dog!" = [chunkA].
Proof.
  set (kb := mkKB [] [chunkA] [] []).
  assert (Hscore : scoreChunk (chunkTfidfVectors (reindex kb))
                     (vectorizeWithTfidf "Cat, dog!" (idfMap (reindex kb)))
                     chunkA = 1%R).
  { apply matching_query_score.
    - constructor; [intros [] | constructor].
    - now left.
    - vm_compute. discriminate.
    - vm_compute. reflexivity. }
  unfold findRelevantChunks.
  replace (indexIsEmpty (reindex kb)) with false by (lazy; reflexivity).
  change (chunks (reindex kb)) with [chunkA].
  cbn [map]. unfold rankScored, Array_sort.
  cbn [fold_right sortInsert filter score].
  rewrite Hscore.
  rewrite (proj2 (floor_real 1)) by lra.
  reflexivity.
Qed.

(** X23.  In exact arithmetic, on a re-indexed knowledge base whose chunk
    ids are pairwise distinct, every chunk [findRelevantChunks] returns
    has a token in common with the query: a chunk that shares no word with
    the query is never retrieved. *)
Theorem findRelevantChunks_shares_token :
  forall (kb : KnowledgeBase R) (query : string) (c : Chunk),
    NoDup (map getChunkId (chunks kb)) ->
    In c (findRelevantChunks (reindex kb) query) ->
    exists token,
      In token (tokenize query) /\ In token (tokenize (text c)).
Proof.
  intros kb query c Hnd Hc.
  destruct (findRelevantChunks_bounded (reindex kb) query) as [_ Hall].
  rewrite Forall_forall in Hall. destruct (Hall c Hc) as [Hin Hscore].
  apply floor_real in Hscore.
  destruct (reindex_derived kb) as [Hchunks [_ [Hidf _]]].
  rewrite Hchunks in Hin. rewrite Hidf in Hscore.
  apply in_split in Hin as [earlier [later Hsplit]].
  assert (Hlater : forall c', In c' later -> getChunkId c' <> getChunkId c).
  { intros c' Hc' Heq. rewrite Hsplit, map_app in Hnd. cbn [map] in Hnd.
    apply NoDup_remove_2 in Hnd. apply Hnd. apply in_or_app. right.
    rewrite <- Heq. now apply in_map. }
  assert (Hvec : Map_get (chunkTfidfVectors (reindex kb)) (getChunkId c)
                 = Some (vectorizeWithTfidf (text c) (calculateIdf (chunks kb)))).
  { unfold reindex. rewrite Hsplit at 1. rewrite length_app. cbn [List.length].
    replace (Nat.eqb (List.length earlier + S (List.length later)) 0) with false
      by (symmetry; apply Nat.eqb_neq; lia).
    cbn [chunkTfidfVectors]. rewrite Hsplit at 1.
    apply (fold_set_last getChunkId
             (fun chunk => vectorizeWithTfidf (text chunk)
                             (calculateIdf (chunks kb)))).
    exact Hlater. }
  unfold scoreChunk in Hscore. rewrite Hvec in Hscore.
  destruct (common_key_or_disjoint
              (vectorizeWithTfidf query (calculateIdf (chunks kb)))
              (vectorizeWithTfidf (text c) (calculateIdf (chunks kb))))
    as [[key [Hq Hk]] | Hdisjoint].
  - exists key.
    split; [exact (vectorize_key_is_token _ _ _ Hq)
           | exact (vectorize_key_is_token _ _ _ Hk)].
  - rewrite (cosine_disjoint_zero _ _ Hdisjoint) in Hscore. lra.
Qed.

Lemma findRelevantChunks_shares_token_witness :
  exists token,
    In token (tokenize "Cat, dog!") /\ In token (tokenize (text chunkA)).
Proof.
  apply (findRelevantChunks_shares_token
           (mkKB [] [chunkA] [] []) "Cat, dog!" chunkA).
  - constructor; [intros [] | constructor].
  - rewrite findRelevantChunks_single_chunk. now left.
Defined.

(** X24.  In exact arithmetic, on a re-indexed knowledge base whose chunk
    ids are pairwise distinct, a query with the same token sequence as an
    indexed chunk that has at least one token (the same words in the same
    order, whatever their case and punctuation) scores that chunk exactly
    1, the largest score there is. *)
Theorem findRelevantChunks_matching_query_scores_one :
  forall (kb : KnowledgeBase R) (query : string) (c : Chunk),
    NoDup (map getChunkId (chunks kb)) ->
    In c (chunks kb) ->
    tokenize (text c) <> [] ->
    tokenize query = tokenize (text c) ->
    scoreChunk (chunkTfidfVectors (reindex kb))
               (vectorizeWithTfidf query (idfMap (reindex kb))) c = 1%R.
Proof. exact matching_query_score. Qed.

Lemma findRelevantChunks_matching_query_scores_one_witness :
  scoreChunk (chunkTfidfVectors (reindex (mkKB [] [chunkA; chunkB] [] [])))
             (vectorizeWithTfidf "Dog... BIRD?"
                (idfMap (reindex (mkKB [] [chunkA; chunkB] [] []))))
             chunkB = 1%R.
Proof.
  apply (findRelevantChunks_matching_query_scores_one
           (mkKB [] [chunkA; chunkB] [] []) "Dog... BIRD?" chunkB).
  - vm_compute. constructor; [intros [H | []]; discriminate H|].
    constructor; [intros [] | constructor].
  - right. now left.
  - vm_compute. discriminate.
  - vm_compute. reflexivity.
Defined.

(** ** Nothing is lost by chunking *)

(** X25.  [intelligentChunking] never truncates a text.  With either of its
    two configurations the window advances at every step, so the guard
    that would leave the loop early is never taken, and the chunks reach
    the end of the text: the first 720 (narrative) or 360 (atomic) code
    units of every chunk but the last, followed by the last chunk in full,
    are the text. *)
Theorem intelligentChunking_covers_text :
  forall num (N : JsNumber num) (content sourceName : string),
    trimOverlap
      (match snd (intelligentChunking content sourceName) with
       | narrative => 720
       | atomic => 360
       end)
      (map text (fst (intelligentChunking content sourceName)))
    = content.
Proof.
  intros num N content sourceName.
  destruct (intelligentChunking_window content sourceName) as [Heq Hadv].
  cbn zeta in Heq, Hadv. rewrite Heq. cbn [fst snd].
  apply list_of_string_inj. unfold slidingWindow.
  pose proof (chunkLoop_trimmed (configFor (analyzeContentType content))
                (analyzeContentType content) content sourceName
                (String.length content) Hadv 0 0) as Hcover.
  rewrite Nat.sub_0_r in Hcover. specialize (Hcover (Nat.le_refl _)).
  cbn [skipn] in Hcover. rewrite <- Hcover.
  destruct (analyzeContentType content); reflexivity.
Qed.
